(** * History Slackbot: a shallow embedding and its verified properties

    The development follows the Go packages of the bot and of the
    standard library that it calls:
    - [Utf8], [Strings]: the functions of [unicode/utf8], [strings] and
      [bytes] in use;
    - [Fmt]: the scanner behind [fmt.Sscanf];
    - [Strconv]: [strconv.ParseBool] and [strconv.Atoi];
    - [Time]: instants, locations and durations;
    - [Scheduler]: internal/scheduler/scheduler.go;
    - [Rss]: internal/rss/parser.go;
    - [Llm]: internal/llm/selector.go;
    - [Slack]: internal/slack/poster.go;
    - [Bot]: cmd/bot/main.go;
    - [Config]: internal/config/config.go;
    - [FenceSpec], [ItemSpec], [FeedSpec], [HolidaySpec], [CronSpec],
      [TextSpec], [PromptSpec], [SlackSpec], [FetchSpec]: the vocabulary
      in which the properties are stated.

    A Go [string] is a sequence of bytes, here a [list ascii]; an [int]
    is a [Z]; a [rune] is a [Z] code point.  What lies outside the
    process (the network, the clock, the language model) enters as the
    variables of a section.  Loops run on fuel; that the fuel given is
    enough is proved with the lemmas.  Definitions come first, lemmas and
    theorems follow. *)

From Stdlib Require Import ZArith List Bool Lia Ascii String Arith DecimalString DecimalPos.
Import ListNotations.
Open Scope Z_scope.


(** Go strings are byte sequences. *)
Definition gostring := list ascii.

(** A string literal of the source. *)
Definition lit (s : string) : gostring := list_ascii_of_string s.

Definition len {A : Type} (s : list A) : Z := Z.of_nat (List.length s).

(** Numeric value of a byte. *)
Definition byteval (c : ascii) : Z := Z.of_N (N_of_ascii c).

(** An integer as the verb [%d] prints it. *)
Definition formatInt (z : Z) : gostring :=
  list_ascii_of_string (NilZero.string_of_int (Z.to_int z)).

(** Results of fallible Go functions: [(T, error)]. *)
Inductive result (A : Type) : Type :=
| Ok : A -> result A
| Err : gostring -> result A.
Arguments Ok {A} _.
Arguments Err {A} _.

Definition isErr {A : Type} (r : result A) : bool :=
  match r with Ok _ => false | Err _ => true end.

(** ** Package unicode/utf8: decoding *)

Module Utf8.

Definition rune := Z.

Definition RuneError : rune := 65533.
Definition RuneSelf : Z := 128.

(** The table [first]: information about the first byte of an encoding. *)
Definition first (b : Z) : Z :=
  if b <? 128 then 240            (* as: ASCII, size 1 *)
  else if b <? 194 then 241       (* xx: invalid, size 1 *)
  else if b <? 224 then 2         (* s1: accept 0, size 2 *)
  else if b =? 224 then 19        (* s2: accept 1, size 3 *)
  else if b <? 237 then 3         (* s3: accept 0, size 3 *)
  else if b =? 237 then 35        (* s4: accept 2, size 3 *)
  else if b <? 240 then 3         (* s3 *)
  else if b =? 240 then 52        (* s5: accept 3, size 4 *)
  else if b <? 244 then 4         (* s6: accept 0, size 4 *)
  else if b =? 244 then 68        (* s7: accept 4, size 4 *)
  else 241.                       (* xx *)

(** The table [acceptRanges]: the range of a valid second byte. *)
Definition acceptRanges (i : Z) : Z * Z :=
  if i =? 0 then (128, 191)
  else if i =? 1 then (160, 191)
  else if i =? 2 then (128, 159)
  else if i =? 3 then (144, 191)
  else if i =? 4 then (128, 143)
  else (0, 0).

Definition locb : Z := 128.
Definition hicb : Z := 191.

(** [utf8.DecodeRuneInString]: the first rune of [s] and its width in
    bytes; an invalid encoding yields [(RuneError, 1)]. *)
Definition DecodeRuneInString (s : gostring) : rune * Z :=
  match s with
  | [] => (RuneError, 0)
  | c0 :: rest =>
      let s0 := byteval c0 in
      let x := first s0 in
      if 240 <=? x then
        let mask := if Z.testbit x 0 then -1 else 0 in
        (Z.lor (Z.land s0 (Z.lnot mask)) (Z.land RuneError mask), 1)
      else
        let sz := Z.land x 7 in
        let (lo, hi) := acceptRanges (Z.shiftr x 4) in
        if len s <? sz then (RuneError, 1)
        else
          match rest with
          | [] => (RuneError, 1)
          | c1 :: rest1 =>
              let s1 := byteval c1 in
              if (s1 <? lo) || (hi <? s1) then (RuneError, 1)
              else if sz <=? 2 then
                (Z.lor (Z.shiftl (Z.land s0 31) 6) (Z.land s1 63), 2)
              else
                match rest1 with
                | [] => (RuneError, 1)
                | c2 :: rest2 =>
                    let s2 := byteval c2 in
                    if (s2 <? locb) || (hicb <? s2) then (RuneError, 1)
                    else if sz <=? 3 then
                      (Z.lor (Z.lor (Z.shiftl (Z.land s0 15) 12)
                                    (Z.shiftl (Z.land s1 63) 6))
                             (Z.land s2 63), 3)
                    else
                      match rest2 with
                      | [] => (RuneError, 1)
                      | c3 :: _ =>
                          let s3 := byteval c3 in
                          if (s3 <? locb) || (hicb <? s3) then (RuneError, 1)
                          else
                            (Z.lor (Z.lor (Z.lor (Z.shiftl (Z.land s0 7) 18)
                                                 (Z.shiftl (Z.land s1 63) 12))
                                          (Z.shiftl (Z.land s2 63) 6))
                                   (Z.land s3 63), 4)
                      end
                end
          end
  end.

(** The runes of a string in order, as a reader of runes delivers them
    (and as [range] over a string does). *)
Fixpoint runesLoop (fuel : nat) (s : gostring) : list rune :=
  match fuel with
  | O => []
  | S fuel' =>
      match s with
      | [] => []
      | _ :: _ =>
          let (r, size) := DecodeRuneInString s in
          r :: runesLoop fuel' (skipn (Z.to_nat size) s)
      end
  end.

Definition runes (s : gostring) : list rune := runesLoop (List.length s) s.

End Utf8.

(** ** Packages strings and bytes *)

Module Strings.

(** [s[lo:]], [s[:hi]] and [s[lo:hi]]. *)
Definition sliceFrom (s : gostring) (lo : Z) : gostring := skipn (Z.to_nat lo) s.
Definition sliceTo (s : gostring) (hi : Z) : gostring := firstn (Z.to_nat hi) s.
Definition slice (s : gostring) (lo hi : Z) : gostring :=
  firstn (Z.to_nat (hi - lo)) (skipn (Z.to_nat lo) s).

(** [strings.HasPrefix]. *)
Fixpoint HasPrefix (s prefix : gostring) {struct prefix} : bool :=
  match prefix, s with
  | [], _ => true
  | p :: ps, c :: cs => Ascii.eqb p c && HasPrefix cs ps
  | _ :: _, [] => false
  end.

(** Position of the first instance of [substr] in [s]. *)
Fixpoint indexNat (s substr : gostring) {struct s} : option nat :=
  if HasPrefix s substr then Some 0%nat
  else match s with
       | [] => None
       | _ :: s' => option_map S (indexNat s' substr)
       end.

(** [strings.Index] / [bytes.Index]: -1 when [substr] is absent. *)
Definition Index (s substr : gostring) : Z :=
  match indexNat s substr with
  | Some i => Z.of_nat i
  | None => -1
  end.

(** [strings.Contains] / [bytes.Contains]. *)
Definition Contains (s substr : gostring) : bool := 0 <=? Index s substr.

(** Equality of strings, [s == t]. *)
Fixpoint eqb (s t : gostring) : bool :=
  match s, t with
  | [], [] => true
  | a :: s', b :: t' => Ascii.eqb a b && eqb s' t'
  | _, _ => false
  end.

Definition byte (n : Z) : ascii := ascii_of_N (Z.to_N n).

Definition nl : ascii := byte 10.

(** [strings.HasSuffix]. *)
Definition HasSuffix (s suffix : gostring) : bool :=
  (List.length suffix <=? List.length s)%nat &&
  eqb (skipn (List.length s - List.length suffix) s) suffix.

(** The replacement loop of [strings.Replace] for a non-empty [old]:
    the leftmost instance from the current position is replaced and the
    search resumes behind it.  [fuel] bounds the number of instances. *)
Fixpoint replaceLoop (fuel : nat) (s old new : gostring) : gostring :=
  match fuel with
  | O => s
  | S fuel' =>
      match indexNat s old with
      | None => s
      | Some j =>
          firstn j s ++ new ++
          replaceLoop fuel' (skipn (j + List.length old) s) old new
      end
  end.

(** The same loop for an empty [old], which matches before every rune
    and at the end of the string: [new] goes behind each rune. *)
Fixpoint insertLoop (fuel : nat) (s new : gostring) : gostring :=
  match fuel with
  | O => s
  | S fuel' =>
      match s with
      | [] => []
      | _ :: _ =>
          let wid := Z.to_nat (snd (Utf8.DecodeRuneInString s)) in
          firstn wid s ++ new ++ insertLoop fuel' (skipn wid s) new
      end
  end.

(** [strings.ReplaceAll]. *)
Definition ReplaceAll (s old new : gostring) : gostring :=
  if eqb old new then s
  else
    match old with
    | [] => new ++ insertLoop (List.length s) s new
    | _ :: _ => replaceLoop (List.length s) s old new
    end.

(** [strings.Count] for a non-empty [substr]: the instances that do
    not overlap. *)
Fixpoint countLoop (fuel : nat) (s substr : gostring) : Z :=
  match fuel with
  | O => 0
  | S fuel' =>
      match indexNat s substr with
      | None => 0
      | Some i => 1 + countLoop fuel' (skipn (i + List.length substr) s) substr
      end
  end.

(** [strings.Count]; an empty [substr] counts the runes plus one. *)
Definition Count (s substr : gostring) : Z :=
  match substr with
  | [] => len (Utf8.runes s) + 1
  | _ :: _ => countLoop (List.length s) s substr
  end.

(** The loop of [genSplit]: at most [k] cuts at instances of [sep]. *)
Fixpoint splitLoop (k : nat) (s sep : gostring) : list gostring :=
  match k with
  | O => [s]
  | S k' =>
      match indexNat s sep with
      | None => [s]
      | Some m => firstn m s :: splitLoop k' (skipn (m + List.length sep) s) sep
      end
  end.

(** The loop of [explode]: [k] runes are cut off one by one. *)
Fixpoint explodeLoop (k : nat) (s : gostring) : list gostring :=
  match k with
  | O => [s]
  | S k' =>
      let wid := Z.to_nat (snd (Utf8.DecodeRuneInString s)) in
      firstn wid s :: explodeLoop k' (skipn wid s)
  end.

(** [explode]: [s] cut into runes, into [n] pieces at most. *)
Definition explode (s : gostring) (n : Z) : list gostring :=
  let l := len (Utf8.runes s) in
  let n := if (n <? 0) || (l <? n) then l else n in
  if 0 <? n then explodeLoop (Z.to_nat (n - 1)) s else [].

(** [strings.SplitN], that is [genSplit(s, sep, 0, n)]. *)
Definition SplitN (s sep : gostring) (n : Z) : list gostring :=
  if n =? 0 then []
  else
    match sep with
    | [] => explode s n
    | _ :: _ =>
        let n := if n <? 0 then Count s sep + 1 else n in
        let n := if len s + 1 <? n then len s + 1 else n in
        splitLoop (Z.to_nat (n - 1)) s sep
    end.

(** White space as defined by Unicode ([unicode.IsSpace]), each
    character in its UTF-8 encoding: tab, line feed, vertical tab, form
    feed, carriage return, space, U+0085, U+00A0, U+1680, U+2000 to
    U+200A, U+2028, U+2029, U+202F, U+205F and U+3000. *)
Definition whiteSpace : list gostring :=
  map (map byte)
    [ [9]; [10]; [11]; [12]; [13]; [32];
      [194; 133]; [194; 160];
      [225; 154; 128];
      [226; 128; 128]; [226; 128; 129]; [226; 128; 130]; [226; 128; 131];
      [226; 128; 132]; [226; 128; 133]; [226; 128; 134]; [226; 128; 135];
      [226; 128; 136]; [226; 128; 137]; [226; 128; 138];
      [226; 128; 168]; [226; 128; 169]; [226; 128; 175];
      [226; 129; 159];
      [227; 128; 128] ].

(** The white-space character that [s] starts, respectively ends, with. *)
Definition leadingSpace (s : gostring) : option gostring :=
  find (HasPrefix s) whiteSpace.

Definition trailingSpace (s : gostring) : option gostring :=
  find (HasSuffix s) whiteSpace.

Fixpoint trimLeftLoop (fuel : nat) (s : gostring) : gostring :=
  match fuel with
  | O => s
  | S fuel' =>
      match leadingSpace s with
      | Some e => trimLeftLoop fuel' (skipn (List.length e) s)
      | None => s
      end
  end.

Fixpoint trimRightLoop (fuel : nat) (s : gostring) : gostring :=
  match fuel with
  | O => s
  | S fuel' =>
      match trailingSpace s with
      | Some e => trimRightLoop fuel' (firstn (List.length s - List.length e) s)
      | None => s
      end
  end.

(** [strings.TrimSpace]: all leading and trailing white space removed. *)
Definition TrimSpace (s : gostring) : gostring :=
  let s := trimLeftLoop (List.length s) s in
  trimRightLoop (List.length s) s.

(** The ASCII fast path of [strings.ToLower]. *)
Definition isASCII (s : gostring) : bool := forallb (fun c => byteval c <? 128) s.

Definition lowerByte (c : ascii) : ascii :=
  if (65 <=? byteval c) && (byteval c <=? 90) then byte (byteval c + 32) else c.

Section Lower.

(** [strings.Map(unicode.ToLower, s)]: the case tables of Unicode, which
    [ToLower] consults as soon as [s] holds a byte outside ASCII. *)
Variable unicodeLower : gostring -> gostring.

(** [strings.ToLower]. *)
Definition ToLower (s : gostring) : gostring :=
  if isASCII s then map lowerByte s else unicodeLower s.

End Lower.

End Strings.

(** ** Packages unicode and unicode/utf8 (encoding), and strings.Map *)

Module Unicode.
Import Utf8 Strings.

(** [utf8.EncodeRune] / [utf8.AppendRune]: the UTF-8 encoding of a rune.
    A rune is an [int32]; a negative one, whose [uint32] is beyond
    [MaxRune], one beyond [MaxRune] and a surrogate are encoded as
    [RuneError].  The bytes are written as the source has them, with
    the marks [t2], [t3], [t4] and [tx] and the mask [maskx]. *)
Definition EncodeRune (r : rune) : gostring :=
  if (0 <=? r) && (r <=? 127) then [byte r]
  else if (0 <=? r) && (r <=? 2047) then
    [ byte (Z.lor 192 (Z.shiftr r 6));
      byte (Z.lor 128 (Z.land r 63)) ]
  else
    let r :=
      if (r <? 0) || (1114111 <? r) || ((55296 <=? r) && (r <=? 57343))
      then RuneError else r in
    if r <=? 65535 then
      [ byte (Z.lor 224 (Z.shiftr r 12));
        byte (Z.lor 128 (Z.land (Z.shiftr r 6) 63));
        byte (Z.lor 128 (Z.land r 63)) ]
    else
      [ byte (Z.lor 240 (Z.shiftr r 18));
        byte (Z.lor 128 (Z.land (Z.shiftr r 12) 63));
        byte (Z.lor 128 (Z.land (Z.shiftr r 6) 63));
        byte (Z.lor 128 (Z.land r 63)) ].

Section Case.

(** The case tables of Unicode, [unicode.To(unicode.LowerCase, r)],
    which [unicode.ToLower] consults for the runes beyond ASCII. *)
Variable caseTable : rune -> rune.

(** [unicode.ToLower]. *)
Definition ToLower (r : rune) : rune :=
  if r <=? 127 then
    if (65 <=? r) && (r <=? 90) then r + 32 else r
  else caseTable r.

End Case.

(** [strings.Map]: the runes of the string, each mapped and encoded
    again, those mapped to a negative value left out.  (A byte that is
    no valid encoding is read as [RuneError] and so comes out as the
    encoding of what [RuneError] is mapped to.) *)
Definition Map (mapping : rune -> rune) (s : gostring) : gostring :=
  List.concat
    (map (fun c => let r := mapping c in if 0 <=? r then EncodeRune r else [])
         (runes s)).

(** [strings.Map(unicode.ToLower, s)], the path that [strings.ToLower]
    takes for a string that is not ASCII. *)
Definition lowerString (caseTable : rune -> rune) (s : gostring) : gostring :=
  Map (ToLower caseTable) s.

End Unicode.

(** ** Package fmt: the scanner behind Sscanf *)

Module Fmt.
Import Utf8.

(** The scanner reads runes; [input] below is what is left to read. *)

(** The table [space] of the scanner and its [isSpace]. *)
Definition isSpace (r : rune) : bool :=
  if 65536 <=? r then false
  else
    let rx := r mod 65536 in
    ((9 <=? rx) && (rx <=? 13)) || (rx =? 32) || (rx =? 133) || (rx =? 160) ||
    (rx =? 5760) || ((8192 <=? rx) && (rx <=? 8202)) ||
    ((8232 <=? rx) && (rx <=? 8233)) || (rx =? 8239) || (rx =? 8287) ||
    (rx =? 12288).

Definition newline : rune := 10.

Definition errEOF : gostring := lit "unexpected EOF".

(** [ss.SkipSpace] of [Sscanf], where a newline is not a space: spaces
    are skipped up to the next rune that is none, a newline is an error. *)
Fixpoint SkipSpace (input : list rune) : result (list rune) :=
  match input with
  | [] => Ok []
  | r :: rest =>
      if (r =? 13) && (match rest with n :: _ => n =? newline | [] => false end)
      then SkipSpace rest
      else if r =? newline then Err (lit "unexpected newline")
      else if isSpace r then SkipSpace rest
      else Ok input
  end.

Definition isDigit (r : rune) : bool := (48 <=? r) && (r <=? 57).
Definition isSign (r : rune) : bool := (r =? 43) || (r =? 45).

(** The runes accepted in a row by [for s.accept(ok) {}] or [token]. *)
Fixpoint span (ok : rune -> bool) (input : list rune) : list rune * list rune :=
  match input with
  | r :: rest =>
      if ok r then let (tok, rest') := span ok rest in (r :: tok, rest')
      else ([], input)
  | [] => ([], [])
  end.

(** The value of a string of decimal digits. *)
Definition digitsValue (ds : list rune) : Z :=
  fold_left (fun acc d => 10 * acc + (d - 48)) ds 0.

(** [strconv.ParseInt(tok, 10, 64)]. *)
Definition ParseInt (tok : list rune) : result Z :=
  let '(neg, ds) :=
    match tok with
    | r :: t => if r =? 43 then (false, t) else if r =? 45 then (true, t) else (false, tok)
    | [] => (false, tok)
    end in
  match ds with
  | [] => Err (lit "invalid syntax")
  | _ :: _ =>
      if negb (forallb isDigit ds) then Err (lit "invalid syntax")
      else
        let un := digitsValue ds in
        if 2 ^ 64 <=? un then Err (lit "value out of range")
        else if negb neg && (2 ^ 63 <=? un) then Err (lit "value out of range")
        else if neg && (2 ^ 63 <? un) then Err (lit "value out of range")
        else Ok (if neg then - un else un)
  end.

(** [ss.scanInt] for the verb [d] and a 64-bit [int]. *)
Definition scanInt (input : list rune) : result (Z * list rune) :=
  match SkipSpace input with
  | Err e => Err e
  | Ok input =>
      match input with
      | [] => Err errEOF                                   (* notEOF *)
      | r :: rest =>
          let '(sign, input) := if isSign r then ([r], rest) else ([], input) in
          match input with
          | [] => Err errEOF                               (* notEOF of scanNumber *)
          | d :: rest =>
              if negb (isDigit d) then Err (lit "expected integer")
              else
                let (ds, rest') := span isDigit rest in
                match ParseInt (sign ++ d :: ds) with
                | Err e => Err e
                | Ok i => Ok (i, rest')
                end
          end
      end
  end.

(** [ss.convertString] for the verb [s]: the next word. *)
Definition convertString (input : list rune) : result (list rune * list rune) :=
  match SkipSpace input with
  | Err e => Err e
  | Ok input =>
      match input with
      | [] => Err errEOF                                   (* notEOF *)
      | _ :: _ => Ok (span (fun r => negb (isSpace r)) input)
      end
  end.

(** The operands of a call and the values stored through them. *)
Inductive operand := IntPtr | StringPtr.
Inductive value := IntVal (i : Z) | StringVal (s : list rune).

(** [ss.scanOne]; of the verbs only [d] (for [*int]) and [s] (for
    [*string]) are embedded, any other is refused as a bad verb. *)
Definition scanOne (verb : rune) (arg : operand) (input : list rune)
  : result (value * list rune) :=
  match arg with
  | IntPtr =>
      if verb =? 100 then
        match scanInt input with
        | Err e => Err e
        | Ok (i, rest) => Ok (IntVal i, rest)
        end
      else Err (lit "bad verb for integer")
  | StringPtr =>
      if verb =? 115 then
        match convertString input with
        | Err e => Err e
        | Ok (s, rest) => Ok (StringVal s, rest)
        end
      else Err (lit "bad verb for string")
  end.

(** The spaces of the input that are not newlines, skipped. *)
Fixpoint skipBlanks (input : list rune) : list rune :=
  match input with
  | r :: rest => if isSpace r && negb (r =? newline) then skipBlanks rest else input
  | [] => []
  end.

(** The run of spaces at the head of the format: the number of
    newlines in it, whether a space follows the last newline, and the
    number of runes of the run. *)
Fixpoint spaceRun (format : list rune) (newlines : nat) (trailingSpace : bool)
    (w : nat) : nat * bool * nat * list rune :=
  match format with
  | c :: rest =>
      if isSpace c then
        if c =? newline then spaceRun rest (S newlines) false (S w)
        else spaceRun rest newlines true (S w)
      else (newlines, trailingSpace, w, format)
  | [] => (newlines, trailingSpace, w, [])
  end.

(** A newline of the format matches spaces and then a newline or the
    end of the input. *)
Fixpoint matchNewlines (newlines : nat) (input : list rune) : result (list rune) :=
  match newlines with
  | O => Ok input
  | S k =>
      match skipBlanks input with
      | [] => matchNewlines k []
      | r :: rest =>
          if r =? newline then matchNewlines k rest
          else Err (lit "newline in format does not match input")
      end
  end.

(** Spaces of the format that stand alone match one or more spaces of
    the input, or its end. *)
Definition matchSpaces (newlines : nat) (input : list rune) : result (list rune) :=
  match input with
  | [] => Ok []
  | r :: _ =>
      if (newlines =? 0)%nat then
        if negb (isSpace r) then Err (lit "expected space in input to match format")
        else if r =? newline then Err (lit "newline in input does not match format")
        else Ok (skipBlanks input)
      else Ok (skipBlanks input)
  end.

(** [ss.advance]: spaces and literal runes of the format are matched
    against the input up to the next verb.  The result is the number of
    runes of the format that were consumed, or [None] for the -1 of a
    literal that does not match, and the input that is left. *)
Fixpoint advance (fuel : nat) (format : list rune) (i : nat) (input : list rune)
  : result (option nat * list rune) :=
  match fuel with
  | O => Ok (Some i, input)
  | S fuel' =>
      match format with
      | [] => Ok (Some i, input)
      | fmtc :: frest =>
          if isSpace fmtc then
            let '(newlines, trailingSpace, w, format') := spaceRun format 0 false 0 in
            match matchNewlines newlines input with
            | Err e => Err e
            | Ok input =>
                match (if trailingSpace then matchSpaces newlines input else Ok input) with
                | Err e => Err e
                | Ok input => advance fuel' format' (i + w) input
                end
            end
          else
            let literal (i : nat) (frest : list rune) :=
              match input with
              | [] => Err errEOF                           (* mustReadRune *)
              | inputc :: rest =>
                  if negb (fmtc =? inputc) then Ok (None, input)
                  else advance fuel' frest (S i) rest
              end in
            if fmtc =? 37 then
              match frest with
              | [] => Err (lit "missing verb: % at end of format string")
              | nextc :: frest' =>
                  if negb (nextc =? 37) then Ok (Some i, input)
                  else literal (S i) frest'
              end
            else literal i frest
      end
  end.

(** [ss.doScanf]: one operand per verb.  The values stored so far are
    returned with the error, their number being the count that [Sscanf]
    reports. *)
Fixpoint doScanf (fuel : nat) (format : list rune) (input : list rune)
    (a : list operand) (stored : list value) : list value * option gostring :=
  let finish :=
    match a with
    | [] => (stored, None)
    | _ :: _ => (stored, Some (lit "too many operands"))
    end in
  match fuel with
  | O => finish
  | S fuel' =>
      match format with
      | [] => finish
      | f0 :: _ =>
          match advance (List.length format) format 0 input with
          | Err e => (stored, Some e)
          | Ok (w, input) =>
              match w with
              | Some (S k) => doScanf fuel' (skipn (S k) format) input a stored
              | _ =>
                  if negb (f0 =? 37) then
                    match w with
                    | None => (stored, Some (lit "input does not match format"))
                    | Some _ => finish
                    end
                  else
                    match skipn 1 format with
                    | [] => finish
                    | c :: format' =>
                        if isDigit c then (stored, Some (lit "width outside the embedding"))
                        else
                          match (if c =? 99 then Ok input else SkipSpace input) with
                          | Err e => (stored, Some e)
                          | Ok input =>
                              if c =? 37 then
                                (* scanPercent *)
                                match SkipSpace input with
                                | Err e => (stored, Some e)
                                | Ok [] => (stored, Some errEOF)
                                | Ok (r :: rest) =>
                                    if r =? 37 then doScanf fuel' format' rest a stored
                                    else (stored, Some (lit "missing literal %"))
                                end
                              else
                                match a with
                                | [] => (stored, Some (lit "too few operands for format"))
                                | arg :: a' =>
                                    match scanOne c arg input with
                                    | Err e => (stored, Some e)
                                    | Ok (v, input) =>
                                        doScanf fuel' format' input a' (stored ++ [v])
                                    end
                                end
                          end
                    end
              end
          end
      end
  end.

(** [fmt.Sscanf]: the values stored and the error, if any. *)
Definition Sscanf (str format : gostring) (a : list operand)
  : list value * option gostring :=
  doScanf (List.length (runes format)) (runes format) (runes str) a [].

End Fmt.

(** ** Package strconv *)

Module Strconv.
Import Strings.

(** [strconv.ParseBool]. *)
Definition ParseBool (str : gostring) : result bool :=
  if existsb (eqb str) (map lit ["1"; "t"; "T"; "TRUE"; "true"; "True"]%string)
  then Ok true
  else if existsb (eqb str) (map lit ["0"; "f"; "F"; "FALSE"; "false"; "False"]%string)
  then Ok false
  else Err (lit "invalid syntax").

(** [strconv.Atoi] for a 64-bit [int]: [ParseInt(s, 10, 0)] on the
    bytes of the string (the fast path for short strings gives the same
    results). *)
Definition Atoi (s : gostring) : result Z := Fmt.ParseInt (map byteval s).

End Strconv.

(** ** Package time: instants, locations, durations *)

Module Time.

(** A [Duration] counts nanoseconds in an [int64]. *)
Definition Duration := Z.
Definition Second : Duration := 1000000000.
Definition Minute : Duration := 60 * Second.
Definition Hour : Duration := 60 * Minute.
Definition minDuration : Duration := - 2 ^ 63.
Definition maxDuration : Duration := 2 ^ 63 - 1.

(** An instant of the wall clock: seconds since the Unix epoch and the
    nanoseconds within the second. *)
Record Time := { sec : Z; nsec : Z }.

(** Nanoseconds since the epoch, and back. *)
Definition UnixNano (t : Time) : Z := sec t * Second + nsec t.
Definition ofUnixNano (n : Z) : Time := {| sec := n / Second; nsec := n mod Second |}.

(** A zone of a location: its offset east of UTC in seconds and the
    interval of instants in which it is in effect. *)
Record zone := { offset : Z; zstart : Z; zend : Z }.

(** A [Location], given by its [lookup] of the zone in effect at an
    instant (in Unix seconds). *)
Definition Location := Z -> zone.

Definition FixedZone (off : Z) : Location :=
  fun _ => {| offset := off; zstart := - 2 ^ 63; zend := 2 ^ 63 - 1 |}.

Definition UTC : Location := FixedZone 0.

(** A location whose clock is put forward by an hour at the instant
    [transition]: UTC before it, one hour east of UTC from then on. *)
Definition putForward (transition : Z) : Location :=
  fun u =>
    if u <? transition
    then {| offset := 0; zstart := - 2 ^ 63; zend := transition |}
    else {| offset := 3600; zstart := transition; zend := 2 ^ 63 - 1 |}.

Section Local.
Variable loc : Location.

(** The reading of the local clock at [t], in seconds. *)
Definition localSec (t : Time) : Z := sec t + offset (loc (sec t)).

(** The civil date of [t] in [loc].  The year, the month and the day
    are represented together by the number of the day since the epoch:
    [Year], [Month] and [Day] compute the date of that day and [Date]
    computes the day of that date back. *)
Definition Day (t : Time) : Z := localSec t / 86400.

Definition Hour_ (t : Time) : Z := (localSec t mod 86400) / 3600.
Definition Minute_ (t : Time) : Z := (localSec t mod 3600) / 60.
Definition Second_ (t : Time) : Z := localSec t mod 60.

(** The local time of day in nanoseconds since midnight. *)
Definition clockOfDay (t : Time) : Z := (localSec t mod 86400) * Second + nsec t.

(** [time.Date(year, month, day, hour, min, sec, nsec, loc)], the date
    given by its day number: the instant whose local reading is the
    given one, the offset being looked up as [Date] does. *)
Definition Date (day hour min sec_ nsec_ : Z) : Time :=
  let unix := day * 86400 + hour * 3600 + min * 60 + sec_ + nsec_ / Second in
  let z := loc unix in
  let unix :=
    if negb (offset z =? 0) then
      let utc := unix - offset z in
      let off :=
        if (utc <? zstart z) || (zend z <=? utc) then offset (loc utc) else offset z in
      unix - off
    else unix in
  {| sec := unix; nsec := nsec_ mod Second |}.

End Local.

(** [t.After(u)]. *)
Definition After (t u : Time) : bool :=
  (sec u <? sec t) || ((sec t =? sec u) && (nsec u <? nsec t)).

(** [t.Add(d)]. *)
Definition Add (t : Time) (d : Duration) : Time := ofUnixNano (UnixNano t + d).

(** [t.Sub(u)]: the difference, kept within the range of a [Duration]. *)
Definition Sub (t u : Time) : Duration :=
  let d := (sec t - sec u) * Second + (nsec t - nsec u) in
  if d <? minDuration then minDuration
  else if maxDuration <? d then maxDuration
  else d.

End Time.

(** ** internal/scheduler/scheduler.go *)

Module Scheduler.
Import Strings Fmt.

(** [ParseCron]: hour and minute of a schedule. *)
Definition ParseCron (cronExpr : gostring) : result (Z * Z) :=
  let '(stored, err) :=
    Sscanf cronExpr (lit "%d %d %s %s %s")
      [IntPtr; IntPtr; StringPtr; StringPtr; StringPtr] in
  let n := len stored in
  let minute := match nth_error stored 0 with Some (IntVal v) => v | _ => 0 end in
  let hour := match nth_error stored 1 with Some (IntVal v) => v | _ => 0 end in
  if (match err with Some _ => true | None => false end) || (n <? 2)
  then Err (lit "invalid cron expression: " ++ cronExpr)
  else if (hour <? 0) || (23 <? hour)
  then Err (lit "invalid hour: " ++ formatInt hour)
  else if (minute <? 0) || (59 <? minute)
  then Err (lit "invalid minute: " ++ formatInt minute)
  else Ok (hour, minute).

(** [NextRunTime]; [now] is the reading of [time.Now()] and [loc] the
    local location. *)
Definition NextRunTime (loc : Time.Location) (now : Time.Time) (cronExpr : gostring)
  : result Time.Time :=
  match ParseCron cronExpr with
  | Err e => Err e
  | Ok (hour, minute) =>
      let next := Time.Date loc (Time.Day loc now) hour minute 0 0 in
      let next := if Time.After now next then Time.Add next (24 * Time.Hour) else next in
      Ok next
  end.

(** [DailyInterval]. *)
Definition DailyInterval : Time.Duration := 24 * Time.Hour.

(** A scheduler; its job is part of the world below. *)
Record Scheduler := { interval : Time.Duration; runOnce : bool }.

Definition NewScheduler (interval : Time.Duration) (runOnce : bool) : Scheduler :=
  {| interval := interval; runOnce := runOnce |}.

(** The world of a running scheduler: the clock, in nanoseconds since
    the epoch, and the instants at which the job was started so far. *)
Record World := { clock : Z; started : list Z }.

(** How [Start] or [StartAt] has ended: by returning an error or nil,
    by the panic of [time.NewTicker] on an interval that is not
    positive, or not yet, its loop still turning when the turns that
    are looked at are used up. *)
Inductive outcome :=
| Returned (err : option gostring)
| Panicked
| Turning.

Section Run.

(** The job, given by the error of its k-th execution, if any, and by
    how long it takes; the context, given by the instant at which it is
    cancelled, if ever; and the choice that [select] makes when both of
    its cases are ready at the same instant. *)
Variable jobError : nat -> option gostring.
Variable jobDuration : nat -> Time.Duration.
Variable cancelAt : option Z.
Variable pickDone : Z -> bool.

(** One execution of the job. *)
Definition runJob (w : World) : option gostring * World :=
  let k := List.length (started w) in
  (jobError k,
   {| clock := clock w + Z.max 0 (jobDuration k); started := started w ++ [clock w] |}).

(** A [select] between [ctx.Done()] and a channel that becomes ready
    at the instant [ready], entered at the instant [entered]: whether
    the case of the context is taken, and when. *)
Definition doneTaken (entered ready : Z) : option Z :=
  match cancelAt with
  | None => None
  | Some tc =>
      let done := Z.max tc entered in
      if (done <? ready) || ((done =? ready) && pickDone ready) then Some done else None
  end.

(** The loop of [Start].  The ticker was made at [made] and ticks
    every [interval] from then on; its channel holds one tick and drops
    those that find it full.  [taken] is the instant at which the
    channel was last read. *)
Fixpoint tickLoop (turns : nat) (s : Scheduler) (made taken : Z) (w : World)
  : outcome * World :=
  match turns with
  | O => (Turning, w)
  | S turns' =>
      let k := (clock w - made) / interval s in
      let ready :=
        if taken <? made + k * interval s then clock w
        else made + (k + 1) * interval s in
      match doneTaken (clock w) ready with
      | Some done =>
          (Returned (Some (lit "context canceled")),
           {| clock := done; started := started w |})
      | None =>
          let (_, w') := runJob {| clock := ready; started := started w |} in
          tickLoop turns' s made ready w'
      end
  end.

(** [Start]. *)
Definition Start (s : Scheduler) (turns : nat) (w : World) : outcome * World :=
  if runOnce s then
    let (err, w') := runJob w in
    (Returned (match err with
               | Some e => Some (lit "job failed: " ++ e)
               | None => None
               end), w')
  else
    let (_, w') := runJob w in
    if interval s <=? 0 then (Panicked, w')
    else tickLoop turns s (clock w') (clock w') w'.

(** [StartAt]. *)
Definition StartAt (s : Scheduler) (firstRun : Time.Time) (turns : nat) (w : World)
  : outcome * World :=
  let delay := Time.Sub firstRun (Time.ofUnixNano (clock w)) in
  let delay := if delay <? 0 then delay + 24 * Time.Hour else delay in
  (* the timer fires once [delay] has passed, at once when it is not positive *)
  let fire := clock w + Z.max 0 delay in
  match doneTaken (clock w) fire with
  | Some done =>
      (Returned (Some (lit "context canceled")),
       {| clock := done; started := started w |})
  | None => Start s turns {| clock := fire; started := started w |}
  end.

End Run.

End Scheduler.

(** ** internal/rss/parser.go *)

Module Rss.
Import Strings.

Record Item := {
  Item_Title : gostring;
  Item_Link : gostring;
  Item_Description : gostring;
  Item_PubDate : gostring;
  Item_Categories : list gostring;
  Item_GUID : gostring
}.

Record Channel := {
  Channel_Title : gostring;
  Channel_Link : gostring;
  Channel_Description : gostring;
  Channel_Items : list Item
}.

Record Feed := { Feed_Channel : Channel }.

Record HistoricalEvent := {
  Year : gostring;
  Title : gostring;
  Description : gostring;
  Category : gostring;
  Link : gostring;
  RawItem : Item
}.

Record Holiday := {
  Holiday_Title : gostring;
  Holiday_Description : gostring;
  Holiday_Link : gostring
}.

(** The tag-removal loop of [cleanHTML]: the region from the first
    [<] to the next [>] is cut out until one of the two is missing. *)
Fixpoint stripTags (fuel : nat) (s : gostring) : gostring :=
  match fuel with
  | O => s
  | S fuel' =>
      let start := Index s (lit "<") in
      if start =? -1 then s
      else
        let end_ := Index (sliceFrom s start) (lit ">") in
        if end_ =? -1 then s
        else stripTags fuel' (sliceTo s start ++ sliceFrom s (start + end_ + 1))
  end.

(** The loop that removes excessive newlines. *)
Fixpoint collapseNewlines (fuel : nat) (s : gostring) : gostring :=
  match fuel with
  | O => s
  | S fuel' =>
      if Contains s [nl; nl; nl]
      then collapseNewlines fuel' (ReplaceAll s [nl; nl; nl] [nl; nl])
      else s
  end.

(** [cleanHTML].  Each turn of either loop shortens the string, so the
    length of the string is fuel enough. *)
Definition cleanHTML (s : gostring) : gostring :=
  let s := ReplaceAll s (lit "<br>") [nl] in
  let s := ReplaceAll s (lit "<br/>") [nl] in
  let s := ReplaceAll s (lit "<br />") [nl] in
  let s := ReplaceAll s (lit "<p>") [nl] in
  let s := ReplaceAll s (lit "</p>") [nl] in
  let s := stripTags (List.length s) s in
  let s := TrimSpace s in
  collapseNewlines (List.length s) s.

(** [parseItem]. *)
Definition parseItem (item : Item) : HistoricalEvent :=
  let event := {| Year := []; Title := Item_Title item;
                  Description := cleanHTML (Item_Description item);
                  Category := []; Link := Item_Link item;
                  RawItem := item |} in
  let event :=
    match SplitN (Item_Title item) (lit ":") 2 with
    | [p0; p1] =>
        {| Year := TrimSpace p0; Title := TrimSpace p1;
           Description := Description event; Category := Category event;
           Link := Link event; RawItem := RawItem event |}
    | _ => event
    end in
  match Item_Categories item with
  | c :: _ =>
      {| Year := Year event; Title := Title event;
         Description := Description event; Category := c;
         Link := Link event; RawItem := RawItem event |}
  | [] => event
  end.

(** What the HTTP client hands back for a request: the status, the
    [Content-Encoding] header, and the body, given by what reading it to
    its end yields. *)
Record Response := {
  StatusCode : Z;
  ContentEncoding : gostring;
  Body : result gostring
}.

(** [fmt.Errorf(prefix + ": %w", err)]. *)
Definition wrapErr (prefix err : gostring) : gostring := prefix ++ lit ": " ++ err.

Section Fetch.

(** The world outside the parser: the state of the network, the
    construction of a request (which rejects a malformed URL), the round
    trip of the GET request with the browser headers, the gzip layer
    (its reader is given by what reading it to its end yields) and the
    XML decoder. *)
Variable Net : Type.
Variable newRequest : gostring -> result unit.
Variable clientDo : gostring -> Net -> result Response * Net.
Variable gzipNewReader : result gostring -> result (result gostring).
Variable xmlUnmarshal : gostring -> result Feed.

(** The part of [FetchAndParse] and [FetchHolidays] that is the same:
    fetch, check the status, undo gzip, read and decode. *)
Definition fetchFeed (url : gostring) (net : Net) : result Feed * Net :=
  match newRequest url with
  | Err e => (Err (wrapErr (lit "failed to create request") e), net)
  | Ok _ =>
      match clientDo url net with
      | (Err e, net') => (Err (wrapErr (lit "failed to fetch RSS feed") e), net')
      | (Ok resp, net') =>
          if negb (StatusCode resp =? 200)
          then (Err (lit "unexpected status code: " ++ formatInt (StatusCode resp)), net')
          else
            let reader :=
              if eqb (ContentEncoding resp) (lit "gzip")
              then
                match gzipNewReader (Body resp) with
                | Err e => Err (wrapErr (lit "failed to create gzip reader") e)
                | Ok r => Ok r
                end
              else Ok (Body resp) in
            match reader with
            | Err e => (Err e, net')
            | Ok reader =>
                match reader with
                | Err e => (Err (wrapErr (lit "failed to read response body") e), net')
                | Ok body =>
                    match xmlUnmarshal body with
                    | Err e => (Err (wrapErr (lit "failed to parse XML") e), net')
                    | Ok feed => (Ok feed, net')
                    end
                end
            end
      end
  end.

(** [FetchAndParse]. *)
Definition FetchAndParse (url : gostring) (net : Net)
  : result (list HistoricalEvent) * Net :=
  match fetchFeed url net with
  | (Err e, net') => (Err e, net')
  | (Ok feed, net') => (Ok (map parseItem (Channel_Items (Feed_Channel feed))), net')
  end.

(** The warning that [FetchMultipleFeeds] prints for a failed feed. *)
Definition feedWarning (url err : gostring) : gostring :=
  lit "Warning: failed to fetch feed " ++ url ++ lit ": " ++ err ++ [nl].

(** The loop of [FetchMultipleFeeds]; [stdout] collects what is printed. *)
Fixpoint fetchLoop (urls : list gostring) (allEvents : list HistoricalEvent)
  (net : Net) (stdout : list gostring)
  : list HistoricalEvent * Net * list gostring :=
  match urls with
  | [] => (allEvents, net, stdout)
  | url :: rest =>
      match FetchAndParse url net with
      | (Err e, net') => fetchLoop rest allEvents net' (stdout ++ [feedWarning url e])
      | (Ok events, net') => fetchLoop rest (allEvents ++ events) net' stdout
      end
  end.

(** [FetchMultipleFeeds]. *)
Definition FetchMultipleFeeds (urls : list gostring) (net : Net) (stdout : list gostring)
  : result (list HistoricalEvent) * Net * list gostring :=
  match fetchLoop urls [] net stdout with
  | (allEvents, net', stdout') =>
      if len allEvents =? 0
      then (Err (lit "no events fetched from any feed"), net', stdout')
      else (Ok allEvents, net', stdout')
  end.

(** [FetchHolidays]. *)
Definition FetchHolidays (url : gostring) (net : Net) : result (list Holiday) * Net :=
  match fetchFeed url net with
  | (Err e, net') => (Err e, net')
  | (Ok feed, net') =>
      (Ok (map (fun item =>
                  {| Holiday_Title := Item_Title item;
                     Holiday_Description := cleanHTML (Item_Description item);
                     Holiday_Link := Item_Link item |})
               (Channel_Items (Feed_Channel feed))), net')
  end.

End Fetch.

End Rss.

(** ** internal/llm/selector.go *)

Module Llm.
Import Strings.

(** An event as the model returns it. *)
Record SelectedEvent := {
  Year : gostring;
  Title : gostring;
  Description : gostring;
  Category : gostring
}.

(** One fenced-region attempt of [extractJSON]: the region after the
    first [opening] up to the next triple backtick, when both exist. *)
Definition fenced (s opening : gostring) : option gostring :=
  if Contains s opening then
    let start := Index s opening in
    if negb (start =? -1) then
      let start := start + len opening in
      let end_ := Index (sliceFrom s start) (lit "```") in
      if negb (end_ =? -1) then Some (slice s start (start + end_))
      else None
    else None
  else None.

(** [extractJSON]: the json-tagged fence first, then the bare fence,
    otherwise the input itself. *)
Definition extractJSON (s : gostring) : gostring :=
  match fenced s (lit "```json") with
  | Some r => r
  | None =>
      match fenced s (lit "```") with
      | Some r => r
      | None => s
      end
  end.

(** The selector: the key, the model, how many events to ask for and
    the template of the prompt.  Its HTTP client, with a timeout of 60
    seconds, is part of the world below. *)
Record Selector := {
  apiKey : gostring;
  model : gostring;
  maxEvents : Z;
  promptTemplate : gostring
}.

(** [NewSelector]. *)
Definition NewSelector (apiKey model : gostring) (maxEvents : Z)
    (promptTemplate : gostring) : Selector :=
  {| apiKey := apiKey; model := model; maxEvents := maxEvents;
     promptTemplate := promptTemplate |}.

(** The loop of [formatEventsForPrompt], writing to [buf]; [i] is the
    index of the event at the head of [events]. *)
Fixpoint promptLoop (i : Z) (events : list Rss.HistoricalEvent) (buf : gostring)
  : gostring :=
  match events with
  | [] => buf
  | event :: rest =>
      let buf := buf ++ (formatInt (i + 1) ++ lit ". ") in
      let buf :=
        if negb (eqb (Rss.Year event) [])
        then buf ++ (lit "[" ++ Rss.Year event ++ lit "] ")
        else buf in
      let buf := buf ++ Rss.Title event in
      let buf :=
        if negb (eqb (Rss.Description event) [])
        then (buf ++ (nl :: lit "   ")) ++ Rss.Description event
        else buf in
      let buf :=
        if negb (eqb (Rss.Category event) [])
        then buf ++ (nl :: lit "   Category: " ++ Rss.Category event)
        else buf in
      let buf := buf ++ [nl; nl] in
      promptLoop (i + 1) rest buf
  end.

(** [formatEventsForPrompt]. *)
Definition formatEventsForPrompt (events : list Rss.HistoricalEvent) : gostring :=
  promptLoop 0 events [].

(** The request and the response of the Messages API. *)
Record Message := { Message_Role : gostring; Message_Content : gostring }.

Record ClaudeRequest := {
  Request_Model : gostring;
  Request_MaxTokens : Z;
  Request_Messages : list Message
}.

Record ContentBlock := { Block_Type : gostring; Block_Text : gostring }.

Record UsageInfo := { InputTokens : Z; OutputTokens : Z }.

Record ClaudeResponse := {
  Response_ID : gostring;
  Response_Type : gostring;
  Response_Role : gostring;
  Response_Content : list ContentBlock;
  Response_Model : gostring;
  Response_Usage : UsageInfo
}.

(** The address of the Messages API. *)
Definition messagesURL : gostring := lit "https://api.anthropic.com/v1/messages".

Section Select.

(** The world outside the selector: the state of the network, the JSON
    encoder and the two uses of the JSON decoder (for the response of
    the API and for the selection, which yields the events of the
    decoded [SelectionResponse]), the construction of a request, the
    round trip of the POST request (to the given address, with the
    given key in its [x-api-key] header and the given body), and
    [fmt.Sprintf] of the template at the number of events. *)
Variable Net : Type.
Variable jsonMarshal : ClaudeRequest -> result gostring.
Variable newRequest : gostring -> result unit.
Variable clientDo : gostring -> gostring -> gostring -> Net -> result Rss.Response * Net.
Variable unmarshalResponse : gostring -> result ClaudeResponse.
Variable unmarshalSelection : gostring -> result (list SelectedEvent).
Variable sprintf : gostring -> Z -> gostring.

(** [callClaudeAPI]. *)
Definition callClaudeAPI (s : Selector) (prompt : gostring) (net : Net)
  : result gostring * Net :=
  let request :=
    {| Request_Model := model s; Request_MaxTokens := 2048;
       Request_Messages :=
         [ {| Message_Role := lit "user"; Message_Content := prompt |} ] |} in
  match jsonMarshal request with
  | Err e => (Err (Rss.wrapErr (lit "failed to marshal request") e), net)
  | Ok reqBody =>
      match newRequest messagesURL with
      | Err e => (Err (Rss.wrapErr (lit "failed to create request") e), net)
      | Ok _ =>
          match clientDo messagesURL (apiKey s) reqBody net with
          | (Err e, net') => (Err (Rss.wrapErr (lit "failed to make request") e), net')
          | (Ok resp, net') =>
              match Rss.Body resp with
              | Err e => (Err (Rss.wrapErr (lit "failed to read response") e), net')
              | Ok body =>
                  if negb (Rss.StatusCode resp =? 200)
                  then (Err (lit "API request failed with status " ++
                             formatInt (Rss.StatusCode resp) ++ lit ": " ++ body), net')
                  else
                    match unmarshalResponse body with
                    | Err e =>
                        (Err (Rss.wrapErr (lit "failed to unmarshal response") e), net')
                    | Ok claudeResp =>
                        match Response_Content claudeResp with
                        | [] => (Err (lit "no content in response"), net')
                        | block :: _ => (Ok (Block_Text block), net')
                        end
                    end
              end
          end
      end
  end.

(** [parseSelection]. *)
Definition parseSelection (response : gostring) : result (list SelectedEvent) :=
  let response := extractJSON response in
  match unmarshalSelection response with
  | Err e =>
      Err (lit "failed to unmarshal selection: " ++ e ++
           lit " (response: " ++ response ++ lit ")")
  | Ok events =>
      if len events =? 0 then Err (lit "no events in selection")
      else Ok events
  end.

(** [SelectEvents]. *)
Definition SelectEvents (s : Selector) (events : list Rss.HistoricalEvent) (net : Net)
  : result (list SelectedEvent) * Net :=
  if len events =? 0 then (Err (lit "no events to select from"), net)
  else
    let eventsText := formatEventsForPrompt events in
    let prompt := sprintf (promptTemplate s) (maxEvents s) in
    let prompt :=
      prompt ++ ([nl; nl] ++ lit "Here are today's historical events:" ++ [nl; nl])
             ++ eventsText in
    match callClaudeAPI s prompt net with
    | (Err e, net') => (Err (Rss.wrapErr (lit "failed to call Claude API") e), net')
    | (Ok response, net') =>
        match parseSelection response with
        | Err e => (Err (Rss.wrapErr (lit "failed to parse selection") e), net')
        | Ok selected => (Ok selected, net')
        end
    end.

End Select.

End Llm.

(** ** internal/slack/poster.go *)

Module Slack.
Import Strings.

Record TextObject := { TextObject_Type : gostring; TextObject_Text : gostring }.

Record Block := {
  Block_Type : gostring;
  Block_Text : option TextObject;
  Block_Elements : list TextObject
}.

Record SlackMessage := {
  Message_Text : gostring;
  Message_Blocks : list Block
}.

Definition section (text : gostring) : Block :=
  {| Block_Type := lit "section";
     Block_Text := Some {| TextObject_Type := lit "mrkdwn"; TextObject_Text := text |};
     Block_Elements := [] |}.

Definition divider : Block :=
  {| Block_Type := lit "divider"; Block_Text := None; Block_Elements := [] |}.

(** The bulleted holiday lines, joined by newlines. *)
Fixpoint holidayLines (i : nat) (holidays : list gostring) : gostring :=
  match holidays with
  | [] => []
  | h :: rest =>
      (if (0 <? i)%nat then [nl] else []) ++ lit "• " ++ h ++
      holidayLines (S i) rest
  end.

(** One section per event, with a divider between two of them. *)
Fixpoint eventBlocks (events : list Llm.SelectedEvent) : list Block :=
  match events with
  | [] => []
  | event :: rest =>
      let header := lit "*" ++ Llm.Year event ++ lit "* • " ++ Llm.Category event in
      let titleText := lit "*" ++ Llm.Title event ++ lit "*" in
      let eventText := header ++ [nl; nl] ++ titleText ++ [nl; nl] ++ Llm.Description event in
      section eventText ::
      (match rest with [] => [] | _ :: _ => [divider] end) ++ eventBlocks rest
  end.

(** [formatMessageWithHolidays]; [dateStr] is the current date as
    [time.Now().Format] prints it. *)
Definition formatMessageWithHolidays (dateStr : gostring)
    (events : list Llm.SelectedEvent) (holidays : list gostring) : SlackMessage :=
  let blocks :=
    [ {| Block_Type := lit "header";
         Block_Text := Some {| TextObject_Type := lit "plain_text";
                               TextObject_Text :=
                                 lit "📅 On This Day in History - " ++ dateStr |};
         Block_Elements := [] |};
      divider ] in
  let blocks :=
    if 0 <? len holidays
    then blocks ++ [ section (lit "*🎉 Today's Fun Holidays*");
                     section (holidayLines 0 holidays);
                     divider ]
    else blocks in
  let blocks := blocks ++ eventBlocks events in
  let blocks :=
    blocks ++ [ {| Block_Type := lit "context"; Block_Text := None;
                   Block_Elements :=
                     [ {| TextObject_Type := lit "mrkdwn";
                          TextObject_Text :=
                            lit "_Curated by AI from today's historical events_" |} ] |} ] in
  {| Message_Text := []; Message_Blocks := blocks |}.

(** [formatMessage]. *)
Definition formatMessage (dateStr : gostring) (events : list Llm.SelectedEvent)
  : SlackMessage :=
  formatMessageWithHolidays dateStr events [].

(** The loop of [FormatEventsAsText], writing to [buf]; [i] is the
    index of the event at the head of [events] and [n] the number of
    all events. *)
Fixpoint textLoop (i n : Z) (events : list Llm.SelectedEvent) (buf : gostring)
  : gostring :=
  match events with
  | [] => buf
  | event :: rest =>
      let buf := buf ++ (formatInt (i + 1) ++ lit ". " ++ Llm.Year event ++
                         lit " - " ++ Llm.Title event ++ [nl]) in
      let buf := buf ++ (lit "   Category: " ++ Llm.Category event ++ [nl]) in
      let buf := buf ++ (lit "   " ++ Llm.Description event ++ [nl]) in
      let buf := if i <? n - 1 then buf ++ [nl] else buf in
      textLoop (i + 1) n rest buf
  end.

(** [FormatEventsAsText]; [dateStr] is the current date as
    [time.Now().Format] prints it, with its year. *)
Definition FormatEventsAsText (dateStr : gostring) (events : list Llm.SelectedEvent)
  : gostring :=
  textLoop 0 (len events) events
    (lit "📅 On This Day in History - " ++ dateStr ++ [nl; nl]).

(** What the poster does to the outside world, in order. *)
Inductive Effect :=
| ReadClock
| Marshal (message : SlackMessage)
| HttpPost (url body : gostring).

Section Post.

(** The world outside the poster: the clock, the JSON encoder, the
    construction of the request and the round trip to the webhook. *)
Variable Net : Type.
Variable today : Net -> gostring.
Variable jsonMarshal : SlackMessage -> result gostring.
Variable newRequest : gostring -> result unit.
Variable clientDo : gostring -> gostring -> Net -> result Rss.Response * Net.

(** [PostEventsWithHolidays]; [trace] records the effects performed. *)
Definition PostEventsWithHolidays (webhookURL : gostring)
    (events : list Llm.SelectedEvent) (holidays : list gostring)
    (net : Net) (trace : list Effect) : result unit * Net * list Effect :=
  if (len events =? 0) && (len holidays =? 0)
  then (Err (lit "no events or holidays to post"), net, trace)
  else
    let message := formatMessageWithHolidays (today net) events holidays in
    let trace := trace ++ [ReadClock; Marshal message] in
    match jsonMarshal message with
    | Err e => (Err (Rss.wrapErr (lit "failed to marshal message") e), net, trace)
    | Ok reqBody =>
        match newRequest webhookURL with
        | Err e => (Err (Rss.wrapErr (lit "failed to create request") e), net, trace)
        | Ok _ =>
            let trace := trace ++ [HttpPost webhookURL reqBody] in
            match clientDo webhookURL reqBody net with
            | (Err e, net') => (Err (Rss.wrapErr (lit "failed to make request") e), net', trace)
            | (Ok resp, net') =>
                match Rss.Body resp with
                | Err e => (Err (Rss.wrapErr (lit "failed to read response") e), net', trace)
                | Ok body =>
                    if negb (Rss.StatusCode resp =? 200)
                    then (Err (lit "Slack API request failed with status " ++
                               formatInt (Rss.StatusCode resp) ++ lit ": " ++ body),
                          net', trace)
                    else (Ok tt, net', trace)
                end
            end
        end
    end.

(** [PostEvents]. *)
Definition PostEvents (webhookURL : gostring) (events : list Llm.SelectedEvent)
    (net : Net) (trace : list Effect) : result unit * Net * list Effect :=
  PostEventsWithHolidays webhookURL events [] net trace.

(** [PostSimpleMessage]. *)
Definition PostSimpleMessage (webhookURL text : gostring)
    (net : Net) (trace : list Effect) : result unit * Net * list Effect :=
  let message := {| Message_Text := text; Message_Blocks := [] |} in
  let trace := trace ++ [Marshal message] in
  match jsonMarshal message with
  | Err e => (Err (Rss.wrapErr (lit "failed to marshal message") e), net, trace)
  | Ok reqBody =>
      match newRequest webhookURL with
      | Err e => (Err (Rss.wrapErr (lit "failed to create request") e), net, trace)
      | Ok _ =>
          let trace := trace ++ [HttpPost webhookURL reqBody] in
          match clientDo webhookURL reqBody net with
          | (Err e, net') => (Err (Rss.wrapErr (lit "failed to make request") e), net', trace)
          | (Ok resp, net') =>
              match Rss.Body resp with
              | Err e => (Err (Rss.wrapErr (lit "failed to read response") e), net', trace)
              | Ok body =>
                  if negb (Rss.StatusCode resp =? 200)
                  then (Err (lit "Slack API request failed with status " ++
                             formatInt (Rss.StatusCode resp) ++ lit ": " ++ body),
                        net', trace)
                  else (Ok tt, net', trace)
              end
          end
      end
  end.

End Post.

End Slack.

(** ** cmd/bot/main.go *)

Module Bot.
Import Strings.

(** The configuration, with the fields that [main.go] reads. *)
Record Config := {
  SlackWebhookURL : gostring;
  ClaudeAPIKey : gostring;
  ClaudeModel : gostring;
  RSSFeedURLs : list gostring;
  HolidayFeedURL : gostring;
  ScheduleCron : gostring;
  RunOnce : bool;
  MaxEvents : Z;
  MaxHolidays : Z;
  EventSelectionPrompt : gostring
}.

(** Keywords that indicate serious, political or religious holidays. *)
Definition seriousKeywords : list gostring :=
  map lit
    [ "International"; "World"; "National Awareness"; "Day for";
      "Memorial"; "Remembrance"; "Victims"; "Prevention";
      "Human Rights"; "Peace"; "Conflict"; "War"; "Violence";
      "Exploitation"; "Poverty"; "Hunger"; "Disease";
      "Awareness Week"; "Awareness Month"; "Solidarity";
      "Against"; "United Nations"; "Commemoration" ]%string.

Section Filter.

Variable unicodeLower : gostring -> gostring.

(** [contains]: case-insensitive containment. *)
Definition contains (s substr : gostring) : bool :=
  (len substr <=? len s) &&
  (eqb s substr ||
   Contains (ToLower unicodeLower s) (ToLower unicodeLower substr)).

(** The inner loop of [filterFunHolidays]: [isFun] starts true and the
    first keyword found in the title clears it and ends the loop. *)
Fixpoint isFun (title : gostring) (keywords : list gostring) : bool :=
  match keywords with
  | [] => true
  | keyword :: rest => if contains title keyword then false else isFun title rest
  end.

(** The outer loop, appending to [funHolidays]. *)
Fixpoint filterLoop (holidays funHolidays : list Rss.Holiday) : list Rss.Holiday :=
  match holidays with
  | [] => funHolidays
  | holiday :: rest =>
      if isFun (Rss.Holiday_Title holiday) seriousKeywords
      then filterLoop rest (funHolidays ++ [holiday])
      else filterLoop rest funHolidays
  end.

(** [filterFunHolidays]. *)
Definition filterFunHolidays (holidays : list Rss.Holiday) : list Rss.Holiday :=
  filterLoop holidays [].

(** The counting loop of the job: [count] turns are left, [i] is the
    index.  An index outside [funHolidays] would panic; the bound on
    [maxCount] keeps the loop inside. *)
Fixpoint titlesLoop (count i : nat) (funHolidays : list Rss.Holiday)
    (holidays : list gostring) : list gostring :=
  match count with
  | O => holidays
  | S count' =>
      match nth_error funHolidays i with
      | Some h => titlesLoop count' (S i) funHolidays (holidays ++ [Rss.Holiday_Title h])
      | None => holidays
      end
  end.

(** The limit to [MaxHolidays] in the job. *)
Definition selectHolidays (maxHolidays : Z) (funHolidays : list Rss.Holiday)
  : list gostring :=
  let maxCount := maxHolidays in
  let maxCount := if len funHolidays <? maxCount then len funHolidays else maxCount in
  titlesLoop (Z.to_nat maxCount) 0 funHolidays [].

End Filter.

Section Job.

(** The world outside the job: the network behind the feed parser, the
    selection by the language model, and the webhook behind the poster. *)
Variable Net : Type.
Variable unicodeLower : gostring -> gostring.
Variable newGet : gostring -> result unit.
Variable clientGet : gostring -> Net -> result Rss.Response * Net.
Variable gzipNewReader : result gostring -> result (result gostring).
Variable xmlUnmarshal : gostring -> result Rss.Feed.
Variable SelectEvents :
  Config -> list Rss.HistoricalEvent -> Net -> result (list Llm.SelectedEvent) * Net.
Variable today : Net -> gostring.
Variable jsonMarshal : Slack.SlackMessage -> result gostring.
Variable newPost : gostring -> result unit.
Variable clientPost : gostring -> gostring -> Net -> result Rss.Response * Net.

(** The holidays of the job: none without a holiday feed or when the
    fetch fails, otherwise the fun ones up to [MaxHolidays]. *)
Definition jobHolidays (cfg : Config) (net : Net) : list gostring * Net :=
  if negb (eqb (HolidayFeedURL cfg) [])
  then
    match Rss.FetchHolidays Net newGet clientGet gzipNewReader xmlUnmarshal
            (HolidayFeedURL cfg) net with
    | (Err _, net') => ([], net')
    | (Ok holidayData, net') =>
        let funHolidays := filterFunHolidays unicodeLower holidayData in
        (selectHolidays (MaxHolidays cfg) funHolidays, net')
    end
  else ([], net).

(** The job made by [createJob] (its log lines left out). *)
Definition createJob (cfg : Config) (net : Net) (stdout : list gostring)
    (trace : list Slack.Effect)
  : result unit * Net * list gostring * list Slack.Effect :=
  match Rss.FetchMultipleFeeds Net newGet clientGet gzipNewReader xmlUnmarshal
          (RSSFeedURLs cfg) net stdout with
  | (Err e, net1, stdout1) => (Err e, net1, stdout1, trace)
  | (Ok events, net1, stdout1) =>
      match SelectEvents cfg events net1 with
      | (Err e, net2) => (Err e, net2, stdout1, trace)
      | (Ok selectedEvents, net2) =>
          let (holidays, net3) := jobHolidays cfg net2 in
          match Slack.PostEventsWithHolidays Net today jsonMarshal newPost clientPost
                  (SlackWebhookURL cfg) selectedEvents holidays net3 trace with
          | (r, net4, trace') => (r, net4, stdout1, trace')
          end
      end
  end.

End Job.

Section Wired.

(** The job with the selector of [internal/llm] in the place of the
    selection: the world outside is the network behind the feed parser,
    the API of the language model and the webhook, with the encoders
    and decoders in between. *)
Variable Net : Type.
Variable unicodeLower : gostring -> gostring.
Variable newGet : gostring -> result unit.
Variable clientGet : gostring -> Net -> result Rss.Response * Net.
Variable gzipNewReader : result gostring -> result (result gostring).
Variable xmlUnmarshal : gostring -> result Rss.Feed.
Variable marshalRequest : Llm.ClaudeRequest -> result gostring.
Variable newPost : gostring -> result unit.
Variable clientMessages :
  gostring -> gostring -> gostring -> Net -> result Rss.Response * Net.
Variable unmarshalResponse : gostring -> result Llm.ClaudeResponse.
Variable unmarshalSelection : gostring -> result (list Llm.SelectedEvent).
Variable sprintf : gostring -> Z -> gostring.
Variable today : Net -> gostring.
Variable jsonMarshal : Slack.SlackMessage -> result gostring.
Variable clientPost : gostring -> gostring -> Net -> result Rss.Response * Net.

(** The selection as the job makes it: a new selector from the
    configuration, and its [SelectEvents]. *)
Definition selectEvents (cfg : Config) (events : list Rss.HistoricalEvent) (net : Net)
  : result (list Llm.SelectedEvent) * Net :=
  let selector :=
    Llm.NewSelector (ClaudeAPIKey cfg) (ClaudeModel cfg) (MaxEvents cfg)
      (EventSelectionPrompt cfg) in
  Llm.SelectEvents Net marshalRequest newPost clientMessages unmarshalResponse
    unmarshalSelection sprintf selector events net.

(** The job of [main]. *)
Definition job (cfg : Config) (net : Net) (stdout : list gostring)
    (trace : list Slack.Effect)
  : result unit * Net * list gostring * list Slack.Effect :=
  createJob Net unicodeLower newGet clientGet gzipNewReader xmlUnmarshal
    selectEvents today jsonMarshal newPost clientPost cfg net stdout trace.

End Wired.

End Bot.

(** ** internal/config/config.go *)

Module Config.
Import Strings Strconv.

(** The configuration of the application. *)
Record Config := {
  SlackWebhookURL : gostring;
  ClaudeAPIKey : gostring;
  ClaudeModel : gostring;
  RSSFeedURLs : list gostring;
  ScheduleCron : gostring;
  RunOnce : bool;
  MaxEvents : Z;
  EventSelectionPrompt : gostring
}.

(** The double quote. *)
Definition dq : ascii := byte 34.

(** The default of the prompt for the selection of events. *)
Definition defaultPrompt : gostring :=
  lit "You are analyzing historical events that happened on this day. Your task is to select the most interesting, rare, or significant events from the list provided." ++ [nl] ++
  [nl] ++
  lit "Criteria for selection:" ++ [nl] ++
  lit "- Events that are historically significant or impactful" ++ [nl] ++
  lit "- Unusual, rare, or surprising events" ++ [nl] ++
  lit "- Events that would be interesting to a general audience" ++ [nl] ++
  lit "- Avoid overly common or mundane events" ++ [nl] ++
  lit "- Prefer events from different time periods and categories for variety" ++ [nl] ++
  [nl] ++
  lit "Select exactly %d events from the list and format them for posting to Slack. For each event, provide:" ++ [nl] ++
  lit "1. The year and a brief, engaging description (2-3 sentences max)" ++ [nl] ++
  lit "2. Why this event is interesting or significant" ++ [nl] ++
  [nl] ++
  lit "Format your response as JSON with the following structure:" ++ [nl] ++
  lit "{" ++ [nl] ++
  lit "  " ++ [dq] ++ lit "events" ++ [dq] ++ lit ": [" ++ [nl] ++
  lit "    {" ++ [nl] ++
  lit "      " ++ [dq] ++ lit "year" ++ [dq] ++ lit ": " ++ [dq] ++ lit "YYYY" ++ [dq] ++ lit "," ++ [nl] ++
  lit "      " ++ [dq] ++ lit "title" ++ [dq] ++ lit ": " ++ [dq] ++ lit "Brief event title" ++ [dq] ++ lit "," ++ [nl] ++
  lit "      " ++ [dq] ++ lit "description" ++ [dq] ++ lit ": " ++ [dq] ++ lit "Engaging 2-3 sentence description with context and significance" ++ [dq] ++ lit "," ++ [nl] ++
  lit "      " ++ [dq] ++ lit "category" ++ [dq] ++ lit ": " ++ [dq] ++ lit "Category of event (e.g., Politics, Science, Arts, etc.)" ++ [dq] ++ [nl] ++
  lit "    }" ++ [nl] ++
  lit "  ]" ++ [nl] ++
  lit "}".

Section Env.

(** The environment of the process: [os.Getenv], which yields the
    empty string for a variable that is not set. *)
Variable Getenv : gostring -> gostring.

Definition getEnvOrDefault (key defaultValue : gostring) : gostring :=
  let value := Getenv key in
  if negb (eqb value []) then value else defaultValue.

Definition getEnvBool (key : gostring) (defaultValue : bool) : bool :=
  let value := Getenv key in
  if negb (eqb value []) then
    match ParseBool value with
    | Ok b => b
    | Err _ => defaultValue
    end
  else defaultValue.

Definition getEnvInt (key : gostring) (defaultValue : Z) : Z :=
  let value := Getenv key in
  if negb (eqb value []) then
    match Atoi value with
    | Ok i => i
    | Err _ => defaultValue
    end
  else defaultValue.

(** [Load]. *)
Definition Load : result Config :=
  let feedURL :=
    getEnvOrDefault (lit "RSS_FEED_URL")
      (lit "https://www.onthisday.com/rss/today-in-history.xml") in
  let cfg :=
    {| SlackWebhookURL := Getenv (lit "SLACK_WEBHOOK_URL");
       ClaudeAPIKey := Getenv (lit "CLAUDE_API_KEY");
       ClaudeModel := getEnvOrDefault (lit "CLAUDE_MODEL") (lit "claude-sonnet-4-5");
       RSSFeedURLs := [feedURL];
       ScheduleCron := getEnvOrDefault (lit "SCHEDULE_CRON") (lit "0 9 * * *");
       RunOnce := getEnvBool (lit "RUN_ONCE") false;
       MaxEvents := getEnvInt (lit "MAX_EVENTS") 2;
       EventSelectionPrompt :=
         getEnvOrDefault (lit "EVENT_SELECTION_PROMPT") defaultPrompt |} in
  if eqb (SlackWebhookURL cfg) [] then Err (lit "SLACK_WEBHOOK_URL is required")
  else if eqb (ClaudeAPIKey cfg) [] then Err (lit "CLAUDE_API_KEY is required")
  else Ok cfg.

End Env.

End Config.

(** ** Vocabulary of the statements about [extractJSON] *)

Module FenceSpec.
Import Strings.

(** The three backticks of a Markdown fence. *)
Definition fence : gostring := lit "```".

(** The closing fence is the first triple backtick after the opening:
    [interior] holds none and does not run into the closing one. *)
Definition ClosingFirst (interior : gostring) : Prop :=
  Index (interior ++ fence) fence = len interior.





End FenceSpec.

(** ** Vocabulary of the statements about the feed mapper *)

Module ItemSpec.
Import Strings.

(** The byte at which [parseItem] cuts a title. *)
Definition colon : ascii := ":"%char.

Definition lt : ascii := "<"%char.
Definition gt : ascii := ">"%char.

(** [sub] is [s] with some bytes left out. *)
Inductive subseq : gostring -> gostring -> Prop :=
| subseq_nil : subseq [] []
| subseq_skip : forall c sub s, subseq sub s -> subseq sub (c :: s)
| subseq_keep : forall c sub s, subseq sub s -> subseq (c :: sub) (c :: s).

(** A complete tag survives: some [<] is followed, anywhere later, by a [>]. *)
Definition HasTag (s : gostring) : Prop :=
  exists a b c, s = a ++ lt :: b ++ gt :: c.

(** A run of three (or more) consecutive newlines. *)
Definition NewlineRun (s : gostring) : Prop :=
  exists a b, s = a ++ [nl; nl; nl] ++ b.

(** The string starts, respectively ends, with a white-space character. *)
Definition LeadingWhite (s : gostring) : Prop :=
  exists e r, In e whiteSpace /\ s = e ++ r.

Definition TrailingWhite (s : gostring) : Prop :=
  exists e r, In e whiteSpace /\ s = r ++ e.

(** A run of white-space characters, one behind the other. *)
Inductive White : gostring -> Prop :=
| White_nil : White []
| White_more : forall e r, In e whiteSpace -> White r -> White (e ++ r).

(** [t] is [s] trimmed: [s] without the white space that it starts
    with and the white space that it ends with, so that [t] neither
    starts nor ends with a white-space character. *)
Definition Trimmed (s t : gostring) : Prop :=
  exists l r,
    s = l ++ t ++ r /\ White l /\ White r /\
    ~ LeadingWhite t /\ ~ TrailingWhite t.

End ItemSpec.

Module FeedSpec.
Import Rss.

Section Outcomes.
Variable Net : Type.
Variable fetch : gostring -> Net -> result (list HistoricalEvent) * Net.

(** What each configured feed yields, in feed order, the network state
    being threaded from one fetch to the next. *)
Fixpoint feedOutcomes (urls : list gostring) (net : Net)
  : list (gostring * result (list HistoricalEvent)) :=
  match urls with
  | [] => []
  | url :: rest =>
      let (r, net') := fetch url net in (url, r) :: feedOutcomes rest net'
  end.

End Outcomes.

(** The events of the feeds that were fetched, concatenated in order. *)
Definition obtained (outs : list (gostring * result (list HistoricalEvent)))
  : list HistoricalEvent :=
  flat_map (fun o => match snd o with Ok evs => evs | Err _ => [] end) outs.

(** One warning line per feed that failed, in order. *)
Definition warnings (outs : list (gostring * result (list HistoricalEvent)))
  : list gostring :=
  flat_map (fun o => match snd o with
                     | Ok _ => []
                     | Err e => [feedWarning (fst o) e]
                     end) outs.

End FeedSpec.

(** ** Vocabulary of the statements about the holiday filter *)

Module HolidaySpec.
Import Strings Bot.



Section Fold.

(** The case tables of Unicode for the characters beyond ASCII. *)
Variable caseTable : Utf8.rune -> Utf8.rune.

(** The characters of a string, each in its lower case (a character
    that the tables map to no character is left out). *)
Definition lowered (s : gostring) : list Utf8.rune :=
  filter (fun r => 0 <=? r) (map (Unicode.ToLower caseTable) (Utf8.runes s)).

(** [t] contains [kw] when case is ignored, character by character:
    the lower-cased characters of [kw] are a stretch of the lower-cased
    characters of [t]. *)
Definition FoldContainsRunes (t kw : gostring) : Prop :=
  exists a b, lowered t = a ++ lowered kw ++ b.

Definition SeriousRunes (title : gostring) : Prop :=
  exists kw, In kw seriousKeywords /\ FoldContainsRunes title kw.

End Fold.

End HolidaySpec.

(** ** Vocabulary of the statements about schedules *)

Module CronSpec.
Import Utf8 Fmt.

(** White space within a line. *)
Definition blank (r : rune) : bool := isSpace r && negb (r =? newline).

Definition blanks (ws : list rune) : Prop := forallb blank ws = true.

(** An integer field: an optional sign and decimal digits; [v] is the
    number it denotes. *)
Definition IntField (tok : list rune) (v : Z) : Prop :=
  exists sign ds,
    tok = sign ++ ds /\ (sign = [] \/ sign = [43] \/ sign = [45]) /\
    ds <> [] /\ forallb isDigit ds = true /\
    v = (match sign with [45] => - digitsValue ds | _ => digitsValue ds end).

(** The range of a 64-bit [int]. *)
Definition inInt64 (v : Z) : bool := (- 2 ^ 63 <=? v) && (v <? 2 ^ 63).

(** Any other field: a word without white space. *)
Definition Word (tok : list rune) : Prop :=
  tok <> [] /\ forallb (fun r => negb (isSpace r)) tok = true.

(** What a run of spaces stops at, and what a number stops at. *)
Definition NotSpaceHead (l : list rune) : Prop :=
  match l with
  | [] => True
  | r :: _ => isSpace r = false
  end.

Definition NotBlankHead (l : list rune) : Prop :=
  match l with
  | [] => True
  | r :: _ => blank r = false
  end.

Definition NoDigitHead (l : list rune) : Prop :=
  match l with
  | [] => True
  | r :: _ => isDigit r = false
  end.

(** What follows a field: white space, or nothing. *)
Definition FieldEnd (rest : list rune) : Prop :=
  match rest with
  | [] => True
  | r :: _ => isSpace r = true
  end.

(** The string starts with two integer fields, minute and hour. *)
Definition TwoLeadingInts (rs : list rune) (minute hour : Z) : Prop :=
  exists ws0 t1 ws1 t2 rest,
    rs = ws0 ++ t1 ++ ws1 ++ t2 ++ rest /\
    blanks ws0 /\ IntField t1 minute /\
    ws1 <> [] /\ blanks ws1 /\ IntField t2 hour /\
    FieldEnd rest.

(** The string has five fields on one line, of which the first two are
    integers. *)
Definition FiveFields (rs : list rune) (minute hour : Z) : Prop :=
  exists ws0 t1 ws1 t2 ws2 f3 ws3 f4 ws4 f5 rest,
    rs = ws0 ++ t1 ++ ws1 ++ t2 ++ ws2 ++ f3 ++ ws3 ++ f4 ++ ws4 ++ f5 ++ rest /\
    blanks ws0 /\ IntField t1 minute /\
    ws1 <> [] /\ blanks ws1 /\ IntField t2 hour /\
    ws2 <> [] /\ blanks ws2 /\ Word f3 /\
    ws3 <> [] /\ blanks ws3 /\ Word f4 /\
    ws4 <> [] /\ blanks ws4 /\ Word f5 /\
    FieldEnd rest.

(** The steps that [doScanf] takes on the format of [ParseCron]: a
    verb skips spaces and scans its operand, a space of the format
    matches spaces of the input. *)
Definition intStep (input : list rune) (stored : list value)
    (k : list rune -> list value -> list value * option gostring)
  : list value * option gostring :=
  match SkipSpace input with
  | Err e => (stored, Some e)
  | Ok input =>
      match scanInt input with
      | Err e => (stored, Some e)
      | Ok (v, input) => k input (stored ++ [IntVal v])
      end
  end.

Definition wordStep (input : list rune) (stored : list value)
    (k : list rune -> list value -> list value * option gostring)
  : list value * option gostring :=
  match SkipSpace input with
  | Err e => (stored, Some e)
  | Ok input =>
      match convertString input with
      | Err e => (stored, Some e)
      | Ok (s, input) => k input (stored ++ [StringVal s])
      end
  end.

Definition spaceStep (input : list rune) (stored : list value)
    (k : list rune -> list value -> list value * option gostring)
  : list value * option gostring :=
  match matchSpaces 0 input with
  | Err e => (stored, Some e)
  | Ok input => k input stored
  end.

Definition cronSteps (input : list rune) : list value * option gostring :=
  intStep input [] (fun input stored =>
  spaceStep input stored (fun input stored =>
  intStep input stored (fun input stored =>
  spaceStep input stored (fun input stored =>
  wordStep input stored (fun input stored =>
  spaceStep input stored (fun input stored =>
  wordStep input stored (fun input stored =>
  spaceStep input stored (fun input stored =>
  wordStep input stored (fun _ stored => (stored, None)))))))))).

End CronSpec.

(** ** Vocabulary of the statements about text that is kept *)

Module TextSpec.
Import Strings.

(** The text of a string: what is left of it without its newlines. *)
Definition text (s : gostring) : gostring :=
  filter (fun c => negb (Ascii.eqb c nl)) s.

End TextSpec.

(** ** Vocabulary of the statements about the prompt *)

Module PromptSpec.
Import Strings.

(** The entry of an event in the list of the prompt, under its number:
    the number, the year in brackets if there is one, the title, then
    the description and the category, if any, on lines of their own,
    and an empty line. *)
Definition entry (n : Z) (event : Rss.HistoricalEvent) : gostring :=
  formatInt n ++ lit ". " ++
  (if eqb (Rss.Year event) [] then []
   else lit "[" ++ Rss.Year event ++ lit "] ") ++
  Rss.Title event ++
  (if eqb (Rss.Description event) [] then []
   else nl :: lit "   " ++ Rss.Description event) ++
  (if eqb (Rss.Category event) [] then []
   else nl :: lit "   Category: " ++ Rss.Category event) ++
  [nl; nl].

(** The entries of a list of events, numbered from [n] on. *)
Fixpoint entries (n : Z) (events : list Rss.HistoricalEvent) : list gostring :=
  match events with
  | [] => []
  | event :: rest => entry n event :: entries (n + 1) rest
  end.

End PromptSpec.

(** ** Vocabulary of the statements about Slack messages *)

Module SlackSpec.
Import Strings Slack.

Definition isDivider (b : Block) : bool := eqb (Block_Type b) (lit "divider").
Definition isSection (b : Block) : bool := eqb (Block_Type b) (lit "section").

(** Two dividers next to each other. *)
Fixpoint adjacentDividers (blocks : list Block) : bool :=
  match blocks with
  | b :: (b' :: _) as rest => (isDivider b && isDivider b') || adjacentDividers rest
  | _ => false
  end.

(** The number of the blocks that are sections. *)
Definition sections (blocks : list Block) : Z := len (filter isSection blocks).

(** The bulleted line of a holiday. *)
Definition bullet (holiday : gostring) : gostring := lit "• " ++ holiday.

(** Lines joined by newlines. *)
Fixpoint joinLines (lines : list gostring) : gostring :=
  match lines with
  | [] => []
  | [line] => line
  | line :: rest => line ++ nl :: joinLines rest
  end.

(** The three lines of an event in the plain text, under its number. *)
Definition textEntry (n : Z) (event : Llm.SelectedEvent) : gostring :=
  formatInt n ++ lit ". " ++ Llm.Year event ++ lit " - " ++ Llm.Title event ++ [nl] ++
  lit "   Category: " ++ Llm.Category event ++ [nl] ++
  lit "   " ++ Llm.Description event ++ [nl].

Fixpoint textEntries (n : Z) (events : list Llm.SelectedEvent) : list gostring :=
  match events with
  | [] => []
  | event :: rest => textEntry n event :: textEntries (n + 1) rest
  end.

(** The blocks of a message as the documentation of the poster lists
    them.  The header with the date and the footer: *)
Definition headerBlock (dateStr : gostring) : Block :=
  {| Block_Type := lit "header";
     Block_Text := Some {| TextObject_Type := lit "plain_text";
                           TextObject_Text :=
                             lit "📅 On This Day in History - " ++ dateStr |};
     Block_Elements := [] |}.

Definition footerBlock : Block :=
  {| Block_Type := lit "context"; Block_Text := None;
     Block_Elements :=
       [ {| TextObject_Type := lit "mrkdwn";
            TextObject_Text := lit "_Curated by AI from today's historical events_" |} ] |}.

(** The text of the section of an event: the year and the category, the
    title, the description, with an empty line between them. *)
Definition eventText (event : Llm.SelectedEvent) : gostring :=
  (lit "*" ++ Llm.Year event ++ lit "* • " ++ Llm.Category event) ++ [nl; nl] ++
  (lit "*" ++ Llm.Title event ++ lit "*") ++ [nl; nl] ++ Llm.Description event.

(** Blocks with a separator between every two of them. *)
Fixpoint between (sep : Block) (blocks : list Block) : list Block :=
  match blocks with
  | [] => []
  | [b] => [b]
  | b :: rest => b :: sep :: between sep rest
  end.

(** The blocks in their order: the header and a divider; with
    holidays, their heading, their lines and a divider; the sections of
    the events with dividers between them; the footer. *)
Definition layout (dateStr : gostring) (events : list Llm.SelectedEvent)
    (holidays : list gostring) : list Block :=
  [headerBlock dateStr; divider] ++
  (match holidays with
   | [] => []
   | _ :: _ => [ section (lit "*🎉 Today's Fun Holidays*");
                 section (joinLines (map bullet holidays));
                 divider ]
   end) ++
  between divider (map (fun event => section (eventText event)) events) ++
  [footerBlock].

Section Posted.

Variable Net : Type.
Variable jsonMarshal : SlackMessage -> result gostring.
Variable newRequest : gostring -> result unit.
Variable clientDo : gostring -> gostring -> Net -> result Rss.Response * Net.

(** What a post does once its message is made: nothing, when the
    message cannot be encoded or the request cannot be made, and
    otherwise one POST of the encoded message to the webhook, which
    succeeds exactly when the response can be read and has status 200.
    [r] is the result, [net'] the network afterwards and [added] the
    effects behind the encoding. *)
Inductive posted (url : gostring) (message : SlackMessage) (net : Net)
    (r : result unit) (net' : Net) (added : list Effect) : Prop :=
| posted_nothing :
    isErr r = true -> net' = net -> added = [] ->
    isErr (jsonMarshal message) = true \/ isErr (newRequest url) = true ->
    posted url message net r net' added
| posted_once : forall body,
    jsonMarshal message = Ok body ->
    isErr (newRequest url) = false ->
    added = [HttpPost url body] ->
    net' = snd (clientDo url body net) ->
    (r = Ok tt <->
     exists resp, fst (clientDo url body net) = Ok resp /\
                  Rss.StatusCode resp = 200 /\ isErr (Rss.Body resp) = false) ->
    posted url message net r net' added.

End Posted.

End SlackSpec.

(** ** Vocabulary of the statements about fetching a feed *)

Module FetchSpec.
Import Strings Rss.

Section Got.

Variable Net : Type.
Variable newRequest : gostring -> result unit.
Variable clientDo : gostring -> Net -> result Response * Net.
Variable gzipNewReader : result gostring -> result (result gostring).
Variable xmlUnmarshal : gostring -> result Feed.

(** What it takes to get a feed: the request can be made, its round
    trip brings a response of status 200, the body of the response
    (behind the gzip reader when the response says gzip) can be read to
    its end, and the XML decoder accepts what was read. *)
Definition got (url : gostring) (net : Net) (feed : Feed) (net' : Net) : Prop :=
  exists resp body,
    isErr (newRequest url) = false /\
    clientDo url net = (Ok resp, net') /\
    StatusCode resp = 200 /\
    (if eqb (ContentEncoding resp) (lit "gzip")
     then gzipNewReader (Body resp) = Ok (Ok body)
     else Body resp = Ok body) /\
    xmlUnmarshal body = Ok feed.

End Got.

End FetchSpec.

(** * Lemmas and theorems *)

(** Case analysis on the integer comparisons of the goal, one at a
    time; [tac] prunes the cases that cannot be. *)
Ltac cmp_step tac :=
  let H := fresh "Hcmp" in
  match goal with
  | |- context [(?x <=? ?y)] => destruct (Z.leb_spec0 x y) as [H|H]; tac
  | |- context [(?x <? ?y)] => destruct (Z.ltb_spec0 x y) as [H|H]; tac
  | |- context [(?x =? ?y)] => destruct (Z.eqb_spec x y) as [H|H]; tac
  end.

Ltac cmp_cases := repeat (cmp_step idtac).
Ltac cmp_cases_pruned := repeat (cmp_step ltac:(try lia)).

(** ** Searching in byte strings *)

Section StringFacts.
Import Strings.

Lemma gostring_eqb_eq s t : Strings.eqb s t = true <-> s = t.
Proof.
  revert t; induction s as [|a s IH]; intros [|b t]; simpl; split; intro H;
    try reflexivity; try discriminate.
  - apply andb_true_iff in H as [H1 H2]. apply Ascii.eqb_eq in H1.
    apply IH in H2. congruence.
  - injection H as -> ->. rewrite Ascii.eqb_refl. simpl. now apply IH.
Qed.

Lemma HasPrefix_app p r : HasPrefix (p ++ r) p = true.
Proof.
  induction p as [|c p IH]; simpl; [reflexivity|].
  now rewrite Ascii.eqb_refl.
Qed.

Lemma HasPrefix_inv s p : HasPrefix s p = true -> exists r, s = p ++ r.
Proof.
  revert s; induction p as [|c p IH]; intros s H; simpl in *.
  - now exists s.
  - destruct s as [|d s]; [discriminate|].
    apply andb_true_iff in H as [H1 H2]. apply Ascii.eqb_eq in H1. subst d.
    destruct (IH _ H2) as [r ->]. now exists r.
Qed.

Lemma HasPrefix_iff s p : HasPrefix s p = true <-> exists r, s = p ++ r.
Proof.
  split; [apply HasPrefix_inv|]. intros [r ->]. apply HasPrefix_app.
Qed.

Lemma HasPrefix_length s p :
  HasPrefix s p = true -> (List.length p <= List.length s)%nat.
Proof.
  intros H. apply HasPrefix_inv in H as [r ->]. rewrite length_app. lia.
Qed.

Lemma HasPrefix_app_l s v p :
  (List.length p <= List.length s)%nat -> HasPrefix (s ++ v) p = HasPrefix s p.
Proof.
  revert s; induction p as [|c p IH]; intros s Hl; simpl; [reflexivity|].
  destruct s as [|d s]; simpl in *; [lia|].
  rewrite IH by lia. reflexivity.
Qed.

Lemma HasPrefix_weaken s p q : HasPrefix s (p ++ q) = true -> HasPrefix s p = true.
Proof.
  intros H. apply HasPrefix_inv in H as [r ->]. rewrite <- app_assoc.
  apply HasPrefix_app.
Qed.

Lemma indexNat_bound s p i :
  indexNat s p = Some i -> (i + List.length p <= List.length s)%nat.
Proof.
  revert i; induction s as [|c s IH]; intros i; simpl.
  - destruct (HasPrefix [] p) eqn:E; [|discriminate].
    intros [= <-]. apply HasPrefix_length in E. simpl in *. lia.
  - destruct (HasPrefix (c :: s) p) eqn:E.
    + intros [= <-]. apply HasPrefix_length in E. simpl in *. lia.
    + destruct (indexNat s p) as [j|] eqn:Ej; simpl; [|discriminate].
      intros [= <-]. specialize (IH _ eq_refl). lia.
Qed.

Lemma indexNat_prefix s p i :
  indexNat s p = Some i -> HasPrefix (skipn i s) p = true.
Proof.
  revert i; induction s as [|c s IH]; intros i; simpl.
  - destruct (HasPrefix [] p) eqn:E; [|discriminate]. now intros [= <-].
  - destruct (HasPrefix (c :: s) p) eqn:E.
    + now intros [= <-].
    + destruct (indexNat s p) as [j|] eqn:Ej; simpl; [|discriminate].
      intros [= <-]. simpl. now apply IH.
Qed.

Lemma indexNat_split s p i :
  indexNat s p = Some i ->
  s = firstn i s ++ p ++ skipn (i + List.length p) s.
Proof.
  intros H. pose proof (indexNat_prefix _ _ _ H) as Hp.
  apply HasPrefix_inv in Hp as [r Hr].
  rewrite <- (firstn_skipn i s) at 1. f_equal. rewrite Hr. f_equal.
  rewrite Nat.add_comm, <- skipn_skipn, Hr.
  now rewrite skipn_app, skipn_all, Nat.sub_diag.
Qed.

Lemma indexNat_first s p i j :
  indexNat s p = Some i -> (j < i)%nat -> HasPrefix (skipn j s) p = false.
Proof.
  revert i j; induction s as [|c s IH]; intros i j; simpl.
  - destruct (HasPrefix [] p); [intros [= <-]; lia | discriminate].
  - destruct (HasPrefix (c :: s) p) eqn:E.
    + intros [= <-]; lia.
    + destruct (indexNat s p) as [k|] eqn:Ek; simpl; [|discriminate].
      intros [= <-] Hj. destruct j as [|j]; simpl; [exact E|].
      apply (IH k); [reflexivity | lia].
Qed.

Lemma indexNat_app s v p i :
  indexNat s p = Some i -> indexNat (s ++ v) p = Some i.
Proof.
  revert i; induction s as [|c s IH]; intros i H.
  - simpl in H. destruct (HasPrefix [] p) eqn:E; [|discriminate].
    injection H as <-. destruct p; [|discriminate].
    destruct v; reflexivity.
  - pose proof (indexNat_bound _ _ _ H) as Hb.
    simpl in H. change ((c :: s) ++ v) with (c :: (s ++ v)).
    simpl. change (c :: s ++ v) with ((c :: s) ++ v).
    rewrite HasPrefix_app_l by (simpl in *; lia).
    destruct (HasPrefix (c :: s) p); [exact H|].
    destruct (indexNat s p) as [j|] eqn:Ej; simpl in H; [|discriminate].
    now rewrite (IH _ eq_refl).
Qed.

Lemma indexNat_None_prefix s p j :
  indexNat s p = None -> HasPrefix (skipn j s) p = false.
Proof.
  revert j; induction s as [|c s IH]; intros j; simpl.
  - destruct (HasPrefix [] p) eqn:E; [discriminate|]. now destruct j.
  - destruct (HasPrefix (c :: s) p) eqn:E; [discriminate|].
    destruct (indexNat s p) eqn:Ek; simpl; [discriminate|].
    intros _. destruct j; simpl; [exact E | now apply IH].
Qed.

Lemma indexNat_None_occ s p :
  indexNat s p = None -> forall a b, s <> a ++ p ++ b.
Proof.
  intros H a b ->. pose proof (indexNat_None_prefix _ _ (List.length a) H) as E.
  rewrite skipn_app, skipn_all, Nat.sub_diag in E. simpl in E.
  now rewrite HasPrefix_app in E.
Qed.

Lemma indexNat_occ a p b :
  exists i, indexNat (a ++ p ++ b) p = Some i /\ (i <= List.length a)%nat.
Proof.
  induction a as [|c a IH]; simpl.
  - exists 0%nat. split; [|lia].
    destruct (p ++ b) eqn:E; simpl.
    + destruct p; [reflexivity | discriminate].
    + rewrite <- E, HasPrefix_app. reflexivity.
  - destruct (HasPrefix (c :: a ++ p ++ b) p).
    + exists 0%nat. split; [reflexivity | lia].
    + destruct IH as (i & -> & Hi). exists (S i). split; [reflexivity | lia].
Qed.

Lemma indexNat_ext s p q : indexNat s p = None -> indexNat s (p ++ q) = None.
Proof.
  induction s as [|c s IH]; simpl.
  - destruct (HasPrefix [] p) eqn:E; [discriminate|]. intros _.
    destruct (HasPrefix [] (p ++ q)) eqn:E'; [|reflexivity].
    apply HasPrefix_weaken in E'. congruence.
  - destruct (HasPrefix (c :: s) p) eqn:E; [discriminate|].
    destruct (indexNat s p) eqn:Ek; simpl; [discriminate|]. intros _.
    destruct (HasPrefix (c :: s) (p ++ q)) eqn:E'.
    + apply HasPrefix_weaken in E'. congruence.
    + now rewrite IH.
Qed.

Lemma Index_absent s p : Index s p = -1 <-> indexNat s p = None.
Proof.
  unfold Index. destruct (indexNat s p); split; intro H;
    try reflexivity; try discriminate; lia.
Qed.

Lemma Index_found s p i : indexNat s p = Some i -> Index s p = Z.of_nat i.
Proof. unfold Index. now intros ->. Qed.

Lemma Contains_false s p : Contains s p = false <-> indexNat s p = None.
Proof.
  unfold Contains, Index. destruct (indexNat s p); split; intro H;
    try reflexivity; try discriminate.
  apply Z.leb_gt in H. lia.
Qed.

Lemma Contains_true s p : Contains s p = true <-> exists i, indexNat s p = Some i.
Proof.
  unfold Contains, Index. destruct (indexNat s p) as [i|]; split; intro H.
  - now exists i.
  - apply Z.leb_le. lia.
  - discriminate.
  - now destruct H.
Qed.

End StringFacts.

(** ** extractJSON *)

Section ExtractJSON.
Import Strings Llm FenceSpec.


Lemma fenced_absent s opening :
  Contains s opening = false -> fenced s opening = None.
Proof. unfold fenced. now intros ->. Qed.




End ExtractJSON.

(** ** parseItem *)

Section ParseItem.
Import Strings Rss ItemSpec.

Lemma indexNat_byte_absent c s : ~ In c s -> indexNat s [c] = None.
Proof.
  induction s as [|d s IH]; intros Hn; simpl; [reflexivity|].
  destruct (Ascii.eqb_spec c d) as [->|Hcd].
  - exfalso. apply Hn. now left.
  - simpl. rewrite IH; [reflexivity|]. intros Hin. apply Hn. now right.
Qed.

Lemma indexNat_byte_first c before after :
  ~ In c before ->
  indexNat (before ++ c :: after) [c] = Some (List.length before).
Proof.
  induction before as [|d s IH]; intros Hn; simpl.
  - now rewrite Ascii.eqb_refl.
  - destruct (Ascii.eqb_spec c d) as [->|Hcd].
    + exfalso. apply Hn. now left.
    + simpl. rewrite IH; [reflexivity|]. intros Hin. apply Hn. now right.
Qed.

Lemma SplitN_colon_found before after :
  ~ In colon before ->
  SplitN (before ++ colon :: after) [colon] 2 = [before; after].
Proof.
  intros Hn. unfold SplitN. change (2 =? 0) with false. cbv iota.
  change (2 <? 0) with false. cbv iota zeta.
  assert (Hlen : (len (before ++ colon :: after) + 1 <? 2) = false).
  { apply Z.ltb_ge. unfold len. rewrite length_app. simpl. lia. }
  rewrite Hlen. change (Z.to_nat (2 - 1)) with 1%nat.
  unfold splitLoop. rewrite (indexNat_byte_first _ _ _ Hn).
  rewrite firstn_app, firstn_all, Nat.sub_diag. simpl firstn. rewrite app_nil_r.
  f_equal. f_equal. simpl List.length.
  rewrite skipn_app.
  rewrite skipn_all2 by lia.
  replace (List.length before + 1 - List.length before)%nat with 1%nat by lia.
  reflexivity.
Qed.

Lemma SplitN_colon_absent s :
  ~ In colon s -> SplitN s [colon] 2 = [s].
Proof.
  intros Hn. unfold SplitN. change (2 =? 0) with false. cbv iota.
  change (2 <? 0) with false. cbv iota zeta.
  destruct (len s + 1 <? 2) eqn:E.
  - apply Z.ltb_lt in E. unfold len in *.
    destruct s; simpl in *; [reflexivity | lia].
  - change (Z.to_nat (2 - 1)) with 1%nat. unfold splitLoop.
    now rewrite (indexNat_byte_absent _ _ Hn).
Qed.

End ParseItem.

(** ** Subsequences, suffixes and single bytes *)

Section ListFacts.
Import Strings ItemSpec.

Lemma subseq_refl s : subseq s s.
Proof. induction s; [constructor | now apply subseq_keep]. Qed.

Lemma subseq_nil_l s : subseq [] s.
Proof. induction s; constructor; assumption. Qed.

Lemma subseq_trans a b c : subseq a b -> subseq b c -> subseq a c.
Proof.
  intros Hab Hbc. revert a Hab.
  induction Hbc as [|x b c Hbc IH|x b c Hbc IH]; intros a Hab.
  - exact Hab.
  - constructor. now apply IH.
  - inversion Hab; subst.
    + apply subseq_skip. now apply IH.
    + apply subseq_keep. now apply IH.
Qed.

Lemma subseq_app a a' b b' : subseq a a' -> subseq b b' -> subseq (a ++ b) (a' ++ b').
Proof.
  intros Ha Hb. induction Ha; simpl;
    [assumption | now apply subseq_skip | now apply subseq_keep].
Qed.

Lemma subseq_app_r x s : subseq s (x ++ s).
Proof. induction x; simpl; [apply subseq_refl | now apply subseq_skip]. Qed.

Lemma subseq_app_l x s : subseq s (s ++ x).
Proof.
  rewrite <- (app_nil_r s) at 1. apply subseq_app; [apply subseq_refl | apply subseq_nil_l].
Qed.

Lemma subseq_length a b : subseq a b -> (List.length a <= List.length b)%nat.
Proof. induction 1; simpl; lia. Qed.

Lemma subseq_In c a b : subseq a b -> In c a -> In c b.
Proof.
  induction 1 as [|x a b H IH|x a b H IH]; simpl; intros Hin; auto.
  destruct Hin as [->|Hin]; auto.
Qed.

Lemma subseq_single c s : In c s <-> subseq [c] s.
Proof.
  split.
  - induction s as [|d s IH]; simpl; [tauto|]. intros [->|Hin].
    + apply subseq_keep. apply subseq_nil_l.
    + apply subseq_skip. now apply IH.
  - intros H. apply (subseq_In c _ _ H). now left.
Qed.

Lemma HasTag_subseq s : HasTag s <-> subseq [lt; gt] s.
Proof.
  split.
  - intros (a & b & c & ->).
    apply subseq_trans with (lt :: b ++ gt :: c); [|apply subseq_app_r].
    apply subseq_keep. apply subseq_trans with (gt :: c); [|apply subseq_app_r].
    apply subseq_keep. apply subseq_nil_l.
  - induction s as [|d s IH]; intros H; inversion H; subst.
    + destruct (IH H2) as (a & b & c & ->). now exists (d :: a), b, c.
    + apply subseq_single in H1. apply in_split in H1 as (b & c & ->).
      now exists [], b, c.
Qed.

Lemma HasTag_mono sub s : subseq sub s -> HasTag sub -> HasTag s.
Proof.
  intros Hs Ht. apply HasTag_subseq. apply HasTag_subseq in Ht.
  now apply subseq_trans with sub.
Qed.

Lemma HasSuffix_iff s e : HasSuffix s e = true <-> exists x, s = x ++ e.
Proof.
  unfold HasSuffix. split.
  - intros H. apply andb_true_iff in H as [Hl He].
    apply gostring_eqb_eq in He. exists (firstn (List.length s - List.length e) s).
    transitivity (firstn (List.length s - List.length e) s ++
                  skipn (List.length s - List.length e) s).
    + symmetry. apply firstn_skipn.
    + f_equal. exact He.
  - intros [x ->]. apply andb_true_iff. split.
    + apply Nat.leb_le. rewrite length_app. lia.
    + apply gostring_eqb_eq. rewrite length_app.
      replace (List.length x + List.length e - List.length e)%nat
        with (List.length x) by lia.
      now rewrite skipn_app, skipn_all, Nat.sub_diag.
Qed.

Lemma indexNat_byte_None c s : indexNat s [c] = None <-> ~ In c s.
Proof.
  split; [|apply indexNat_byte_absent].
  intros H Hin. apply in_split in Hin as (a & b & ->).
  now apply (indexNat_None_occ _ _ H a b).
Qed.

Lemma indexNat_byte_Some c s i :
  indexNat s [c] = Some i ->
  s = firstn i s ++ c :: skipn (S i) s /\ ~ In c (firstn i s).
Proof.
  revert i; induction s as [|d s IH]; intros i; simpl; [discriminate|].
  destruct (Ascii.eqb_spec c d) as [->|Hcd]; simpl.
  - intros [= <-]. simpl. split; [reflexivity | tauto].
  - destruct (indexNat s [c]) as [j|] eqn:Ej; simpl; [|discriminate].
    intros [= <-]. destruct (IH _ eq_refl) as [H1 H2]. simpl. split.
    + f_equal. exact H1.
    + intros [->|Hin]; [congruence | tauto].
Qed.

End ListFacts.

(** ** Replacing, and the two loops of cleanHTML *)

Section ReplaceFacts.
Import Strings Rss ItemSpec.

Lemma of_nat_not_m1 i : (Z.of_nat i =? -1) = false.
Proof. apply Z.eqb_neq. lia. Qed.

Lemma subseq_skipn n s : subseq (skipn n s) s.
Proof.
  rewrite <- (firstn_skipn n s) at 2. apply subseq_app_r.
Qed.

Lemma subseq_firstn n s : subseq (firstn n s) s.
Proof.
  rewrite <- (firstn_skipn n s) at 2. apply subseq_app_l.
Qed.

Lemma replaceLoop_absent fuel s old new :
  indexNat s old = None -> replaceLoop fuel s old new = s.
Proof.
  intros H. destruct fuel; cbn [replaceLoop]; [reflexivity | now rewrite H].
Qed.

Lemma ReplaceAll_absent s old new :
  indexNat s old = None -> ReplaceAll s old new = s.
Proof.
  intros H. unfold ReplaceAll. destruct (eqb old new); [reflexivity|].
  destruct old; [destruct s; discriminate|].
  now apply replaceLoop_absent.
Qed.

Lemma replaceLoop_subseq fuel s old new :
  subseq new old -> subseq (replaceLoop fuel s old new) s.
Proof.
  intros Hno. revert s. induction fuel as [|fuel IH]; intros s; simpl.
  - apply subseq_refl.
  - destruct (indexNat s old) as [j|] eqn:Ej; [|apply subseq_refl].
    pose proof (indexNat_split _ _ _ Ej) as Hs.
    remember (firstn j s) as a eqn:Ha.
    remember (skipn (j + List.length old) s) as r eqn:Hr.
    rewrite Hs. apply subseq_app; [apply subseq_refl|].
    apply subseq_app; [exact Hno | apply IH].
Qed.

Lemma ReplaceAll_subseq s old new :
  subseq new old -> subseq (ReplaceAll s old new) s.
Proof.
  intros H. unfold ReplaceAll.
  destruct (eqb old new) eqn:E; [apply subseq_refl|].
  destruct old as [|o old].
  - inversion H; subst. discriminate.
  - now apply replaceLoop_subseq.
Qed.

Lemma replaceLoop_shorter fuel s old new j :
  subseq new old -> (List.length new < List.length old)%nat ->
  indexNat s old = Some j ->
  (List.length (replaceLoop (S fuel) s old new) < List.length s)%nat.
Proof.
  intros Hno Hlt Ej. simpl. rewrite Ej.
  pose proof (indexNat_split _ _ _ Ej) as Hs.
  pose proof (subseq_length _ _
                (replaceLoop_subseq fuel (skipn (j + List.length old) s) old new Hno)) as Hl.
  apply (f_equal (@List.length ascii)) in Hs.
  rewrite !length_app in Hs. rewrite !length_app. lia.
Qed.

Lemma ReplaceAll_shorter s old new :
  subseq new old -> (List.length new < List.length old)%nat ->
  Contains s old = true ->
  (List.length (ReplaceAll s old new) < List.length s)%nat.
Proof.
  intros Hno Hlt Hc. apply Contains_true in Hc as [j Ej].
  unfold ReplaceAll.
  destruct (eqb old new) eqn:E; [apply gostring_eqb_eq in E; subst; lia|].
  destruct old as [|o old]; [simpl in Hlt; lia|].
  destruct s as [|c s]; [discriminate|].
  change (List.length (c :: s)) with (S (List.length s)) at 1.
  now apply replaceLoop_shorter with j.
Qed.

Lemma nn_subseq_nnn : subseq [nl; nl] [nl; nl; nl].
Proof. apply subseq_skip. apply subseq_refl. Qed.

Lemma collapse_subseq fuel s : subseq (collapseNewlines fuel s) s.
Proof.
  revert s; induction fuel as [|fuel IH]; intros s; cbn [collapseNewlines];
    [apply subseq_refl|].
  destruct (Contains s [nl; nl; nl]); [|apply subseq_refl].
  eapply subseq_trans; [apply IH|]. apply ReplaceAll_subseq. exact nn_subseq_nnn.
Qed.

Lemma collapse_fixed fuel s :
  Contains s [nl; nl; nl] = false -> collapseNewlines fuel s = s.
Proof.
  intros H. destruct fuel; cbn [collapseNewlines]; [reflexivity | now rewrite H].
Qed.

Lemma collapse_done fuel s :
  (List.length s <= fuel)%nat ->
  Contains (collapseNewlines fuel s) [nl; nl; nl] = false.
Proof.
  revert s; induction fuel as [|fuel IH]; intros s Hl; cbn [collapseNewlines].
  - destruct s; [reflexivity | simpl in Hl; lia].
  - destruct (Contains s [nl; nl; nl]) eqn:Ec; [|exact Ec].
    apply IH.
    pose proof (ReplaceAll_shorter s [nl; nl; nl] [nl; nl] nn_subseq_nnn
                  (Nat.lt_succ_diag_r 2) Ec).
    lia.
Qed.

End ReplaceFacts.

(** ** The tag-removal loop *)

Section StripFacts.
Import Strings Rss ItemSpec.

Lemma stripTags_unfold fuel s :
  stripTags (S fuel) s =
  match indexNat s [lt] with
  | None => s
  | Some i =>
      match indexNat (skipn i s) [gt] with
      | None => s
      | Some e => stripTags fuel (firstn i s ++ skipn (i + e + 1) s)
      end
  end.
Proof.
  cbn [stripTags]. change (lit "<") with [lt]. change (lit ">") with [gt].
  unfold Index. destruct (indexNat s [lt]) as [i|] eqn:Ei; [|reflexivity].
  rewrite of_nat_not_m1. unfold sliceTo, sliceFrom. rewrite !Nat2Z.id.
  destruct (indexNat (skipn i s) [gt]) as [e|] eqn:Ee; [|reflexivity].
  rewrite of_nat_not_m1.
  replace (Z.of_nat i + Z.of_nat e + 1) with (Z.of_nat (i + e + 1)) by lia.
  now rewrite !Nat2Z.id.
Qed.

Lemma stripTags_subseq fuel s : subseq (stripTags fuel s) s.
Proof.
  revert s; induction fuel as [|fuel IH]; intros s; [apply subseq_refl|].
  rewrite stripTags_unfold.
  destruct (indexNat s [lt]) as [i|]; [|apply subseq_refl].
  destruct (indexNat (skipn i s) [gt]) as [e|]; [|apply subseq_refl].
  eapply subseq_trans; [apply IH|].
  rewrite <- (firstn_skipn i s) at 3.
  apply subseq_app; [apply subseq_refl|].
  replace (i + e + 1)%nat with ((e + 1) + i)%nat by lia.
  rewrite <- skipn_skipn. apply subseq_skipn.
Qed.

(** No [>] behind the first [<]: no tag at all. *)
Lemma no_tag_after_first s i :
  indexNat s [lt] = Some i -> ~ In gt (skipn i s) -> ~ HasTag s.
Proof.
  intros Ei Hn (a & b & c & Hs).
  destruct (indexNat_byte_Some _ _ _ Ei) as [_ Hfirst].
  assert (Hia : (i <= List.length a)%nat).
  { destruct (Nat.le_gt_cases i (List.length a)) as [H|H]; [exact H|].
    exfalso. apply Hfirst. rewrite Hs.
    rewrite firstn_app. apply in_or_app. right.
    destruct (i - List.length a)%nat eqn:E; [lia|]. simpl. now left. }
  apply Hn. rewrite Hs, skipn_app.
  replace (i - List.length a)%nat with 0%nat by lia. simpl.
  apply in_or_app. right. right. apply in_or_app. right. now left.
Qed.

Lemma no_lt_no_tag s : ~ In lt s -> ~ HasTag s.
Proof.
  intros Hn (a & b & c & ->). apply Hn. apply in_or_app. right. now left.
Qed.

Lemma stripTags_noTag fuel s :
  (List.length s <= fuel)%nat -> ~ HasTag (stripTags fuel s).
Proof.
  revert s; induction fuel as [|fuel IH]; intros s Hl.
  - destruct s; [|simpl in Hl; lia]. simpl. apply no_lt_no_tag. tauto.
  - rewrite stripTags_unfold.
    destruct (indexNat s [lt]) as [i|] eqn:Ei.
    + destruct (indexNat (skipn i s) [gt]) as [e|] eqn:Ee.
      * apply IH.
        pose proof (indexNat_bound _ _ _ Ee) as Hb.
        rewrite length_skipn in Hb. simpl in Hb.
        rewrite length_app, length_firstn, length_skipn. lia.
      * apply (no_tag_after_first _ _ Ei). now apply indexNat_byte_None.
    + apply no_lt_no_tag. now apply indexNat_byte_None.
Qed.

Lemma stripTags_fixed fuel s : ~ HasTag s -> stripTags fuel s = s.
Proof.
  intros Hn. destruct fuel; [reflexivity|]. rewrite stripTags_unfold.
  destruct (indexNat s [lt]) as [i|] eqn:Ei; [|reflexivity].
  destruct (indexNat (skipn i s) [gt]) as [e|] eqn:Ee; [|reflexivity].
  exfalso. apply Hn.
  destruct (indexNat_byte_Some _ _ _ Ei) as [Hs _].
  assert (Hsk : skipn i s = lt :: skipn (S i) s).
  { apply (app_inv_head (firstn i s)). now rewrite firstn_skipn. }
  assert (Hin : In gt (skipn (S i) s)).
  { destruct (in_dec ascii_dec gt (skipn i s)) as [Hi|Hni].
    - rewrite Hsk in Hi. destruct Hi as [Hi|Hi]; [discriminate | exact Hi].
    - apply indexNat_byte_absent in Hni. congruence. }
  apply in_split in Hin as (b & c & Hbc).
  exists (firstn i s), b, c. rewrite <- Hbc. exact Hs.
Qed.

(** A string without a tag holds none of the patterns that
    [cleanHTML] replaces: each opens with [<] and closes with [>]. *)
Lemma noTag_pattern s mid :
  ~ HasTag s -> indexNat s (lt :: mid ++ [gt]) = None.
Proof.
  intros Hn. destruct (indexNat s (lt :: mid ++ [gt])) as [j|] eqn:Ej; [|reflexivity].
  exfalso. apply Hn. pose proof (indexNat_split _ _ _ Ej) as Hs.
  exists (firstn j s), mid, (skipn (j + List.length (lt :: mid ++ [gt])) s).
  rewrite Hs at 1. simpl. now rewrite <- app_assoc.
Qed.

End StripFacts.

(** ** Trimming white space *)

Section TrimFacts.
Import Strings Rss ItemSpec.

Lemma whiteSpace_nonempty e : In e whiteSpace -> e <> [].
Proof.
  assert (H : forallb (fun e => negb (Strings.eqb e [])) whiteSpace = true)
    by reflexivity.
  rewrite forallb_forall in H. intros Hin ->.
  specialize (H _ Hin). discriminate.
Qed.

Lemma whiteSpace_nl e : In e whiteSpace -> e = [nl] \/ ~ In nl e.
Proof.
  assert (H : forallb (fun e => Strings.eqb e [nl] || negb (existsb (Ascii.eqb nl) e))
                whiteSpace = true) by reflexivity.
  rewrite forallb_forall in H. intros Hin. specialize (H _ Hin).
  apply orb_true_iff in H as [H|H].
  - left. now apply gostring_eqb_eq.
  - right. intros Hnl. apply negb_true_iff in H.
    assert (existsb (Ascii.eqb nl) e = true); [|congruence].
    apply existsb_exists. exists nl. split; [exact Hnl | apply Ascii.eqb_refl].
Qed.

Lemma leadingSpace_Some s e :
  leadingSpace s = Some e -> In e whiteSpace /\ exists r, s = e ++ r.
Proof.
  unfold leadingSpace. intros H. apply find_some in H as [Hin Hp].
  split; [exact Hin | now apply HasPrefix_inv].
Qed.

Lemma leadingSpace_None s : leadingSpace s = None <-> ~ LeadingWhite s.
Proof.
  unfold leadingSpace. split.
  - intros H (e & r & Hin & ->).
    pose proof (find_none _ _ H e Hin) as Hf. simpl in Hf.
    now rewrite HasPrefix_app in Hf.
  - intros Hn. destruct (find (HasPrefix s) whiteSpace) as [e|] eqn:E; [|reflexivity].
    exfalso. apply Hn. apply find_some in E as [Hin Hp].
    apply HasPrefix_inv in Hp as [r ->]. now exists e, r.
Qed.

Lemma trailingSpace_Some s e :
  trailingSpace s = Some e -> In e whiteSpace /\ exists r, s = r ++ e.
Proof.
  unfold trailingSpace. intros H. apply find_some in H as [Hin Hp].
  split; [exact Hin | now apply HasSuffix_iff].
Qed.

Lemma trailingSpace_None s : trailingSpace s = None <-> ~ TrailingWhite s.
Proof.
  unfold trailingSpace. split.
  - intros H (e & r & Hin & ->).
    pose proof (find_none _ _ H e Hin) as Hf. simpl in Hf.
    assert (HasSuffix (r ++ e) e = true) by (apply HasSuffix_iff; now exists r).
    congruence.
  - intros Hn. destruct (find (HasSuffix s) whiteSpace) as [e|] eqn:E; [|reflexivity].
    exfalso. apply Hn. apply find_some in E as [Hin Hp].
    apply HasSuffix_iff in Hp as [r ->]. now exists e, r.
Qed.

Lemma trimLeftLoop_done fuel s :
  (List.length s <= fuel)%nat -> leadingSpace (trimLeftLoop fuel s) = None.
Proof.
  revert s; induction fuel as [|fuel IH]; intros s Hl; simpl.
  - destruct s; [reflexivity | simpl in Hl; lia].
  - destruct (leadingSpace s) as [e|] eqn:E; [|exact E].
    apply IH. apply leadingSpace_Some in E as [Hin [r ->]].
    apply whiteSpace_nonempty in Hin.
    rewrite length_skipn. rewrite length_app in *.
    destruct e; [congruence | simpl in *; lia].
Qed.

Lemma trimLeftLoop_suffix fuel s : exists x, s = x ++ trimLeftLoop fuel s.
Proof.
  revert s; induction fuel as [|fuel IH]; intros s; simpl; [now exists []|].
  destruct (leadingSpace s) as [e|] eqn:E; [|now exists []].
  destruct (IH (skipn (List.length e) s)) as [x Hx].
  exists (firstn (List.length e) s ++ x).
  rewrite <- app_assoc, <- Hx. symmetry. apply firstn_skipn.
Qed.

Lemma trimLeftLoop_fixed fuel s :
  leadingSpace s = None -> trimLeftLoop fuel s = s.
Proof. intros H. destruct fuel; simpl; [reflexivity | now rewrite H]. Qed.

Lemma trimRightLoop_done fuel s :
  (List.length s <= fuel)%nat -> trailingSpace (trimRightLoop fuel s) = None.
Proof.
  revert s; induction fuel as [|fuel IH]; intros s Hl; simpl.
  - destruct s; [reflexivity | simpl in Hl; lia].
  - destruct (trailingSpace s) as [e|] eqn:E; [|exact E].
    apply IH. apply trailingSpace_Some in E as [Hin [r ->]].
    apply whiteSpace_nonempty in Hin.
    rewrite length_firstn. rewrite length_app in *.
    destruct e; [congruence | simpl in *; lia].
Qed.

Lemma trimRightLoop_prefix fuel s : exists y, s = trimRightLoop fuel s ++ y.
Proof.
  revert s; induction fuel as [|fuel IH]; intros s; simpl.
  - exists []. now rewrite app_nil_r.
  - destruct (trailingSpace s) as [e|] eqn:E.
    + destruct (IH (firstn (List.length s - List.length e) s)) as [y Hy].
      exists (y ++ skipn (List.length s - List.length e) s).
      rewrite app_assoc, <- Hy. symmetry. apply firstn_skipn.
    + exists []. now rewrite app_nil_r.
Qed.

Lemma trimRightLoop_fixed fuel s :
  trailingSpace s = None -> trimRightLoop fuel s = s.
Proof. intros H. destruct fuel; simpl; [reflexivity | now rewrite H]. Qed.

Lemma TrimSpace_trimmed s :
  ~ LeadingWhite (TrimSpace s) /\ ~ TrailingWhite (TrimSpace s).
Proof.
  unfold TrimSpace. set (u := trimLeftLoop (List.length s) s). split.
  - destruct (trimRightLoop_prefix (List.length u) u) as [y Hy].
    intros (e & r & Hin & Hr).
    assert (Hu : leadingSpace u = None) by (apply trimLeftLoop_done; lia).
    apply leadingSpace_None in Hu. apply Hu. exists e, (r ++ y).
    split; [exact Hin|]. rewrite Hy at 1. rewrite Hr. now rewrite app_assoc.
  - apply trailingSpace_None. apply trimRightLoop_done. lia.
Qed.

Lemma TrimSpace_fixed s :
  ~ LeadingWhite s -> ~ TrailingWhite s -> TrimSpace s = s.
Proof.
  intros Hl Ht. unfold TrimSpace.
  rewrite trimLeftLoop_fixed by now apply leadingSpace_None.
  apply trimRightLoop_fixed. now apply trailingSpace_None.
Qed.

Lemma TrimSpace_subseq s : subseq (TrimSpace s) s.
Proof.
  unfold TrimSpace. set (u := trimLeftLoop (List.length s) s).
  destruct (trimRightLoop_prefix (List.length u) u) as [y Hy].
  destruct (trimLeftLoop_suffix (List.length s) s) as [x Hx]. fold u in Hx.
  remember (trimRightLoop (List.length u) u) as t eqn:Et. clear Et.
  clearbody u. apply subseq_trans with u.
  - rewrite Hy. apply subseq_app_l.
  - rewrite Hx. apply subseq_app_r.
Qed.

End TrimFacts.

(** ** parseItem: the year and the title, trimmed *)

Section ItemTrimmed.
Import Strings Rss ItemSpec.

Lemma White_app a b : White a -> White b -> White (a ++ b).
Proof.
  induction 1 as [|e r He Hr IH]; intros Hb; [exact Hb|].
  rewrite <- app_assoc. apply White_more; [exact He | now apply IH].
Qed.

Lemma White_one e : In e whiteSpace -> White e.
Proof.
  intros He. rewrite <- (app_nil_r e). apply White_more; [exact He | apply White_nil].
Qed.

(** What the loops take off is white space. *)
Lemma trimLeftLoop_white fuel s :
  exists x, s = x ++ trimLeftLoop fuel s /\ White x.
Proof.
  revert s; induction fuel as [|fuel IH]; intros s; cbn [trimLeftLoop].
  - exists []. split; [reflexivity | apply White_nil].
  - destruct (leadingSpace s) as [e|] eqn:E;
      [|exists []; split; [reflexivity | apply White_nil]].
    apply leadingSpace_Some in E as [Hin [r ->]].
    rewrite skipn_app, skipn_all, Nat.sub_diag. cbn [skipn app].
    destruct (IH r) as (x & Hx & Hw).
    exists (e ++ x). split.
    + rewrite <- app_assoc. now rewrite <- Hx.
    + now apply White_more.
Qed.

Lemma trimRightLoop_white fuel s :
  exists y, s = trimRightLoop fuel s ++ y /\ White y.
Proof.
  revert s; induction fuel as [|fuel IH]; intros s; cbn [trimRightLoop].
  - exists []. split; [now rewrite app_nil_r | apply White_nil].
  - destruct (trailingSpace s) as [e|] eqn:E;
      [|exists []; split; [now rewrite app_nil_r | apply White_nil]].
    apply trailingSpace_Some in E as [Hin [r ->]].
    replace (List.length (r ++ e) - List.length e)%nat with (List.length r)
      by (rewrite length_app; lia).
    rewrite firstn_app, firstn_all, Nat.sub_diag. cbn [firstn]. rewrite app_nil_r.
    destruct (IH r) as (y & Hy & Hw).
    exists (y ++ e). split.
    + rewrite app_assoc. now rewrite <- Hy.
    + apply White_app; [exact Hw | now apply White_one].
Qed.

(** [TrimSpace] trims. *)
Lemma TrimSpace_Trimmed s : Trimmed s (TrimSpace s).
Proof.
  destruct (TrimSpace_trimmed s) as [Hl Ht].
  unfold TrimSpace in *. set (u := trimLeftLoop (List.length s) s) in *.
  destruct (trimLeftLoop_white (List.length s) s) as (x & Hx & Hwx). fold u in Hx.
  destruct (trimRightLoop_white (List.length u) u) as (y & Hy & Hwy).
  exists x, y. repeat split; auto. rewrite <- Hy. exact Hx.
Qed.

(** C5.  A title with a colon is cut at its first colon: the year is
    the part before it and the title the part after it, each trimmed,
    that is, without the white space it starts and ends with.  A title
    without a colon is kept whole with an empty year.  The first
    category tag, when there is one, is the category.  The Apollo title
    of the specification maps to year 1969 and its bare title. *)
Theorem parseItem_year_title_category (item : Item) :
  (forall before after,
      Item_Title item = before ++ colon :: after -> ~ In colon before ->
      Trimmed before (Year (parseItem item)) /\
      Trimmed after (Title (parseItem item)) /\
      Year (parseItem item) = TrimSpace before /\
      Title (parseItem item) = TrimSpace after) /\
  (~ In colon (Item_Title item) ->
      Year (parseItem item) = [] /\ Title (parseItem item) = Item_Title item) /\
  (forall c cs, Item_Categories item = c :: cs -> Category (parseItem item) = c) /\
  (Item_Title item = lit "1969: Apollo 11 lands on the Moon" ->
      Year (parseItem item) = lit "1969" /\
      Title (parseItem item) = lit "Apollo 11 lands on the Moon").
Proof.
  split; [|split; [|split]].
  - intros before after Ht Hn.
    assert (H : Year (parseItem item) = TrimSpace before /\
                Title (parseItem item) = TrimSpace after).
    { unfold parseItem.
      change (lit ":") with [colon]. rewrite Ht, (SplitN_colon_found _ _ Hn).
      destruct (Item_Categories item); simpl; split; reflexivity. }
    destruct H as [Hy Htt]. rewrite Hy, Htt.
    split; [apply TrimSpace_Trimmed | split; [apply TrimSpace_Trimmed | split; reflexivity]].
  - intros Hn. unfold parseItem. change (lit ":") with [colon].
    rewrite (SplitN_colon_absent _ Hn).
    destruct (Item_Categories item); simpl; split; reflexivity.
  - intros c cs Hc. unfold parseItem. rewrite Hc. reflexivity.
  - intros Ht. unfold parseItem. rewrite Ht.
    destruct (Item_Categories item); split; vm_compute; reflexivity.
Qed.

(** Witness: the first item of the parser's test table, and an item
    whose title has white space around its colon and at its end. *)
Lemma parseItem_year_title_category_witness :
  let item := {| Item_Title := lit "1969: Apollo 11 lands on the Moon";
                 Item_Link := lit "https://example.com/event/1";
                 Item_Description := lit "<p>The first human landing on the Moon</p>";
                 Item_PubDate := [];
                 Item_Categories := [lit "Science"; lit "Space"];
                 Item_GUID := [] |} in
  let spaced := {| Item_Title := lit "1969 : Apollo 11 ";
                   Item_Link := []; Item_Description := []; Item_PubDate := [];
                   Item_Categories := []; Item_GUID := [] |} in
  Year (parseItem item) = lit "1969" /\
  Title (parseItem item) = lit "Apollo 11 lands on the Moon" /\
  Category (parseItem item) = lit "Science" /\
  Trimmed (lit "1969 ") (Year (parseItem spaced)) /\
  Trimmed (lit " Apollo 11 ") (Title (parseItem spaced)) /\
  Year (parseItem spaced) = lit "1969" /\
  Title (parseItem spaced) = lit "Apollo 11".
Proof.
  intros item spaced.
  destruct (parseItem_year_title_category item) as (_ & _ & Hc & Ha).
  destruct (Ha eq_refl) as [Hy Ht].
  split; [exact Hy | split; [exact Ht | split]].
  - apply (Hc (lit "Science") [lit "Space"]). reflexivity.
  - destruct (parseItem_year_title_category spaced) as (Hs & _).
    destruct (Hs (lit "1969 ") (lit " Apollo 11 ") eq_refl) as (T1 & T2 & _ & _).
    + intros Hin. vm_compute in Hin. intuition discriminate.
    + split; [exact T1 | split; [exact T2 | split; vm_compute; reflexivity]].
Defined.

End ItemTrimmed.

(** ** cleanHTML *)

Section CleanHTML.
Import Strings Rss ItemSpec.
Lemma prefix_before_byte (c : ascii) e x a y :
  e ++ x = a ++ c :: y -> ~ In c e -> exists z, a = e ++ z.
Proof.
  revert a; induction e as [|d e IH]; intros a H Hn; [now exists a|].
  destruct a as [|d' a]; simpl in H.
  - injection H as -> _. exfalso. apply Hn. now left.
  - injection H as -> H. destruct (IH a H) as [z ->].
    + intros Hin. apply Hn. now right.
    + now exists z.
Qed.

Lemma suffix_after_byte (c : ascii) e x p q :
  x ++ e = p ++ c :: q -> ~ In c e -> exists z, q = z ++ e.
Proof.
  intros H Hn. apply (f_equal (@rev ascii)) in H.
  rewrite !rev_app_distr in H. simpl in H. rewrite <- app_assoc in H. simpl in H.
  apply prefix_before_byte in H as [z Hz].
  - exists (rev z). apply (f_equal (@rev ascii)) in Hz.
    now rewrite rev_involutive, rev_app_distr, rev_involutive in Hz.
  - intros Hin. apply Hn. now apply in_rev.
Qed.

Lemma replaceLoop_nil fuel s old new :
  new <> [] -> replaceLoop fuel s old new = [] -> s = [].
Proof.
  intros Hne. destruct fuel; simpl; [tauto|].
  destruct (indexNat s old) as [j|]; [|tauto].
  intros H. apply app_eq_nil in H as [_ H]. apply app_eq_nil in H as [H _].
  congruence.
Qed.

Lemma replaceLoop_leading fuel s :
  LeadingWhite (replaceLoop fuel s [nl; nl; nl] [nl; nl]) -> LeadingWhite s.
Proof.
  destruct fuel; cbn [replaceLoop]; [tauto|].
  destruct (indexNat s [nl; nl; nl]) as [j|] eqn:Ej; [|tauto].
  pose proof (indexNat_split _ _ _ Ej) as Hs.
  remember (firstn j s) as a eqn:Ha. clear Ha.
  remember (skipn (j + List.length [nl; nl; nl]) s) as r eqn:Hr. clear Hr.
  intros (e & x & Hin & Hx). subst s.
  destruct (whiteSpace_nl e Hin) as [->|Hnl].
  - exists [nl]. destruct a as [|c a]; simpl in Hx |- *.
    + eexists. split; [exact Hin | reflexivity].
    + injection Hx as -> _. eexists. split; [exact Hin | reflexivity].
  - simpl in Hx. symmetry in Hx.
    apply prefix_before_byte in Hx as [z ->]; [|exact Hnl].
    exists e. eexists. split; [exact Hin|]. now rewrite <- app_assoc.
Qed.

Lemma replaceLoop_trailing fuel s :
  TrailingWhite (replaceLoop fuel s [nl; nl; nl] [nl; nl]) -> TrailingWhite s.
Proof.
  revert s; induction fuel as [|fuel IH]; intros s; cbn [replaceLoop]; [tauto|].
  destruct (indexNat s [nl; nl; nl]) as [j|] eqn:Ej; [|tauto].
  pose proof (indexNat_split _ _ _ Ej) as Hs.
  remember (firstn j s) as a eqn:Ha. clear Ha.
  remember (skipn (j + List.length [nl; nl; nl]) s) as r eqn:Hr. clear Hr.
  specialize (IH r).
  intros (e & x & Hin & Hx).
  assert (Hr' : r = [] \/ TrailingWhite (replaceLoop fuel r [nl; nl; nl] [nl; nl])).
  { destruct (replaceLoop fuel r [nl; nl; nl] [nl; nl]) as [|c0 r0] eqn:Er.
    - left. apply (replaceLoop_nil fuel r [nl; nl; nl] [nl; nl]);
        [discriminate | exact Er].
    - right. destruct (whiteSpace_nl e Hin) as [->|Hnl].
      + destruct (@exists_last _ (c0 :: r0)) as (y & c & Hy); [discriminate|].
        rewrite Hy in Hx |- *. exists [nl], y. split; [exact Hin|].
        rewrite !app_assoc in Hx. apply app_inj_tail in Hx as [_ ->].
        reflexivity.
      + symmetry in Hx.
        replace (a ++ [nl; nl] ++ c0 :: r0) with ((a ++ [nl]) ++ nl :: c0 :: r0) in Hx
          by (now rewrite <- app_assoc).
        apply suffix_after_byte in Hx as [z Hz]; [|exact Hnl].
        now exists e, z. }
  destruct Hr' as [->|Ht].
  - exists [nl], (a ++ [nl; nl]). split.
    + simpl. auto.
    + rewrite Hs. rewrite <- app_assoc. reflexivity.
  - destruct (IH Ht) as (e' & z & Hin' & Hz).
    exists e', (a ++ [nl; nl; nl] ++ z). split; [exact Hin'|].
    rewrite Hs, Hz. now rewrite <- !app_assoc.
Qed.

Lemma collapse_leading fuel s :
  LeadingWhite (collapseNewlines fuel s) -> LeadingWhite s.
Proof.
  revert s; induction fuel as [|fuel IH]; intros s; cbn [collapseNewlines]; [tauto|].
  destruct (Contains s [nl; nl; nl]); [|tauto].
  intros H. apply IH in H.
  change (ReplaceAll s [nl; nl; nl] [nl; nl])
    with (replaceLoop (List.length s) s [nl; nl; nl] [nl; nl]) in H.
  now apply replaceLoop_leading in H.
Qed.

Lemma collapse_trailing fuel s :
  TrailingWhite (collapseNewlines fuel s) -> TrailingWhite s.
Proof.
  revert s; induction fuel as [|fuel IH]; intros s; cbn [collapseNewlines]; [tauto|].
  destruct (Contains s [nl; nl; nl]); [|tauto].
  intros H. apply IH in H.
  change (ReplaceAll s [nl; nl; nl] [nl; nl])
    with (replaceLoop (List.length s) s [nl; nl; nl] [nl; nl]) in H.
  now apply replaceLoop_trailing in H.
Qed.

Lemma NewlineRun_Contains s :
  NewlineRun s <-> Contains s [nl; nl; nl] = true.
Proof.
  split.
  - intros (a & b & ->). apply Contains_true.
    destruct (indexNat_occ a [nl; nl; nl] b) as (i & Hi & _). now exists i.
  - intros H. apply Contains_true in H as [i Hi].
    apply indexNat_split in Hi. unfold NewlineRun.
    exists (firstn i s), (skipn (i + List.length [nl; nl; nl]) s). exact Hi.
Qed.

(** A string that is already clean is left alone by every stage. *)
Lemma cleanHTML_fixed t :
  ~ HasTag t -> ~ NewlineRun t -> ~ LeadingWhite t -> ~ TrailingWhite t ->
  cleanHTML t = t.
Proof.
  intros Htag Hrun Hl Ht. unfold cleanHTML.
  change (lit "<br>") with (lt :: lit "br" ++ [gt]).
  change (lit "<br/>") with (lt :: lit "br/" ++ [gt]).
  change (lit "<br />") with (lt :: lit "br /" ++ [gt]).
  change (lit "<p>") with (lt :: lit "p" ++ [gt]).
  change (lit "</p>") with (lt :: lit "/p" ++ [gt]).
  rewrite !(ReplaceAll_absent t) by now apply noTag_pattern.
  rewrite stripTags_fixed by assumption.
  rewrite TrimSpace_fixed by assumption.
  apply collapse_fixed.
  destruct (Contains t [nl; nl; nl]) eqn:E; [|reflexivity].
  exfalso. apply Hrun. now apply NewlineRun_Contains.
Qed.

(** What every stage leaves behind, taken together. *)
Lemma cleanHTML_clean (s : gostring) :
  ~ HasTag (cleanHTML s) /\ ~ NewlineRun (cleanHTML s) /\
  ~ LeadingWhite (cleanHTML s) /\ ~ TrailingWhite (cleanHTML s).
Proof.
  unfold cleanHTML.
  set (v := ReplaceAll _ (lit "</p>") [nl]).
  set (u := stripTags (List.length v) v).
  set (w := TrimSpace u).
  split; [|split; [|split]].
  - intros H. apply (stripTags_noTag (List.length v) v (le_n _)). fold u.
    apply (HasTag_mono w); [apply TrimSpace_subseq|].
    apply (HasTag_mono _ _ (collapse_subseq (List.length w) w) H).
  - intros H. apply NewlineRun_Contains in H.
    rewrite collapse_done in H by lia. discriminate.
  - intros H. apply collapse_leading in H.
    now apply (proj1 (TrimSpace_trimmed u)).
  - intros H. apply collapse_trailing in H.
    now apply (proj2 (TrimSpace_trimmed u)).
Qed.

(** C10.  Whatever the input, the cleaned string holds no [<] with a
    [>] anywhere behind it, no run of three newlines, and neither
    starts nor ends with a white-space character. *)
Theorem cleanHTML_output_clean (s : gostring) :
  ~ HasTag (cleanHTML s) /\ ~ NewlineRun (cleanHTML s) /\
  ~ LeadingWhite (cleanHTML s) /\ ~ TrailingWhite (cleanHTML s).
Proof. exact (cleanHTML_clean s). Qed.

(** C4.  Cleaning is idempotent: a cleaned string is a fixed point. *)
Theorem cleanHTML_idempotent (s : gostring) :
  cleanHTML (cleanHTML s) = cleanHTML s.
Proof.
  destruct (cleanHTML_clean s) as (H1 & H2 & H3 & H4).
  now apply cleanHTML_fixed.
Qed.

End CleanHTML.

(** ** FetchMultipleFeeds *)

Section Feeds.
Import Strings Rss FeedSpec.

Variable Net : Type.
Variable newRequest : gostring -> result unit.
Variable clientDo : gostring -> Net -> result Response * Net.
Variable gzipNewReader : result gostring -> result (result gostring).
Variable xmlUnmarshal : gostring -> result Feed.

Let fetch := FetchAndParse Net newRequest clientDo gzipNewReader xmlUnmarshal.
Let loop := fetchLoop Net newRequest clientDo gzipNewReader xmlUnmarshal.
Let fetchAll := FetchMultipleFeeds Net newRequest clientDo gzipNewReader xmlUnmarshal.

Lemma fetchLoop_outcomes urls acc net stdout :
  fst (fst (loop urls acc net stdout)) = acc ++ obtained (feedOutcomes Net fetch urls net) /\
  snd (loop urls acc net stdout) = stdout ++ warnings (feedOutcomes Net fetch urls net).
Proof.
  revert acc net stdout. induction urls as [|url rest IH]; intros acc net stdout.
  - simpl. now rewrite !app_nil_r.
  - unfold loop. cbn [fetchLoop feedOutcomes]. fold loop. fold fetch.
    destruct (fetch url net) as [[evs|e] net'] eqn:E.
    + destruct (IH (acc ++ evs) net' stdout) as [H1 H2].
      rewrite H1, H2. unfold obtained, warnings. simpl.
      now rewrite app_assoc.
    + destruct (IH acc net' (stdout ++ [feedWarning url e])) as [H1 H2].
      rewrite H1, H2. unfold obtained, warnings. simpl.
      now rewrite <- app_assoc.
Qed.

(** C8.  A feed that fails is skipped with a warning on standard output
    and nothing else; the call fails exactly when no event was obtained
    from any feed, and otherwise returns the events of the fetched feeds
    concatenated in feed order. *)
Theorem FetchMultipleFeeds_aggregate (urls : list gostring) (net : Net)
    (stdout : list gostring) :
  let outs := feedOutcomes Net fetch urls net in
  let res := fst (fst (fetchAll urls net stdout)) in
  res = (match obtained outs with
         | [] => Err (lit "no events fetched from any feed")
         | _ :: _ => Ok (obtained outs)
         end) /\
  (isErr res = true <-> obtained outs = []) /\
  snd (fetchAll urls net stdout) = stdout ++ warnings outs.
Proof.
  intros outs res. subst res. unfold fetchAll, FetchMultipleFeeds. fold loop.
  destruct (fetchLoop_outcomes urls [] net stdout) as [H1 H2].
  destruct (loop urls [] net stdout) as [[all net'] stdout'] eqn:E.
  simpl in H1, H2. subst all stdout'. fold outs.
  destruct (obtained outs) as [|ev evs] eqn:Eo.
  - change (len [] =? 0) with true. cbv iota. simpl.
    split; [reflexivity | split; [tauto | reflexivity]].
  - assert (Hl : (len (ev :: evs) =? 0) = false).
    { apply Z.eqb_neq. unfold len. simpl. lia. }
    rewrite Hl. simpl. split; [reflexivity | split; [|reflexivity]].
    split; discriminate.
Qed.

End Feeds.

(** ** PostEventsWithHolidays *)

Section Poster.
Import Strings Slack.

Variable Net : Type.
Variable today : Net -> gostring.
Variable jsonMarshal : SlackMessage -> result gostring.
Variable newRequest : gostring -> result unit.
Variable clientDo : gostring -> gostring -> Net -> result Rss.Response * Net.

(** C7.  With no event and no holiday the poster returns its error at
    once: the clock is not read, no message is serialised, no request is
    sent (the trace of effects is as it was), and the network is left in
    the state it was in.  Whatever the encoder and the webhook would
    answer plays no part. *)
Theorem PostEventsWithHolidays_nothing_to_post (webhookURL : gostring) (net : Net)
    (trace : list Effect) :
  PostEventsWithHolidays Net today jsonMarshal newRequest clientDo
    webhookURL [] [] net trace
  = (Err (lit "no events or holidays to post"), net, trace).
Proof. reflexivity. Qed.

End Poster.

(** ** filterFunHolidays *)

Section Holidays.
Import Strings Bot HolidaySpec.

Variable unicodeLower : gostring -> gostring.

Lemma filterLoop_filter hs acc :
  filterLoop unicodeLower hs acc =
  acc ++ filter (fun h => isFun unicodeLower (Rss.Holiday_Title h) seriousKeywords) hs.
Proof.
  revert acc; induction hs as [|h hs IH]; intros acc; cbn [filterLoop filter].
  - now rewrite app_nil_r.
  - destruct (isFun unicodeLower (Rss.Holiday_Title h) seriousKeywords).
    + rewrite IH. now rewrite <- app_assoc.
    + apply IH.
Qed.

Lemma isFun_existsb title kws :
  isFun unicodeLower title kws = negb (existsb (contains unicodeLower title) kws).
Proof.
  induction kws as [|k kws IH]; simpl; [reflexivity|].
  destruct (contains unicodeLower title k); simpl; [reflexivity | exact IH].
Qed.

Lemma ToLower_ascii s : isASCII s = true -> ToLower unicodeLower s = map lowerByte s.
Proof. unfold ToLower. now intros ->. Qed.

Lemma isASCII_app a b : isASCII (a ++ b) = isASCII a && isASCII b.
Proof. apply forallb_app. Qed.




Lemma skipn_nth_error {A : Type} (l : list A) i x :
  nth_error l i = Some x -> skipn i l = x :: skipn (S i) l.
Proof.
  revert i; induction l as [|y l IH]; intros [|i]; simpl; try discriminate.
  - now intros [= ->].
  - intros H. now apply IH.
Qed.

Lemma titlesLoop_firstn count i (hs : list Rss.Holiday) acc :
  (i + count <= List.length hs)%nat ->
  titlesLoop count i hs acc = acc ++ map Rss.Holiday_Title (firstn count (skipn i hs)).
Proof.
  revert i acc; induction count as [|count IH]; intros i acc Hl; simpl titlesLoop.
  - simpl. now rewrite app_nil_r.
  - destruct (nth_error hs i) as [h|] eqn:Eh.
    + rewrite IH by lia. rewrite (skipn_nth_error _ _ _ Eh). simpl.
      now rewrite <- app_assoc.
    + apply nth_error_None in Eh. lia.
Qed.

Lemma selectHolidays_firstn maxHolidays (hs : list Rss.Holiday) :
  selectHolidays maxHolidays hs =
  map Rss.Holiday_Title (firstn (Z.to_nat (Z.min maxHolidays (len hs))) hs).
Proof.
  unfold selectHolidays. cbv zeta.
  assert (E : (if len hs <? maxHolidays then len hs else maxHolidays)
              = Z.min maxHolidays (len hs)).
  { destruct (len hs <? maxHolidays) eqn:E; [apply Z.ltb_lt in E | apply Z.ltb_ge in E]; lia. }
  rewrite E. rewrite titlesLoop_firstn; [reflexivity|].
  unfold len. lia.
Qed.


End Holidays.


(** ** The scanner on the format of ParseCron *)

Section ScanSteps.
Import Utf8 Fmt CronSpec Scheduler.

Lemma advance_verb fuel c format i input :
  (c =? 37) = false ->
  advance (S fuel) (37 :: c :: format) i input = Ok (Some i, input).
Proof.
  intros Hc. cbn [advance]. change (isSpace 37) with false. cbv iota.
  change (37 =? 37) with true. cbv iota. rewrite Hc. reflexivity.
Qed.

Lemma doScanf_verb fuel c format input a stored :
  (c =? 37) = false -> isDigit c = false -> (c =? 99) = false ->
  doScanf (S fuel) (37 :: c :: format) input a stored =
  match SkipSpace input with
  | Err e => (stored, Some e)
  | Ok input =>
      match a with
      | [] => (stored, Some (lit "too few operands for format"))
      | arg :: a' =>
          match scanOne c arg input with
          | Err e => (stored, Some e)
          | Ok (v, input) => doScanf fuel format input a' (stored ++ [v])
          end
      end
  end.
Proof.
  intros H37 Hd H99. cbn [doScanf].
  change (List.length (37 :: c :: format)) with (S (S (List.length format))).
  rewrite advance_verb by exact H37.
  change (37 =? 37) with true. cbn [negb skipn].
  rewrite Hd, H99, H37. reflexivity.
Qed.

Lemma doScanf_space fuel c format input a stored :
  (c =? 37) = false ->
  doScanf (S fuel) (32 :: 37 :: c :: format) input a stored =
  match matchSpaces 0 input with
  | Err e => (stored, Some e)
  | Ok input => doScanf fuel (37 :: c :: format) input a stored
  end.
Proof.
  intros H37. cbn [doScanf].
  change (List.length (32 :: 37 :: c :: format)) with (S (S (S (List.length format)))).
  cbn [advance]. change (isSpace 32) with true. cbv iota.
  cbn [spaceRun]. change (isSpace 32) with true. change (32 =? newline) with false.
  change (isSpace 37) with false. cbv iota. cbn [matchNewlines].
  destruct (matchSpaces 0 input) as [input'|e]; [|reflexivity].
  change (isSpace 37) with false. cbv iota. change (37 =? 37) with true.
  cbv iota. rewrite H37. reflexivity.
Qed.

Lemma Sscanf_cron (s : gostring) :
  Sscanf s (lit "%d %d %s %s %s") [IntPtr; IntPtr; StringPtr; StringPtr; StringPtr]
  = cronSteps (runes s).
Proof.
  unfold Sscanf. generalize (runes s) as input. intros input.
  replace (runes (lit "%d %d %s %s %s"))
    with [37; 100; 32; 37; 100; 32; 37; 115; 32; 37; 115; 32; 37; 115]
    by (vm_compute; reflexivity).
  change (List.length [37; 100; 32; 37; 100; 32; 37; 115; 32; 37; 115; 32; 37; 115])
    with 14%nat.
  unfold cronSteps, intStep, spaceStep, wordStep.
  rewrite doScanf_verb by reflexivity.
  destruct (SkipSpace input) as [i1|e]; [|reflexivity].
  unfold scanOne at 1. change (100 =? 100) with true. cbv iota.
  destruct (scanInt i1) as [[v1 i2]|e]; [|reflexivity].
  rewrite doScanf_space by reflexivity.
  destruct (matchSpaces 0 i2) as [i3|e]; [|reflexivity].
  rewrite doScanf_verb by reflexivity.
  destruct (SkipSpace i3) as [i4|e]; [|reflexivity].
  unfold scanOne at 1. change (100 =? 100) with true. cbv iota.
  destruct (scanInt i4) as [[v2 i5]|e]; [|reflexivity].
  rewrite doScanf_space by reflexivity.
  destruct (matchSpaces 0 i5) as [i6|e]; [|reflexivity].
  rewrite doScanf_verb by reflexivity.
  destruct (SkipSpace i6) as [i7|e]; [|reflexivity].
  unfold scanOne at 1. change (115 =? 115) with true. cbv iota.
  destruct (convertString i7) as [[s3 i8]|e]; [|reflexivity].
  rewrite doScanf_space by reflexivity.
  destruct (matchSpaces 0 i8) as [i9|e]; [|reflexivity].
  rewrite doScanf_verb by reflexivity.
  destruct (SkipSpace i9) as [i10|e]; [|reflexivity].
  unfold scanOne at 1. change (115 =? 115) with true. cbv iota.
  destruct (convertString i10) as [[s4 i11]|e]; [|reflexivity].
  rewrite doScanf_space by reflexivity.
  destruct (matchSpaces 0 i11) as [i12|e]; [|reflexivity].
  rewrite doScanf_verb by reflexivity.
  destruct (SkipSpace i12) as [i13|e]; [|reflexivity].
  unfold scanOne at 1. change (115 =? 115) with true. cbv iota.
  destruct (convertString i13) as [[s5 i14]|e]; reflexivity.
Qed.

End ScanSteps.

(** ** The primitives of the scanner *)

Section ScanPrimitives.
Import Utf8 Fmt CronSpec.

Lemma digit_not_space r : isDigit r = true -> isSpace r = false.
Proof.
  unfold isDigit. intros H. apply andb_true_iff in H as [H1 H2].
  apply Z.leb_le in H1, H2. unfold isSpace.
  rewrite Z.mod_small by lia.
  cmp_cases_pruned; simpl; try reflexivity; try lia.
Qed.

Lemma sign_not_space r : isSign r = true -> isSpace r = false.
Proof.
  unfold isSign. intros H. apply orb_true_iff in H as [H|H];
    apply Z.eqb_eq in H; subst r; reflexivity.
Qed.

Lemma sign_not_digit r : isSign r = true -> isDigit r = false.
Proof.
  unfold isSign. intros H. apply orb_true_iff in H as [H|H];
    apply Z.eqb_eq in H; subst r; reflexivity.
Qed.

Lemma blank_space r : blank r = true -> isSpace r = true /\ (r =? newline) = false.
Proof.
  unfold blank. intros H. apply andb_true_iff in H as [H1 H2].
  now apply negb_true_iff in H2.
Qed.

Lemma space_not_digit r : isSpace r = true -> isDigit r = false.
Proof.
  intros H. destruct (isDigit r) eqn:E; [|reflexivity].
  apply digit_not_space in E. congruence.
Qed.

Lemma not_space_not_blank r : isSpace r = false -> blank r = false.
Proof. unfold blank. now intros ->. Qed.

Lemma SkipSpace_stop input : NotSpaceHead input -> SkipSpace input = Ok input.
Proof.
  destruct input as [|r rest]; [reflexivity|]. simpl. intros H.
  assert (H13 : (r =? 13) = false).
  { destruct (Z.eqb_spec r 13) as [->|]; [discriminate | reflexivity]. }
  assert (Hnl : (r =? newline) = false).
  { destruct (Z.eqb_spec r newline) as [->|]; [discriminate | reflexivity]. }
  now rewrite H13, Hnl, H.
Qed.

Lemma SkipSpace_blanks ws rest :
  blanks ws -> NotSpaceHead rest -> SkipSpace (ws ++ rest) = Ok rest.
Proof.
  unfold blanks. induction ws as [|r ws IH]; intros Hb Hr.
  - now apply SkipSpace_stop.
  - simpl in Hb. apply andb_true_iff in Hb as [Hr1 Hb].
    apply blank_space in Hr1 as [Hs Hn].
    change ((r :: ws) ++ rest) with (r :: (ws ++ rest)). cbn [SkipSpace].
    assert (Hnext : match ws ++ rest with n :: _ => n =? newline | [] => false end = false).
    { destruct ws as [|r' ws'].
      - destruct rest as [|n rest']; [reflexivity|]. simpl in *.
        destruct (Z.eqb_spec n newline) as [->|]; [discriminate | reflexivity].
      - simpl in *. apply andb_true_iff in Hb as [Hb _].
        now apply blank_space in Hb as [_ Hb]. }
    rewrite Hnext, andb_false_r, Hn, Hs. now apply IH.
Qed.

Lemma SkipSpace_inv input out :
  SkipSpace input = Ok out ->
  exists ws, input = ws ++ out /\ blanks ws /\ NotSpaceHead out.
Proof.
  revert out. induction input as [|r rest IH]; intros out.
  - simpl. intros [= <-]. now exists [].
  - cbn [SkipSpace].
    destruct ((r =? 13) && match rest with n :: _ => n =? newline | [] => false end) eqn:E13.
    + intros H. destruct (IH _ H) as (ws & -> & Hb & Hh).
      apply andb_true_iff in E13 as [E13 _]. apply Z.eqb_eq in E13. subst r.
      exists (13 :: ws). split; [reflexivity | split; [|exact Hh]].
      unfold blanks in *. simpl. exact Hb.
    + destruct (r =? newline) eqn:En; [discriminate|].
      destruct (isSpace r) eqn:Es.
      * intros H. destruct (IH _ H) as (ws & -> & Hb & Hh).
        exists (r :: ws). split; [reflexivity | split; [|exact Hh]].
        unfold blanks in *. simpl. unfold blank at 1. now rewrite Es, En.
      * intros [= <-]. exists []. split; [reflexivity | split; [reflexivity|]].
        exact Es.
Qed.

Lemma span_app ok tok rest :
  forallb ok tok = true ->
  match rest with [] => True | r :: _ => ok r = false end ->
  span ok (tok ++ rest) = (tok, rest).
Proof.
  induction tok as [|r tok IH]; intros Ht Hr; simpl.
  - destruct rest as [|r rest]; [reflexivity|]. simpl. now rewrite Hr.
  - simpl in Ht. apply andb_true_iff in Ht as [H1 H2].
    rewrite H1, IH by assumption. reflexivity.
Qed.

Lemma span_inv ok input tok rest :
  span ok input = (tok, rest) ->
  input = tok ++ rest /\ forallb ok tok = true /\
  match rest with [] => True | r :: _ => ok r = false end.
Proof.
  revert tok rest. induction input as [|r input IH]; intros tok rest; simpl.
  - intros [= <- <-]. auto.
  - destruct (ok r) eqn:E.
    + destruct (span ok input) as [tok' rest'] eqn:Es.
      intros [= <- <-]. destruct (IH _ _ eq_refl) as (-> & H1 & H2).
      simpl. rewrite E. auto.
    + intros [= <- <-]. simpl. auto.
Qed.

Lemma skipBlanks_app ws rest :
  blanks ws -> NotBlankHead rest -> skipBlanks (ws ++ rest) = rest.
Proof.
  unfold blanks. induction ws as [|r ws IH]; intros Hb Hr; simpl.
  - destruct rest as [|r rest]; [reflexivity|]. simpl in *.
    unfold blank in Hr. now rewrite Hr.
  - simpl in Hb. apply andb_true_iff in Hb as [H1 H2].
    unfold blank in H1. rewrite H1. now apply IH.
Qed.

Lemma skipBlanks_inv input :
  exists ws, input = ws ++ skipBlanks input /\ blanks ws /\
             NotBlankHead (skipBlanks input).
Proof.
  induction input as [|r input IH]; simpl.
  - now exists [].
  - destruct (isSpace r && negb (r =? newline)) eqn:E.
    + destruct IH as (ws & Hi & Hb & Hh). exists (r :: ws).
      split; [simpl; now rewrite <- Hi | split; [|exact Hh]].
      unfold blanks in *. simpl. unfold blank at 1. now rewrite E.
    + exists []. split; [reflexivity | split; [reflexivity | exact E]].
Qed.

Lemma matchSpaces_blanks ws rest :
  ws <> [] -> blanks ws -> NotBlankHead rest ->
  matchSpaces 0 (ws ++ rest) = Ok rest.
Proof.
  intros Hne Hb Hr. destruct ws as [|r ws]; [congruence|].
  unfold matchSpaces. change ((r :: ws) ++ rest) with (r :: (ws ++ rest)).
  cbv iota. change (0 =? 0)%nat with true. cbv iota.
  pose proof Hb as Hb'. unfold blanks in Hb'. simpl in Hb'.
  apply andb_true_iff in Hb' as [H1 _]. apply blank_space in H1 as [Hs Hn].
  rewrite Hs, Hn. simpl negb. cbv iota.
  f_equal. change (r :: ws ++ rest) with ((r :: ws) ++ rest).
  now apply skipBlanks_app.
Qed.

Lemma matchSpaces_inv input out :
  matchSpaces 0 input = Ok out ->
  (input = [] /\ out = []) \/
  (exists ws, ws <> [] /\ blanks ws /\ input = ws ++ out /\ NotBlankHead out).
Proof.
  unfold matchSpaces. destruct input as [|r rest].
  - intros [= <-]. now left.
  - change (0 =? 0)%nat with true. cbv iota.
    destruct (isSpace r) eqn:Es; [|discriminate]. simpl negb. cbv iota.
    destruct (r =? newline) eqn:En; [discriminate|].
    intros [= <-]. right.
    destruct (skipBlanks_inv (r :: rest)) as (ws & Hi & Hb & Hh).
    exists ws. split; [|auto].
    intros ->. rewrite app_nil_l in Hi. rewrite <- Hi in Hh.
    unfold NotBlankHead, blank in Hh. rewrite Es, En in Hh. discriminate.
Qed.

End ScanPrimitives.

(** ** Scanning an integer and a word *)

Section ScanFields.
Import Utf8 Fmt CronSpec.

Lemma digitsValue_acc ds acc :
  forallb isDigit ds = true -> 0 <= acc ->
  0 <= fold_left (fun acc d => 10 * acc + (d - 48)) ds acc.
Proof.
  revert acc. induction ds as [|d ds IH]; intros acc Hd Ha; cbn [fold_left]; [exact Ha|].
  simpl in Hd. apply andb_true_iff in Hd as [H1 H2]. apply IH; [exact H2|].
  unfold isDigit in H1. apply andb_true_iff in H1 as [H3 H4].
  apply Z.leb_le in H3, H4. lia.
Qed.

Lemma digitsValue_nonneg ds : forallb isDigit ds = true -> 0 <= digitsValue ds.
Proof. intros H. apply digitsValue_acc; [exact H | lia]. Qed.

Lemma ParseInt_field tok v :
  IntField tok v ->
  ParseInt tok = if inInt64 v then Ok v else Err (lit "value out of range").
Proof.
  intros (sign & ds & -> & Hsign & Hne & Hd & ->).
  pose proof (digitsValue_nonneg ds Hd) as Hnn.
  destruct ds as [|d ds']; [congruence|]. clear Hne.
  assert (Hd0 : isDigit d = true) by (simpl in Hd; now apply andb_true_iff in Hd as [? _]).
  assert (E43 : (d =? 43) = false).
  { unfold isDigit in Hd0. apply andb_true_iff in Hd0 as [H1 H2].
    apply Z.leb_le in H1, H2. apply Z.eqb_neq. lia. }
  assert (E45 : (d =? 45) = false).
  { unfold isDigit in Hd0. apply andb_true_iff in Hd0 as [H1 H2].
    apply Z.leb_le in H1, H2. apply Z.eqb_neq. lia. }
  set (un := digitsValue (d :: ds')) in *.
  assert (P63 : 2 ^ 63 = 9223372036854775808) by reflexivity.
  assert (P64 : 2 ^ 64 = 18446744073709551616) by reflexivity.
  unfold inInt64.
  destruct Hsign as [ -> | [ -> | -> ] ]; unfold ParseInt.
  - simpl app. cbv iota. rewrite E43, E45. cbv iota beta. rewrite Hd.
    simpl negb. cbv iota. fold un. rewrite P63, P64.
    clearbody un. cmp_cases; simpl; try reflexivity; lia.
  - simpl app. cbv iota. change (43 =? 43) with true. cbv iota beta. rewrite Hd.
    simpl negb. cbv iota. fold un. rewrite P63, P64.
    clearbody un. cmp_cases; simpl; try reflexivity; lia.
  - simpl app. cbv iota. change (45 =? 43) with false. change (45 =? 45) with true.
    cbv iota beta. rewrite Hd.
    simpl negb. cbv iota. fold un. rewrite P63, P64.
    clearbody un. cmp_cases; simpl; try reflexivity; lia.
Qed.

Lemma IntField_head tok v :
  IntField tok v ->
  exists r tok', tok = r :: tok' /\ (isSign r = true \/ isDigit r = true).
Proof.
  intros (sign & ds & -> & Hsign & Hne & Hd & _).
  destruct ds as [|d ds]; [congruence|].
  assert (isDigit d = true) by (simpl in Hd; now apply andb_true_iff in Hd as [? _]).
  destruct Hsign as [ -> | [ -> | -> ] ].
  - exists d, ds. auto.
  - exists 43, (d :: ds). auto.
  - exists 45, (d :: ds). auto.
Qed.

Lemma IntField_NotSpaceHead tok v rest : IntField tok v -> NotSpaceHead (tok ++ rest).
Proof.
  intros H. destruct (IntField_head _ _ H) as (r & tok' & -> & [Hr|Hr]); simpl.
  - now apply sign_not_space.
  - now apply digit_not_space.
Qed.

(** After the sign, if any: the digits. *)
Lemma scanInt_field ws tok v rest :
  blanks ws -> IntField tok v -> NoDigitHead rest ->
  scanInt (ws ++ tok ++ rest) =
  if inInt64 v then Ok (v, rest) else Err (lit "value out of range").
Proof.
  intros Hb Hf Hr. unfold scanInt.
  rewrite (SkipSpace_blanks _ _ Hb (IntField_NotSpaceHead _ _ rest Hf)).
  pose proof (ParseInt_field _ _ Hf) as Hp.
  destruct Hf as (sign & ds & -> & Hsign & Hne & Hd & Hv).
  destruct ds as [|d ds]; [congruence|].
  assert (Hd0 : isDigit d = true) by (simpl in Hd; now apply andb_true_iff in Hd as [? _]).
  assert (Hds : forallb isDigit ds = true) by (simpl in Hd; now apply andb_true_iff in Hd as [_ ?]).
  assert (Hspan : span isDigit (ds ++ rest) = (ds, rest)).
  { apply span_app; [exact Hds|]. exact Hr. }
  destruct Hsign as [ -> | [ -> | -> ] ].
  - simpl app in *.
    assert (Hs : isSign d = false).
    { destruct (isSign d) eqn:E; [|reflexivity]. apply sign_not_digit in E. congruence. }
    cbv iota. rewrite Hs. cbv iota beta. rewrite Hd0. simpl negb. cbv iota.
    rewrite Hspan. simpl app. rewrite Hp. now destruct (inInt64 v).
  - simpl app in *. cbv iota. change (isSign 43) with true. cbv iota beta.
    rewrite Hd0. simpl negb. cbv iota.
    rewrite Hspan. simpl app. rewrite Hp. now destruct (inInt64 v).
  - simpl app in *. cbv iota. change (isSign 45) with true. cbv iota beta.
    rewrite Hd0. simpl negb. cbv iota.
    rewrite Hspan. simpl app. rewrite Hp. now destruct (inInt64 v).
Qed.

Lemma scanInt_inv input v rest :
  scanInt input = Ok (v, rest) ->
  exists ws tok, input = ws ++ tok ++ rest /\ blanks ws /\ IntField tok v /\
                 NoDigitHead rest.
Proof.
  unfold scanInt. destruct (SkipSpace input) as [i1|e] eqn:Es; [|discriminate].
  apply SkipSpace_inv in Es as (ws & -> & Hb & _).
  destruct i1 as [|r i1]; [discriminate|].
  set (sg := if isSign r then ([r], i1) else ([], r :: i1)).
  assert (Hsg : exists sign i2, sg = (sign, i2) /\ r :: i1 = sign ++ i2 /\
                                (sign = [] \/ sign = [43] \/ sign = [45])).
  { unfold sg. destruct (isSign r) eqn:E.
    - exists [r], i1. split; [reflexivity | split; [reflexivity|]].
      unfold isSign in E. apply orb_true_iff in E as [E|E];
        apply Z.eqb_eq in E; subst r; auto.
    - exists [], (r :: i1). auto. }
  destruct Hsg as (sign & i2 & -> & Hi & Hsign). cbv iota beta.
  destruct i2 as [|d i2]; [discriminate|].
  destruct (isDigit d) eqn:Ed; [|discriminate]. simpl negb. cbv iota.
  destruct (span isDigit i2) as [ds rest'] eqn:Esp.
  apply span_inv in Esp as (-> & Hds & Hrest).
  assert (Hf : forall v0, v0 = match sign with [45] => - digitsValue (d :: ds)
                                          | _ => digitsValue (d :: ds) end ->
               IntField (sign ++ d :: ds) v0).
  { intros v0 Hv0. exists sign, (d :: ds). split; [reflexivity|].
    split; [exact Hsign|]. split; [discriminate|]. split; [|exact Hv0].
    simpl. now rewrite Ed, Hds. }
  specialize (Hf _ eq_refl). rewrite (ParseInt_field _ _ Hf).
  destruct (inInt64 _); [|discriminate].
  intros [= <- <-]. exists ws, (sign ++ d :: ds).
  split; [|split; [exact Hb | split; [exact Hf | exact Hrest]]].
  rewrite Hi. now rewrite <- app_assoc.
Qed.

Lemma Word_NotSpaceHead f rest : Word f -> NotSpaceHead (f ++ rest).
Proof.
  intros [Hne Hf]. destruct f as [|r f]; [congruence|]. simpl in *.
  apply andb_true_iff in Hf as [Hf _]. now apply negb_true_iff in Hf.
Qed.

Lemma convertString_word ws f rest :
  blanks ws -> Word f -> FieldEnd rest ->
  convertString (ws ++ f ++ rest) = Ok (f, rest).
Proof.
  intros Hb Hw Hr. unfold convertString.
  rewrite (SkipSpace_blanks _ _ Hb (Word_NotSpaceHead _ rest Hw)).
  destruct Hw as [Hne Hf]. destruct f as [|r f]; [congruence|].
  change ((r :: f) ++ rest) with (r :: (f ++ rest)). cbv iota.
  change (r :: f ++ rest) with ((r :: f) ++ rest).
  rewrite span_app; [reflexivity | exact Hf |].
  destruct rest as [|x rest]; [exact I|]. simpl in *. now rewrite Hr.
Qed.

Lemma convertString_inv input f rest :
  convertString input = Ok (f, rest) ->
  exists ws, input = ws ++ f ++ rest /\ blanks ws /\ Word f /\ FieldEnd rest.
Proof.
  unfold convertString. destruct (SkipSpace input) as [i1|e] eqn:Es; [|discriminate].
  apply SkipSpace_inv in Es as (ws & -> & Hb & Hh).
  destruct i1 as [|r i1]; [discriminate|].
  intros H.
  apply (f_equal (fun x => match x with Ok p => p | Err _ => (f, rest) end)) in H.
  cbv beta iota in H.
  apply span_inv in H as (Hi & Hf & Hr).
  exists ws. split; [now rewrite Hi | split; [exact Hb | split]].
  - split; [|exact Hf]. intros ->. simpl in Hi. subst rest.
    simpl in Hr, Hh. rewrite Hh in Hr. discriminate.
  - destruct rest as [|x rest]; [exact I|]. simpl.
    now apply negb_false_iff in Hr.
Qed.

End ScanFields.

(** ** The fields of a schedule *)

Section CronFields.
Import Utf8 Fmt CronSpec.

Lemma blanks_app ws ws' : blanks ws -> blanks ws' -> blanks (ws ++ ws').
Proof. unfold blanks. intros H1 H2. now rewrite forallb_app, H1, H2. Qed.

Lemma blanks_head ws x :
  ws <> [] -> blanks ws ->
  exists r l, ws ++ x = r :: l /\ isSpace r = true /\ (r =? newline) = false.
Proof.
  intros Hne Hb. destruct ws as [|r ws]; [congruence|].
  unfold blanks in Hb. simpl in Hb. apply andb_true_iff in Hb as [Hb _].
  apply blank_space in Hb. now exists r, (ws ++ x).
Qed.

Lemma blanks_NoDigitHead ws x : ws <> [] -> blanks ws -> NoDigitHead (ws ++ x).
Proof.
  intros Hne Hb. destruct (blanks_head ws x Hne Hb) as (r & l & -> & Hs & _).
  simpl. now apply space_not_digit.
Qed.

Lemma blanks_FieldEnd ws x : ws <> [] -> blanks ws -> FieldEnd (ws ++ x).
Proof.
  intros Hne Hb. now destruct (blanks_head ws x Hne Hb) as (r & l & -> & Hs & _).
Qed.

Lemma FieldEnd_NoDigitHead rest : FieldEnd rest -> NoDigitHead rest.
Proof. destruct rest; simpl; [auto | apply space_not_digit]. Qed.

Lemma NotSpace_NotBlank l : NotSpaceHead l -> NotBlankHead l.
Proof. destruct l; simpl; [auto | apply not_space_not_blank]. Qed.

(** One step of each kind on a well-formed input. *)
Lemma intStep_field ws tok v rest stored k :
  blanks ws -> IntField tok v -> NoDigitHead rest ->
  intStep (ws ++ tok ++ rest) stored k =
  if inInt64 v then k rest (stored ++ [IntVal v])
  else (stored, Some (lit "value out of range")).
Proof.
  intros Hb Hf Hr. unfold intStep.
  rewrite (SkipSpace_blanks _ _ Hb (IntField_NotSpaceHead _ _ rest Hf)).
  pose proof (scanInt_field [] tok v rest eq_refl Hf Hr) as Hs.
  rewrite app_nil_l in Hs. rewrite Hs. now destruct (inInt64 v).
Qed.

Lemma wordStep_word ws f rest stored k :
  blanks ws -> Word f -> FieldEnd rest ->
  wordStep (ws ++ f ++ rest) stored k = k rest (stored ++ [StringVal f]).
Proof.
  intros Hb Hw Hr. unfold wordStep.
  rewrite (SkipSpace_blanks _ _ Hb (Word_NotSpaceHead _ rest Hw)).
  pose proof (convertString_word [] f rest eq_refl Hw Hr) as Hs.
  rewrite app_nil_l in Hs. now rewrite Hs.
Qed.

Lemma spaceStep_blanks ws rest stored k :
  ws <> [] -> blanks ws -> NotSpaceHead rest ->
  spaceStep (ws ++ rest) stored k = k rest stored.
Proof.
  intros Hne Hb Hr. unfold spaceStep.
  now rewrite (matchSpaces_blanks _ _ Hne Hb (NotSpace_NotBlank _ Hr)).
Qed.

Lemma cronSteps_five rs mi ho :
  FiveFields rs mi ho -> inInt64 mi = true -> inInt64 ho = true ->
  exists f3 f4 f5,
    cronSteps rs = ([IntVal mi; IntVal ho; StringVal f3; StringVal f4; StringVal f5], None).
Proof.
  intros (ws0 & t1 & ws1 & t2 & ws2 & f3 & ws3 & f4 & ws4 & f5 & rest & -> &
          Hb0 & Ht1 & Hn1 & Hb1 & Ht2 & Hn2 & Hb2 & Hf3 & Hn3 & Hb3 & Hf4 &
          Hn4 & Hb4 & Hf5 & Hend) Hmi Hho.
  exists f3, f4, f5. unfold cronSteps.
  rewrite (intStep_field ws0 t1 mi _ _ _ Hb0 Ht1 (blanks_NoDigitHead _ _ Hn1 Hb1)), Hmi.
  rewrite (spaceStep_blanks ws1 _ _ _ Hn1 Hb1 (IntField_NotSpaceHead _ _ _ Ht2)).
  rewrite <- (app_nil_l (t2 ++ _)).
  rewrite (intStep_field [] t2 ho _ _ _ eq_refl Ht2 (blanks_NoDigitHead _ _ Hn2 Hb2)), Hho.
  rewrite (spaceStep_blanks ws2 _ _ _ Hn2 Hb2 (Word_NotSpaceHead _ _ Hf3)).
  rewrite <- (app_nil_l (f3 ++ _)).
  rewrite (wordStep_word [] f3 _ _ _ eq_refl Hf3 (blanks_FieldEnd _ _ Hn3 Hb3)).
  rewrite (spaceStep_blanks ws3 _ _ _ Hn3 Hb3 (Word_NotSpaceHead _ _ Hf4)).
  rewrite <- (app_nil_l (f4 ++ _)).
  rewrite (wordStep_word [] f4 _ _ _ eq_refl Hf4 (blanks_FieldEnd _ _ Hn4 Hb4)).
  rewrite (spaceStep_blanks ws4 _ _ _ Hn4 Hb4 (Word_NotSpaceHead _ _ Hf5)).
  rewrite <- (app_nil_l (f5 ++ _)).
  rewrite (wordStep_word [] f5 _ _ _ eq_refl Hf5 Hend).
  reflexivity.
Qed.

Lemma intStep_inv input stored k st :
  intStep input stored k = (st, None) ->
  exists ws tok v rest,
    input = ws ++ tok ++ rest /\ blanks ws /\ IntField tok v /\ NoDigitHead rest /\
    k rest (stored ++ [IntVal v]) = (st, None).
Proof.
  unfold intStep. destruct (SkipSpace input) as [i1|e] eqn:Es; [|discriminate].
  destruct (scanInt i1) as [[v rest]|e] eqn:Ei; [|discriminate].
  apply SkipSpace_inv in Es as (ws & -> & Hb & _).
  apply scanInt_inv in Ei as (ws' & tok & -> & Hb' & Hf & Hr).
  intros Hk. exists (ws ++ ws'), tok, v, rest.
  split; [now rewrite <- app_assoc | split; [now apply blanks_app | auto]].
Qed.

Lemma wordStep_inv input stored k st :
  wordStep input stored k = (st, None) ->
  exists ws f rest,
    input = ws ++ f ++ rest /\ blanks ws /\ Word f /\ FieldEnd rest /\
    k rest (stored ++ [StringVal f]) = (st, None).
Proof.
  unfold wordStep. destruct (SkipSpace input) as [i1|e] eqn:Es; [|discriminate].
  destruct (convertString i1) as [[f rest]|e] eqn:Ei; [|discriminate].
  apply SkipSpace_inv in Es as (ws & -> & Hb & _).
  apply convertString_inv in Ei as (ws' & -> & Hb' & Hf & Hr).
  intros Hk. exists (ws ++ ws'), f, rest.
  split; [now rewrite <- app_assoc | split; [now apply blanks_app | auto]].
Qed.

Lemma spaceStep_inv input stored k st :
  spaceStep input stored k = (st, None) ->
  (input = [] /\ k [] stored = (st, None)) \/
  (exists ws rest, ws <> [] /\ blanks ws /\ input = ws ++ rest /\
                   k rest stored = (st, None)).
Proof.
  unfold spaceStep. destruct (matchSpaces 0 input) as [out|e] eqn:Em; [|discriminate].
  apply matchSpaces_inv in Em as [[-> ->]|(ws & Hne & Hb & -> & _)]; intros Hk.
  - now left.
  - right. now exists ws, out.
Qed.

Lemma intStep_nil stored k st : intStep [] stored k <> (st, None).
Proof. unfold intStep. simpl. discriminate. Qed.

Lemma wordStep_nil stored k st : wordStep [] stored k <> (st, None).
Proof. unfold wordStep. simpl. discriminate. Qed.

Lemma cronSteps_inv rs stored :
  cronSteps rs = (stored, None) ->
  exists mi ho f3 f4 f5,
    stored = [IntVal mi; IntVal ho; StringVal f3; StringVal f4; StringVal f5] /\
    FiveFields rs mi ho.
Proof.
  unfold cronSteps. intros H.
  apply intStep_inv in H as (ws0 & t1 & mi & r1 & -> & Hb0 & Ht1 & _ & H).
  apply spaceStep_inv in H as [[_ H]|(ws1 & r2 & Hn1 & Hb1 & -> & H)];
    [now apply intStep_nil in H|].
  apply intStep_inv in H as (ws1' & t2 & ho & r3 & -> & Hb1' & Ht2 & _ & H).
  apply spaceStep_inv in H as [[_ H]|(ws2 & r4 & Hn2 & Hb2 & -> & H)];
    [now apply wordStep_nil in H|].
  apply wordStep_inv in H as (ws2' & f3 & r5 & -> & Hb2' & Hf3 & _ & H).
  apply spaceStep_inv in H as [[_ H]|(ws3 & r6 & Hn3 & Hb3 & -> & H)];
    [now apply wordStep_nil in H|].
  apply wordStep_inv in H as (ws3' & f4 & r7 & -> & Hb3' & Hf4 & _ & H).
  apply spaceStep_inv in H as [[_ H]|(ws4 & r8 & Hn4 & Hb4 & -> & H)];
    [now apply wordStep_nil in H|].
  apply wordStep_inv in H as (ws4' & f5 & rest & -> & Hb4' & Hf5 & Hend & H).
  injection H as <-.
  exists mi, ho, f3, f4, f5. split; [reflexivity|].
  exists ws0, t1, (ws1 ++ ws1'), t2, (ws2 ++ ws2'), f3, (ws3 ++ ws3'), f4,
         (ws4 ++ ws4'), f5, rest.
  assert (Hne : forall a b : list rune, a <> [] -> a ++ b <> []).
  { intros a b Ha Hab. apply app_eq_nil in Hab as [? _]. contradiction. }
  repeat split; auto using blanks_app; try (now apply Ht1); try (now apply Ht2);
    try (now apply Hf3); try (now apply Hf4); try (now apply Hf5).
  now rewrite <- !app_assoc.
Qed.

Lemma cronSteps_prefix rs mi ho :
  TwoLeadingInts rs mi ho ->
  exists stored err,
    cronSteps rs = (stored, err) /\
    (err <> None \/
     (nth_error stored 0 = Some (IntVal mi) /\ nth_error stored 1 = Some (IntVal ho))).
Proof.
  intros (ws0 & t1 & ws1 & t2 & rest & -> & Hb0 & Ht1 & Hn1 & Hb1 & Ht2 & Hend).
  unfold cronSteps.
  rewrite (intStep_field ws0 t1 mi _ _ _ Hb0 Ht1 (blanks_NoDigitHead _ _ Hn1 Hb1)).
  destruct (inInt64 mi); [|eexists _, _; split; [reflexivity | left; discriminate]].
  rewrite (spaceStep_blanks ws1 _ _ _ Hn1 Hb1 (IntField_NotSpaceHead _ _ _ Ht2)).
  rewrite <- (app_nil_l (t2 ++ _)).
  rewrite (intStep_field [] t2 ho _ _ _ eq_refl Ht2 (FieldEnd_NoDigitHead _ Hend)).
  destruct (inInt64 ho); [|eexists _, _; split; [reflexivity | left; discriminate]].
  unfold spaceStep, wordStep.
  repeat match goal with
         | |- context [match ?x with Ok _ => _ | Err _ => _ end] =>
             destruct x as [?|?]
         | |- context [let (_, _) := ?x in _] => destruct x as [? ?]
         end;
    eexists _, _; (split; [reflexivity|]);
    first [ left; discriminate | right; split; reflexivity ].
Qed.

End CronFields.

(** ** ParseCron *)

Section ParseCronFacts.
Import Utf8 Fmt CronSpec Scheduler.

Lemma small_inInt64 v : -1000 <= v <= 1000 -> inInt64 v = true.
Proof.
  intros H. unfold inInt64.
  assert (P63 : 2 ^ 63 = 9223372036854775808) by reflexivity. rewrite P63.
  apply andb_true_iff. split; [apply Z.leb_le | apply Z.ltb_lt]; lia.
Qed.

Lemma FiveFields_TwoLeadingInts rs mi ho :
  FiveFields rs mi ho -> TwoLeadingInts rs mi ho.
Proof.
  intros (ws0 & t1 & ws1 & t2 & ws2 & f3 & ws3 & f4 & ws4 & f5 & rest & -> &
          Hb0 & Ht1 & Hn1 & Hb1 & Ht2 & Hn2 & Hb2 & _).
  exists ws0, t1, ws1, t2, (ws2 ++ f3 ++ ws3 ++ f4 ++ ws4 ++ f5 ++ rest).
  repeat split; auto; try (now apply Ht1); try (now apply Ht2).
  now apply blanks_FieldEnd.
Qed.

Lemma TwoLeadingInts_head rs mi ho :
  TwoLeadingInts rs mi ho ->
  match rs with
  | [] => False
  | r :: _ => blank r = true \/ isSign r = true \/ isDigit r = true
  end.
Proof.
  intros (ws0 & t1 & ws1 & t2 & rest & -> & Hb0 & Ht1 & _).
  destruct ws0 as [|r ws0].
  - destruct (IntField_head _ _ Ht1) as (r & tok' & -> & H). simpl. tauto.
  - unfold blanks in Hb0. simpl in *. apply andb_true_iff in Hb0 as [H _]. tauto.
Qed.

Lemma ParseCron_sound s h m :
  ParseCron s = Ok (h, m) ->
  FiveFields (runes s) m h /\ 0 <= h <= 23 /\ 0 <= m <= 59.
Proof.
  unfold ParseCron. rewrite Sscanf_cron.
  destruct (cronSteps (runes s)) as [stored [e|]] eqn:E; [discriminate|].
  apply cronSteps_inv in E as (mi & ho & f3 & f4 & f5 & -> & HF).
  cbn [nth_error orb]. change (len _ <? 2) with false. cbv iota.
  destruct (Z.ltb_spec ho 0); [discriminate|].
  destruct (Z.ltb_spec 23 ho); [discriminate|].
  destruct (Z.ltb_spec mi 0); [discriminate|].
  destruct (Z.ltb_spec 59 mi); [discriminate|].
  simpl. intros [= <- <-]. split; [exact HF | lia].
Qed.

Lemma ParseCron_complete s h m :
  FiveFields (runes s) m h -> 0 <= h <= 23 -> 0 <= m <= 59 ->
  ParseCron s = Ok (h, m).
Proof.
  intros HF Hh Hm. unfold ParseCron. rewrite Sscanf_cron.
  destruct (cronSteps_five _ _ _ HF) as (f3 & f4 & f5 & ->);
    try (apply small_inInt64; lia).
  cbn [nth_error orb]. change (len _ <? 2) with false. cbv iota.
  destruct (Z.ltb_spec h 0); [lia|].
  destruct (Z.ltb_spec 23 h); [lia|].
  destruct (Z.ltb_spec m 0); [lia|].
  destruct (Z.ltb_spec 59 m); [lia|].
  reflexivity.
Qed.

Lemma ParseCron_out_of_range s mi ho :
  TwoLeadingInts (runes s) mi ho ->
  ho < 0 \/ 23 < ho \/ mi < 0 \/ 59 < mi ->
  isErr (ParseCron s) = true.
Proof.
  intros HT Hr. unfold ParseCron. rewrite Sscanf_cron.
  destruct (cronSteps_prefix _ _ _ HT) as (stored & err & -> & [He|[H0 H1]]).
  - destruct err; [reflexivity | congruence].
  - rewrite H0, H1. destruct err; [reflexivity|]. cbn [orb].
    destruct (len stored <? 2); [reflexivity|].
    destruct (Z.ltb_spec ho 0); [reflexivity|].
    destruct (Z.ltb_spec 23 ho); [reflexivity|].
    destruct (Z.ltb_spec mi 0); [reflexivity|].
    destruct (Z.ltb_spec 59 mi); [reflexivity|].
    lia.
Qed.

(** C3.  A schedule without two leading integer fields is rejected, and
    so is one whose hour is outside 0..23 or whose minute is outside
    0..59; [NextRunTime] fails whenever [ParseCron] does. *)
Theorem ParseCron_rejects_malformed (cronExpr : gostring) :
  ((forall minute hour, ~ TwoLeadingInts (runes cronExpr) minute hour) ->
     isErr (ParseCron cronExpr) = true) /\
  (forall minute hour,
     TwoLeadingInts (runes cronExpr) minute hour ->
     hour < 0 \/ 23 < hour \/ minute < 0 \/ 59 < minute ->
     isErr (ParseCron cronExpr) = true) /\
  (forall loc now,
     isErr (ParseCron cronExpr) = true ->
     isErr (NextRunTime loc now cronExpr) = true).
Proof.
  split; [|split].
  - intros Hno. destruct (ParseCron cronExpr) as [[h m]|e] eqn:E; [|reflexivity].
    exfalso. apply ParseCron_sound in E as [HF _].
    apply (Hno m h). now apply FiveFields_TwoLeadingInts.
  - intros minute hour. apply ParseCron_out_of_range.
  - intros loc now. unfold NextRunTime.
    destruct (ParseCron cronExpr) as [[h m]|e]; [discriminate | reflexivity].
Qed.

End ParseCronFacts.

(** Witness: the three rejected schedules of the scheduler's tests. *)
Lemma ParseCron_rejects_malformed_witness :
  isErr (Scheduler.ParseCron (lit "invalid")) = true /\
  isErr (Scheduler.ParseCron (lit "0 25 * * *")) = true /\
  isErr (Scheduler.ParseCron (lit "60 9 * * *")) = true /\
  isErr (Scheduler.NextRunTime Time.UTC (Time.ofUnixNano 0) (lit "invalid")) = true.
Proof.
  assert (H25 : CronSpec.TwoLeadingInts (Utf8.runes (lit "0 25 * * *")) 0 25).
  { exists [], [48], [32], [50; 53], [32; 42; 32; 42; 32; 42].
    repeat split; try reflexivity; try discriminate.
    - exists [], [48]. repeat split; auto; discriminate.
    - exists [], [50; 53]. repeat split; auto; discriminate. }
  assert (H60 : CronSpec.TwoLeadingInts (Utf8.runes (lit "60 9 * * *")) 60 9).
  { exists [], [54; 48], [32], [57], [32; 42; 32; 42; 32; 42].
    repeat split; try reflexivity; try discriminate.
    - exists [], [54; 48]. repeat split; auto; discriminate.
    - exists [], [57]. repeat split; auto; discriminate. }
  assert (Hinv : forall minute hour,
             ~ CronSpec.TwoLeadingInts (Utf8.runes (lit "invalid")) minute hour).
  { intros minute hour H. apply TwoLeadingInts_head in H. vm_compute in H.
    destruct H as [H|[H|H]]; discriminate. }
  split; [|split; [|split]].
  - apply (proj1 (ParseCron_rejects_malformed (lit "invalid")) Hinv).
  - apply (proj1 (proj2 (ParseCron_rejects_malformed (lit "0 25 * * *"))) 0 25 H25). lia.
  - apply (proj1 (proj2 (ParseCron_rejects_malformed (lit "60 9 * * *"))) 60 9 H60). lia.
  - apply (proj2 (proj2 (ParseCron_rejects_malformed (lit "invalid")))).
    apply (proj1 (ParseCron_rejects_malformed (lit "invalid")) Hinv).
Defined.

(** ** NextRunTime *)

Section NextRun.
Import Utf8 Fmt CronSpec Scheduler Time.

Variable loc : Location.
Variable off : Z.
Hypothesis fixed : forall u, offset (loc u) = off.

Lemma Date_fixed day h m :
  Date loc day h m 0 0 = {| sec := day * 86400 + h * 3600 + m * 60 - off; nsec := 0 |}.
Proof.
  unfold Date. rewrite !fixed. change (0 / Second) with 0. change (0 mod Second) with 0.
  rewrite !Z.add_0_r. destruct (off =? 0) eqn:E.
  - apply Z.eqb_eq in E. simpl. f_equal. lia.
  - simpl. destruct ((_ <? _) || (_ <=? _)); reflexivity.
Qed.

Lemma civil_fields day h m n :
  0 <= h <= 23 -> 0 <= m <= 59 ->
  let t := {| sec := day * 86400 + h * 3600 + m * 60 - off; nsec := n |} in
  Day loc t = day /\ Hour_ loc t = h /\ Minute_ loc t = m /\ Second_ loc t = 0.
Proof.
  intros Hh Hm t. unfold Day, Hour_, Minute_, Second_, localSec, t. cbn [sec].
  rewrite fixed.
  replace (day * 86400 + h * 3600 + m * 60 - off + off)
    with (day * 86400 + h * 3600 + m * 60) by lia.
  repeat split.
  - symmetry. apply (Z.div_unique _ _ _ (h * 3600 + m * 60)); lia.
  - replace ((day * 86400 + h * 3600 + m * 60) mod 86400) with (h * 3600 + m * 60).
    + symmetry. apply (Z.div_unique _ _ _ (m * 60)); lia.
    + apply (Z.mod_unique _ _ day); lia.
  - replace ((day * 86400 + h * 3600 + m * 60) mod 3600) with (m * 60).
    + symmetry. apply (Z.div_unique _ _ _ 0); lia.
    + apply (Z.mod_unique _ _ (day * 24 + h)); lia.
  - symmetry. apply (Z.mod_unique _ _ (day * 1440 + h * 60 + m)); lia.
Qed.

Lemma After_clock now h m :
  0 <= nsec now < Second -> 0 <= h <= 23 -> 0 <= m <= 59 ->
  After now {| sec := Day loc now * 86400 + h * 3600 + m * 60 - off; nsec := 0 |}
  = negb (clockOfDay loc now <=? (h * 3600 + m * 60) * Second).
Proof.
  unfold After, clockOfDay, Day, localSec, Second. cbn [sec nsec].
  rewrite fixed. intros Hn Hh Hm.
  set (l := sec now + off).
  pose proof (Z.div_mod l 86400 ltac:(lia)) as Hdm.
  pose proof (Z.mod_pos_bound l 86400 ltac:(lia)) as Hb.
  set (q := l / 86400) in *. set (r := l mod 86400) in *.
  assert (Hs : sec now = 86400 * q + r - off) by (unfold l in Hdm; lia).
  rewrite Hs.
  cmp_cases; cbn [orb andb negb]; try reflexivity; lia.
Qed.

Lemma Add_day s0 :
  Add {| sec := s0; nsec := 0 |} (24 * Hour) = {| sec := s0 + 86400; nsec := 0 |}.
Proof.
  unfold Add, ofUnixNano, UnixNano, Hour, Minute, Second. cbn [sec nsec]. f_equal.
  - symmetry. apply (Z.div_unique _ _ _ 0); lia.
  - symmetry. apply (Z.mod_unique _ _ (s0 + 86400)); lia.
Qed.

End NextRun.

(** C1, as stated, fails on a schedule of two fields: minute 30 and
    hour 8 are valid leading integers, yet [NextRunTime] fails, for the
    format asks for five fields. *)
Lemma NextRunTime_two_fields_rejected :
  CronSpec.TwoLeadingInts (Utf8.runes (lit "30 8")) 30 8 /\
  Scheduler.NextRunTime Time.UTC (Time.ofUnixNano 0) (lit "30 8")
  = Err (lit "invalid cron expression: 30 8").
Proof.
  split.
  - exists [], [51; 48], [32], [56], [].
    repeat split; try reflexivity; try discriminate.
    + exists [], [51; 48]. repeat split; auto; discriminate.
    + exists [], [56]. repeat split; auto; discriminate.
  - vm_compute. reflexivity.
Qed.

(** Why the offset is asked to be fixed: tomorrow's instant is 24 hours
    after today's, so when the clock is put forward in between (here at
    02:00 of the next day), nine o'clock asked for at 10:00 comes out
    as ten o'clock of the next day. *)
Lemma NextRunTime_across_transition :
  let loc := Time.putForward (86400 + 2 * 3600) in
  let now := Time.ofUnixNano (10 * Time.Hour) in
  exists next,
    Scheduler.NextRunTime loc now (lit "0 9 * * *") = Ok next /\
    Time.Day loc next = 1 /\ Time.Hour_ loc next = 10.
Proof.
  eexists. split; [vm_compute; reflexivity | split; vm_compute; reflexivity].
Qed.

(** ** NextRunTime away from a change of the offset *)

Section NextRunWindow.
Import Utf8 Fmt CronSpec Scheduler Time.

Variable loc : Location.
Variable off : Z.
Variable now : Time.

(** The offset of the zone is [off] around now: from two days before
    to two days after, and as much further as the offset is large. *)
Hypothesis steady :
  forall u, Z.abs (u - sec now) <= 2 * 86400 + Z.abs off -> offset (loc u) = off.

Lemma steady_now : offset (loc (sec now)) = off.
Proof. apply steady. lia. Qed.

(** The date of today at a time of day, as in a zone of this offset. *)
Lemma Date_steady h m :
  0 <= h <= 23 -> 0 <= m <= 59 ->
  Date loc (Day loc now) h m 0 0
  = {| sec := Day loc now * 86400 + h * 3600 + m * 60 - off; nsec := 0 |}.
Proof.
  intros Hh Hm.
  assert (Hd : Day loc now = (sec now + off) / 86400)
    by (unfold Day, localSec; now rewrite steady_now).
  pose proof (Z.div_mod (sec now + off) 86400 ltac:(lia)) as Hdm.
  pose proof (Z.mod_pos_bound (sec now + off) 86400 ltac:(lia)) as Hb.
  rewrite Hd. set (q := (sec now + off) / 86400) in *.
  set (r := (sec now + off) mod 86400) in *.
  unfold Date. cbv zeta.
  replace (q * 86400 + h * 3600 + m * 60 + 0 + 0 / Second)
    with (q * 86400 + h * 3600 + m * 60) by (change (0 / Second) with 0; lia).
  set (unix := q * 86400 + h * 3600 + m * 60).
  assert (E1 : offset (loc unix) = off) by (apply steady; unfold unix; lia).
  assert (E2 : offset (loc (unix - off)) = off) by (apply steady; unfold unix; lia).
  rewrite E1. change (0 mod Second) with 0.
  destruct (off =? 0) eqn:E0; cbn [negb].
  - apply Z.eqb_eq in E0. f_equal. lia.
  - rewrite E2. destruct ((_ <? _) || (_ <=? _)); reflexivity.
Qed.

(** The clock of an instant close to now reads as in a zone of this
    offset. *)
Lemma civil_steady day h m :
  0 <= h <= 23 -> 0 <= m <= 59 ->
  Z.abs (day * 86400 + h * 3600 + m * 60 - off - sec now) <= 2 * 86400 + Z.abs off ->
  let t := {| sec := day * 86400 + h * 3600 + m * 60 - off; nsec := 0 |} in
  Day loc t = day /\ Hour_ loc t = h /\ Minute_ loc t = m /\ Second_ loc t = 0.
Proof.
  intros Hh Hm Hw t.
  pose proof (civil_fields (FixedZone off) off (fun _ => eq_refl) day h m 0 Hh Hm) as H.
  cbv zeta in H. unfold t.
  unfold Day, Hour_, Minute_, Second_, localSec in *. cbn [sec] in *.
  rewrite (steady _ Hw). exact H.
Qed.

Lemma After_steady h m :
  0 <= nsec now < Second -> 0 <= h <= 23 -> 0 <= m <= 59 ->
  After now {| sec := Day loc now * 86400 + h * 3600 + m * 60 - off; nsec := 0 |}
  = negb (clockOfDay loc now <=? (h * 3600 + m * 60) * Second).
Proof.
  intros Hn Hh Hm.
  pose proof (After_clock (FixedZone off) off (fun _ => eq_refl) now h m Hn Hh Hm) as H.
  unfold Day, clockOfDay, localSec in *. rewrite steady_now. exact H.
Qed.

(** C1, as amended.  For a schedule of five fields whose first two are
    integers within 0..59 and 0..23, and a local zone whose offset does
    not change around now, [NextRunTime] returns an instant at that hour
    and minute (and zero seconds) of the local clock; it falls on the
    local date of today when the local time of day has not passed it,
    and on the next date otherwise. *)
Theorem NextRunTime_five_fields (cronExpr : gostring) (minute hour : Z) :
  0 <= nsec now < Second ->
  FiveFields (runes cronExpr) minute hour ->
  0 <= minute <= 59 -> 0 <= hour <= 23 ->
  exists next,
    NextRunTime loc now cronExpr = Ok next /\
    Hour_ loc next = hour /\ Minute_ loc next = minute /\
    Second_ loc next = 0 /\ nsec next = 0 /\
    Day loc next =
      (if clockOfDay loc now <=? (hour * 3600 + minute * 60) * Second
       then Day loc now else Day loc now + 1).
Proof.
  intros Hn HF Hm Hh. unfold NextRunTime.
  rewrite (ParseCron_complete _ _ _ HF Hh Hm).
  rewrite (Date_steady hour minute Hh Hm), (After_steady hour minute Hn Hh Hm).
  assert (Hd : Day loc now = (sec now + off) / 86400)
    by (unfold Day, localSec; now rewrite steady_now).
  pose proof (Z.div_mod (sec now + off) 86400 ltac:(lia)) as Hdm.
  pose proof (Z.mod_pos_bound (sec now + off) 86400 ltac:(lia)) as Hb.
  destruct (clockOfDay loc now <=? (hour * 3600 + minute * 60) * Second); cbn [negb];
    cbv iota.
  - eexists. split; [reflexivity|].
    destruct (civil_steady (Day loc now) hour minute Hh Hm) as (H1 & H2 & H3 & H4);
      [rewrite Hd; lia | auto].
  - rewrite Add_day. eexists. split; [reflexivity|].
    replace (Day loc now * 86400 + hour * 3600 + minute * 60 - off + 86400)
      with ((Day loc now + 1) * 86400 + hour * 3600 + minute * 60 - off) by lia.
    destruct (civil_steady (Day loc now + 1) hour minute Hh Hm) as (H1 & H2 & H3 & H4);
      [rewrite Hd; lia | auto].
Qed.

End NextRunWindow.

(** Witness: a zone whose clock was put forward by an hour at the
    epoch; nine o'clock asked for ten days later, at 10:00:00 UTC, which
    is eleven o'clock there, comes on the next day. *)
Lemma NextRunTime_five_fields_witness :
  let loc := Time.putForward 0 in
  let now := Time.ofUnixNano (250 * Time.Hour) in
  exists next,
    Scheduler.NextRunTime loc now (lit "0 9 * * *") = Ok next /\
    Time.Hour_ loc next = 9 /\ Time.Minute_ loc next = 0 /\
    Time.Second_ loc next = 0 /\ Time.nsec next = 0 /\
    Time.Day loc next = 11.
Proof.
  intros loc now.
  assert (HF : CronSpec.FiveFields (Utf8.runes (lit "0 9 * * *")) 0 9).
  { exists [], [48], [32], [57], [32], [42], [32], [42], [32], [42], [].
    repeat split; try reflexivity; try discriminate.
    - exists [], [48]. repeat split; auto; discriminate.
    - exists [], [57]. repeat split; auto; discriminate. }
  destruct (NextRunTime_five_fields loc 3600 now) with
    (cronExpr := lit "0 9 * * *") (minute := 0) (hour := 9) as (next & H).
  - intros u Hu. unfold loc, Time.putForward.
    change (Time.sec now) with 900000 in Hu.
    destruct (u <? 0) eqn:E; [apply Z.ltb_lt in E; lia | reflexivity].
  - vm_compute. split; [discriminate | reflexivity].
  - exact HF.
  - lia.
  - lia.
  - exists next. exact H.
Defined.

(** ** StartAt and Start *)

Section Cadence.
Import Scheduler Time.

Variable jobError : nat -> option gostring.
Variable jobDuration : nat -> Duration.
Variable pickDone : Z -> bool.

(** With a live context and jobs shorter than the interval, the loop
    starts the job at every tick of the ticker. *)
Lemma tickLoop_regular turns s made :
  0 < interval s ->
  (forall k, 0 <= jobDuration k < interval s) ->
  forall j w,
    made + Z.of_nat j * interval s <= clock w < made + (Z.of_nat j + 1) * interval s ->
    exists w',
      tickLoop jobError jobDuration None pickDone turns s made
        (made + Z.of_nat j * interval s) w = (Turning, w') /\
      started w' = started w ++
        map (fun k => made + Z.of_nat k * interval s) (seq (S j) turns).
Proof.
  intros HI Hdur. induction turns as [|turns IH]; intros j w Hc.
  - exists w. split; [reflexivity|]. simpl. now rewrite app_nil_r.
  - cbn [tickLoop].
    assert (Hk : (clock w - made) / interval s = Z.of_nat j).
    { symmetry. apply (Z.div_unique _ _ _ (clock w - made - Z.of_nat j * interval s)); lia. }
    rewrite Hk.
    assert (Hlt : (made + Z.of_nat j * interval s <? made + Z.of_nat j * interval s) = false)
      by (apply Z.ltb_irrefl).
    rewrite Hlt. unfold doneTaken. cbv iota.
    unfold runJob. cbn [clock started].
    specialize (Hdur (List.length (started w))).
    rewrite Z.max_r by lia.
    replace (made + (Z.of_nat j + 1) * interval s)
      with (made + Z.of_nat (S j) * interval s) by lia.
    destruct (IH (S j)
                {| clock := made + Z.of_nat (S j) * interval s
                            + jobDuration (List.length (started w));
                   started := started w ++ [made + Z.of_nat (S j) * interval s] |})
      as (w' & Hrun & Hst).
    + cbn [clock]. lia.
    + exists w'. split; [exact Hrun|]. rewrite Hst. cbn [started seq map].
      now rewrite <- app_assoc.
Qed.

(** C2, as amended.  In scheduled mode, with a live context and jobs
    shorter than the interval: a first-run instant in the future is
    waited for exactly; one that passed less than 24 hours ago is moved
    24 hours on and waited for; only one that passed 24 hours ago or
    more lets the job start at once.  The job is then started again at
    every interval counted from the end of its first execution. *)
Theorem StartAt_first_run_and_cadence (s : Scheduler) (firstRun : Time) (turns : nat)
    (w : World) :
  runOnce s = false ->
  0 < interval s ->
  (forall k, 0 <= jobDuration k < interval s) ->
  minDuration <= UnixNano firstRun - clock w <= maxDuration ->
  let d := UnixNano firstRun - clock w in
  let first :=
    if 0 <=? d then UnixNano firstRun
    else if - (24 * Hour) <=? d then UnixNano firstRun + 24 * Hour
    else clock w in
  let made := first + jobDuration (List.length (started w)) in
  exists w',
    StartAt jobError jobDuration None pickDone s firstRun turns w = (Turning, w') /\
    started w' = started w ++ first ::
      map (fun k => made + Z.of_nat k * interval s) (seq 1 turns).
Proof.
  intros Honce HI Hdur Hrange d first made.
  unfold StartAt.
  assert (Hsub : Sub firstRun (ofUnixNano (clock w)) = d).
  { unfold Sub, ofUnixNano. cbn [sec nsec].
    assert (Hd : (sec firstRun - clock w / Second) * Second
                 + (nsec firstRun - clock w mod Second) = d).
    { unfold d, UnixNano.
      pose proof (Z.div_mod (clock w) Second ltac:(unfold Second; lia)). lia. }
    rewrite Hd.
    destruct (Z.ltb_spec d minDuration); [unfold d in *; lia|].
    destruct (Z.ltb_spec maxDuration d); [unfold d in *; lia | reflexivity]. }
  rewrite Hsub. unfold doneTaken. cbv iota.
  assert (Hfire : clock w + Z.max 0 (if d <? 0 then d + 24 * Hour else d) = first).
  { unfold first. unfold Hour, Minute, Second.
    destruct (Z.ltb_spec d 0) as [Hneg|Hpos].
    - destruct (Z.leb_spec 0 d); [lia|].
      destruct (Z.leb_spec (- (24 * (60 * (60 * 1000000000)))) d); unfold d in *; lia.
    - destruct (Z.leb_spec 0 d); [|lia]. unfold d in *. lia. }
  rewrite Hfire. unfold Start. rewrite Honce.
  unfold runJob. cbn [clock started].
  pose proof (Hdur (List.length (started w))) as Hd0.
  rewrite Z.max_r by lia. fold made.
  destruct (Z.leb_spec (interval s) 0); [lia|].
  destruct (tickLoop_regular turns s made HI Hdur 0
              {| clock := made; started := started w ++ [first] |})
    as (w' & Hrun & Hst).
  - cbn [clock]. lia.
  - exists w'. replace (made + Z.of_nat 0 * interval s) with made in Hrun by lia.
    split; [exact Hrun|]. rewrite Hst. cbn [started]. now rewrite <- app_assoc.
Qed.

End Cadence.

(** Witness: the daily scheduler of [main] with a job that takes one
    second, asked at 10:00 for a first run at 11:00; two turns of the
    loop are looked at. *)
Lemma StartAt_first_run_and_cadence_witness :
  let s := Scheduler.NewScheduler Scheduler.DailyInterval false in
  let w := {| Scheduler.clock := 10 * Time.Hour; Scheduler.started := [] |} in
  exists w',
    Scheduler.StartAt (fun _ => None) (fun _ => Time.Second) None (fun _ => false) s
      (Time.ofUnixNano (11 * Time.Hour)) 2 w = (Scheduler.Turning, w') /\
    Scheduler.started w' =
      [ 11 * Time.Hour;
        11 * Time.Hour + Time.Second + 24 * Time.Hour;
        11 * Time.Hour + Time.Second + 48 * Time.Hour ].
Proof.
  intros s w.
  destruct (StartAt_first_run_and_cadence (fun _ => None) (fun _ => Time.Second)
              (fun _ => false) s (Time.ofUnixNano (11 * Time.Hour)) 2 w)
    as (w' & Hrun & Hst).
  - reflexivity.
  - reflexivity.
  - intros k. vm_compute. split; [discriminate | reflexivity].
  - vm_compute. split; discriminate.
  - exists w'. split; [exact Hrun|]. rewrite Hst. reflexivity.
Defined.

(** C2, as stated, fails for an instant just passed: asked at 10:00
    for a first run at 09:00, the scheduler does not start the job at
    once but 23 hours later. *)
Lemma StartAt_past_instant_waits :
  let s := Scheduler.NewScheduler Scheduler.DailyInterval false in
  let w := {| Scheduler.clock := 10 * Time.Hour; Scheduler.started := [] |} in
  Scheduler.started
    (snd (Scheduler.StartAt (fun _ => None) (fun _ => 0) None (fun _ => false) s
            (Time.ofUnixNano (9 * Time.Hour)) 0 w))
  = [33 * Time.Hour] /\
  33 * Time.Hour <> 10 * Time.Hour.
Proof. split; [vm_compute; reflexivity | discriminate]. Qed.

(** ** The length of the string is fuel enough

    Each loop below is given the length of its string as fuel.  Every
    turn shortens the string, so the loop has ended by itself before the
    fuel is used up: more fuel changes nothing. *)

Section Fuel.
Import Strings Rss ItemSpec.

Lemma indexNat_nil old : old <> [] -> indexNat [] old = None.
Proof. destruct old; [congruence | reflexivity]. Qed.

Lemma replaceLoop_enough old new n :
  old <> [] ->
  forall m s, (List.length s <= n)%nat -> (List.length s <= m)%nat ->
              replaceLoop n s old new = replaceLoop m s old new.
Proof.
  intros Hne. induction n as [|n IH]; intros m s Hn Hm.
  - destruct s; [|simpl in Hn; lia].
    destruct m; cbn [replaceLoop]; [reflexivity|].
    now rewrite indexNat_nil.
  - destruct m as [|m].
    + destruct s; [|simpl in Hm; lia]. cbn [replaceLoop].
      now rewrite indexNat_nil.
    + cbn [replaceLoop]. destruct (indexNat s old) as [j|] eqn:Ej; [|reflexivity].
      pose proof (indexNat_bound _ _ _ Ej) as Hb.
      assert (0 < List.length old)%nat by (destruct old; [congruence | simpl; lia]).
      rewrite (IH m); [reflexivity | |]; rewrite length_skipn; lia.
Qed.

Lemma ReplaceAll_equation s old new :
  old <> [] -> eqb old new = false ->
  ReplaceAll s old new =
  match indexNat s old with
  | None => s
  | Some j => firstn j s ++ new ++ ReplaceAll (skipn (j + List.length old) s) old new
  end.
Proof.
  intros Hne Hon. unfold ReplaceAll. rewrite Hon.
  destruct old as [|o old]; [congruence|].
  destruct s as [|c s].
  - reflexivity.
  - cbn [List.length replaceLoop].
    destruct (indexNat (c :: s) (o :: old)) as [j|] eqn:Ej; [|reflexivity].
    do 2 f_equal. apply replaceLoop_enough; [discriminate | |lia].
    rewrite length_skipn. cbn [List.length]. lia.
Qed.

Lemma stripTags_enough n :
  forall m s, (List.length s <= n)%nat -> (List.length s <= m)%nat ->
              stripTags n s = stripTags m s.
Proof.
  induction n as [|n IH]; intros m s Hn Hm.
  - destruct s; [|simpl in Hn; lia]. destruct m; [reflexivity|].
    now rewrite stripTags_unfold.
  - destruct m as [|m].
    + destruct s; [|simpl in Hm; lia]. now rewrite stripTags_unfold.
    + rewrite !stripTags_unfold.
      destruct (indexNat s [lt]) as [i|] eqn:Ei; [|reflexivity].
      destruct (indexNat (skipn i s) [gt]) as [e|] eqn:Ee; [|reflexivity].
      pose proof (indexNat_bound _ _ _ Ee) as Hb.
      rewrite length_skipn in Hb. simpl in Hb.
      apply IH; rewrite length_app, length_firstn, length_skipn; lia.
Qed.

Lemma collapse_enough n :
  forall m s, (List.length s <= n)%nat -> (List.length s <= m)%nat ->
              collapseNewlines n s = collapseNewlines m s.
Proof.
  induction n as [|n IH]; intros m s Hn Hm.
  - destruct s; [|simpl in Hn; lia]. destruct m; reflexivity.
  - destruct m as [|m].
    + destruct s; [|simpl in Hm; lia]. reflexivity.
    + cbn [collapseNewlines].
      destruct (Contains s [nl; nl; nl]) eqn:Ec; [|reflexivity].
      pose proof (ReplaceAll_shorter s [nl; nl; nl] [nl; nl] nn_subseq_nnn
                    (Nat.lt_succ_diag_r 2) Ec).
      apply IH; lia.
Qed.

Lemma trimLeftLoop_enough n :
  forall m s, (List.length s <= n)%nat -> (List.length s <= m)%nat ->
              trimLeftLoop n s = trimLeftLoop m s.
Proof.
  induction n as [|n IH]; intros m s Hn Hm.
  - destruct s; [|simpl in Hn; lia]. destruct m; reflexivity.
  - destruct m as [|m].
    + destruct s; [|simpl in Hm; lia]. reflexivity.
    + cbn [trimLeftLoop]. destruct (leadingSpace s) as [e|] eqn:E; [|reflexivity].
      apply leadingSpace_Some in E as [Hin [r ->]].
      apply whiteSpace_nonempty in Hin.
      assert (0 < List.length e)%nat by (destruct e; [congruence | simpl; lia]).
      rewrite length_app in *. apply IH; rewrite length_skipn, length_app; lia.
Qed.

Lemma trimRightLoop_enough n :
  forall m s, (List.length s <= n)%nat -> (List.length s <= m)%nat ->
              trimRightLoop n s = trimRightLoop m s.
Proof.
  induction n as [|n IH]; intros m s Hn Hm.
  - destruct s; [|simpl in Hn; lia]. destruct m; reflexivity.
  - destruct m as [|m].
    + destruct s; [|simpl in Hm; lia]. reflexivity.
    + cbn [trimRightLoop]. destruct (trailingSpace s) as [e|] eqn:E; [|reflexivity].
      apply trailingSpace_Some in E as [Hin [r ->]].
      apply whiteSpace_nonempty in Hin.
      assert (0 < List.length e)%nat by (destruct e; [congruence | simpl; lia]).
      rewrite length_app in *. apply IH; rewrite length_firstn, length_app; lia.
Qed.

Lemma DecodeRune_width s :
  s <> [] -> 1 <= snd (Utf8.DecodeRuneInString s) <= 4.
Proof.
  destruct s as [|c0 rest]; [congruence|]. intros _.
  unfold Utf8.DecodeRuneInString.
  repeat first
    [ progress cbn [snd]
    | lia
    | match goal with
      | |- context [if ?b then _ else _] => destruct b
      | |- context [let (_, _) := ?p in _] => destruct p
      | |- context [match ?l with [] => _ | _ :: _ => _ end] => destruct l
      end ].
Qed.

Lemma runesLoop_enough n :
  forall m s, (List.length s <= n)%nat -> (List.length s <= m)%nat ->
              Utf8.runesLoop n s = Utf8.runesLoop m s.
Proof.
  induction n as [|n IH]; intros m s Hn Hm.
  - destruct s; [|simpl in Hn; lia]. destruct m; reflexivity.
  - destruct m as [|m].
    + destruct s; [|simpl in Hm; lia]. reflexivity.
    + cbn [Utf8.runesLoop]. destruct s as [|c s]; [reflexivity|].
      pose proof (DecodeRune_width (c :: s) ltac:(discriminate)) as Hw.
      destruct (Utf8.DecodeRuneInString (c :: s)) as [r size]. cbn [snd] in Hw.
      f_equal. apply IH; rewrite length_skipn; simpl List.length in *; lia.
Qed.

(** The runes of a string: its first rune, then the runes of the rest. *)
Lemma runes_equation c s :
  Utf8.runes (c :: s) =
  fst (Utf8.DecodeRuneInString (c :: s)) ::
  Utf8.runes (skipn (Z.to_nat (snd (Utf8.DecodeRuneInString (c :: s)))) (c :: s)).
Proof.
  unfold Utf8.runes. cbn [List.length Utf8.runesLoop].
  pose proof (DecodeRune_width (c :: s) ltac:(discriminate)) as Hw.
  destruct (Utf8.DecodeRuneInString (c :: s)) as [r size]. cbn [fst snd] in *.
  f_equal. apply runesLoop_enough; [|lia].
  rewrite length_skipn. cbn [List.length]. lia.
Qed.

End Fuel.

(** ** The scheduler's loop: what stops it and what does not *)

Section Loop.
Import Scheduler Time.

Variable jobDuration : nat -> Duration.
Variable cancelAt : option Z.
Variable pickDone : Z -> bool.

(** The loop returns only through the case of the context. *)
Lemma tickLoop_returns jobError turns s :
  forall made taken w err w',
    tickLoop jobError jobDuration cancelAt pickDone turns s made taken w
      = (Returned err, w') ->
    err = Some (lit "context canceled") /\
    exists tc, cancelAt = Some tc /\ tc <= clock w'.
Proof.
  induction turns as [|turns IH]; intros made taken w err w' H.
  - discriminate H.
  - cbn [tickLoop] in H.
    destruct (doneTaken cancelAt pickDone (clock w) _) as [done|] eqn:D.
    + injection H as <- <-. split; [reflexivity|].
      unfold doneTaken in D. destruct cancelAt as [tc|]; [|discriminate D].
      exists tc. split; [reflexivity|].
      destruct (_ || _); [|discriminate D]. injection D as <-. cbn [clock]. lia.
    + unfold runJob in H. cbn [clock started] in H. eapply IH. exact H.
Qed.

(** The loop never panics. *)
Lemma tickLoop_no_panic jobError turns s :
  forall made taken w,
    fst (tickLoop jobError jobDuration cancelAt pickDone turns s made taken w)
      <> Panicked.
Proof.
  induction turns as [|turns IH]; intros made taken w.
  - discriminate.
  - cbn [tickLoop].
    destruct (doneTaken cancelAt pickDone (clock w) _) as [done|].
    + discriminate.
    + unfold runJob. apply IH.
Qed.

(** What the job returns has no part in the loop. *)
Lemma tickLoop_errors_ignored jobError1 jobError2 turns s :
  forall made taken w,
    tickLoop jobError1 jobDuration cancelAt pickDone turns s made taken w =
    tickLoop jobError2 jobDuration cancelAt pickDone turns s made taken w.
Proof.
  induction turns as [|turns IH]; intros made taken w.
  - reflexivity.
  - cbn [tickLoop].
    destruct (doneTaken cancelAt pickDone (clock w) _) as [done|].
    + reflexivity.
    + unfold runJob. apply IH.
Qed.

(** The loop only adds to the starts of the job. *)
Lemma tickLoop_started jobError turns s :
  forall made taken w,
    exists more,
      started (snd (tickLoop jobError jobDuration cancelAt pickDone turns s made taken w))
      = started w ++ more.
Proof.
  induction turns as [|turns IH]; intros made taken w.
  - exists []. now rewrite app_nil_r.
  - cbn [tickLoop].
    destruct (doneTaken cancelAt pickDone (clock w) _) as [done|].
    + exists []. cbn [snd started]. now rewrite app_nil_r.
    + unfold runJob. cbn [clock started].
      match goal with
      | |- context [tickLoop _ _ _ _ turns s made ?r ?x] =>
          destruct (IH made r x) as [more Hm]
      end.
      rewrite Hm. cbn [started]. rewrite <- app_assoc. eexists. reflexivity.
Qed.

(** X1.  In scheduled mode [Start] returns for one reason only: the
    context was cancelled; it then returns the error of the context,
    never nil and never an error of the job.  By then the job has been
    run once at the instant of the call, whether or not the context was
    cancelled already. *)
Theorem Start_scheduled_returns_on_cancel_only (jobError : nat -> option gostring)
    (s : Scheduler) (turns : nat) (w : World) (err : option gostring) (w' : World) :
  runOnce s = false ->
  Start jobError jobDuration cancelAt pickDone s turns w = (Returned err, w') ->
  err = Some (lit "context canceled") /\
  (exists tc, cancelAt = Some tc /\ tc <= clock w') /\
  0 < interval s /\
  exists more, started w' = started w ++ clock w :: more.
Proof.
  intros Hm H. unfold Start in H. rewrite Hm in H.
  unfold runJob in H. cbn [clock started] in H.
  destruct (interval s <=? 0) eqn:Hi; [discriminate H|].
  apply Z.leb_gt in Hi.
  pose proof (tickLoop_started jobError turns s
                (clock w + Z.max 0 (jobDuration (List.length (started w))))
                (clock w + Z.max 0 (jobDuration (List.length (started w))))
                {| clock := clock w + Z.max 0 (jobDuration (List.length (started w)));
                   started := started w ++ [clock w] |}) as [more Hs].
  rewrite H in Hs. cbn [snd started] in Hs.
  apply tickLoop_returns in H as [He Hc].
  repeat split; auto.
  exists more. rewrite Hs, <- app_assoc. reflexivity.
Qed.

(** X2.  In scheduled mode the errors of the job change nothing: two
    jobs that take the same time and differ only in what they return
    are started at the same instants and [Start] ends the same way. *)
Theorem Start_scheduled_ignores_job_errors (jobError1 jobError2 : nat -> option gostring)
    (s : Scheduler) (turns : nat) (w : World) :
  runOnce s = false ->
  Start jobError1 jobDuration cancelAt pickDone s turns w =
  Start jobError2 jobDuration cancelAt pickDone s turns w.
Proof.
  intros Hm. unfold Start. rewrite Hm. unfold runJob.
  destruct (interval s <=? 0); [reflexivity|].
  apply tickLoop_errors_ignored.
Qed.

End Loop.

(** Witness: a daily scheduler started at the epoch whose context is
    cancelled five hours later. *)
Lemma Start_scheduled_returns_on_cancel_only_witness :
  Some (lit "context canceled") = Some (lit "context canceled") /\
  (exists tc, Some (5 * Time.Hour) = Some tc /\ tc <= 5 * Time.Hour) /\
  0 < Scheduler.DailyInterval /\
  exists more, [0] = [] ++ 0 :: more.
Proof.
  exact (Start_scheduled_returns_on_cancel_only
           (fun _ => Time.Second) (Some (5 * Time.Hour)) (fun _ => false)
           (fun _ => Some (lit "feed down"))
           (Scheduler.NewScheduler Scheduler.DailyInterval false) 1
           {| Scheduler.clock := 0; Scheduler.started := [] |}
           (Some (lit "context canceled"))
           {| Scheduler.clock := 5 * Time.Hour; Scheduler.started := [0] |}
           eq_refl eq_refl).
Defined.

(** Witness: a job that always fails and one that never does. *)
Lemma Start_scheduled_ignores_job_errors_witness :
  let s := Scheduler.NewScheduler Scheduler.DailyInterval false in
  let w := {| Scheduler.clock := 0; Scheduler.started := [] |} in
  Scheduler.Start (fun _ => Some (lit "feed down")) (fun _ => Time.Second)
    (Some (50 * Time.Hour)) (fun _ => false) s 5 w =
  Scheduler.Start (fun _ => None) (fun _ => Time.Second)
    (Some (50 * Time.Hour)) (fun _ => false) s 5 w.
Proof.
  exact (Start_scheduled_ignores_job_errors
           (fun _ => Time.Second) (Some (50 * Time.Hour)) (fun _ => false)
           (fun _ => Some (lit "feed down")) (fun _ => None)
           (Scheduler.NewScheduler Scheduler.DailyInterval false) 5
           {| Scheduler.clock := 0; Scheduler.started := [] |} eq_refl).
Defined.

(** ** The scheduler's loop: a live context, a cancelled one *)

Section Cancel.
Import Scheduler Time.

Variable jobError : nat -> option gostring.
Variable jobDuration : nat -> Duration.
Variable pickDone : Z -> bool.

(** With a context that is never cancelled every turn of the loop runs
    the job, however long the job takes. *)
Lemma tickLoop_live turns s :
  forall made taken w,
    exists w',
      tickLoop jobError jobDuration None pickDone turns s made taken w = (Turning, w') /\
      List.length (started w') = (List.length (started w) + turns)%nat.
Proof.
  induction turns as [|turns IH]; intros made taken w.
  - exists w. split; [reflexivity | lia].
  - cbn [tickLoop doneTaken]. unfold runJob. cbn [clock started].
    match goal with
    | |- context [tickLoop _ _ _ _ turns s made ?r ?x] =>
        destruct (IH made r x) as (w' & Hrun & Hlen)
    end.
    exists w'. split; [exact Hrun|]. rewrite Hlen. cbn [started].
    rewrite length_app. cbn [List.length]. lia.
Qed.

(** X3.  In scheduled mode, with a positive interval and a context that
    is never cancelled, [Start] does not return: after any number of
    turns of its loop it is still turning, and it has run the job once
    at the call and once in every turn. *)
Theorem Start_scheduled_runs_forever (s : Scheduler) (turns : nat) (w : World) :
  runOnce s = false ->
  0 < interval s ->
  exists w',
    Start jobError jobDuration None pickDone s turns w = (Turning, w') /\
    List.length (started w') = (List.length (started w) + 1 + turns)%nat.
Proof.
  intros Hm Hi. unfold Start. rewrite Hm. unfold runJob. cbn [clock started].
  apply Z.leb_gt in Hi. rewrite Hi.
  match goal with
  | |- context [tickLoop _ _ _ _ turns s ?m ?r ?x] =>
      destruct (tickLoop_live turns s m r x) as (w' & Hrun & Hlen)
  end.
  exists w'. split; [exact Hrun|]. rewrite Hlen. cbn [started].
  rewrite length_app. cbn [List.length]. lia.
Qed.

(** With jobs shorter than the interval, a cancelled context ends the
    loop within the ticks up to the cancellation, and no job is started
    after it. *)
Lemma tickLoop_cancel s made tc :
  0 < interval s ->
  (forall k, 0 <= jobDuration k < interval s) ->
  forall n j w turns,
    made + Z.of_nat j * interval s <= clock w < made + (Z.of_nat j + 1) * interval s ->
    tc < made + (Z.of_nat j + 1 + Z.of_nat n) * interval s ->
    (n < turns)%nat ->
    exists w',
      tickLoop jobError jobDuration (Some tc) pickDone turns s made
        (made + Z.of_nat j * interval s) w
        = (Returned (Some (lit "context canceled")), w') /\
      forall t, In t (started w') -> In t (started w) \/ t <= tc.
Proof.
  intros HI Hdur. induction n as [|n IH]; intros j w turns Hc Htc Hn;
    (destruct turns as [|turns]; [lia|]); cbn [tickLoop].
  all: assert (Hk : (clock w - made) / interval s = Z.of_nat j)
    by (symmetry;
        apply (Z.div_unique _ _ _ (clock w - made - Z.of_nat j * interval s)); lia).
  all: rewrite Hk, Z.ltb_irrefl; unfold doneTaken.
  - assert (Hd : (Z.max tc (clock w) <? made + (Z.of_nat j + 1) * interval s) = true)
      by (apply Z.ltb_lt; lia).
    rewrite Hd. cbn [orb]. eexists. split; [reflexivity|]. cbn [started]. auto.
  - destruct ((Z.max tc (clock w) <? made + (Z.of_nat j + 1) * interval s)
              || ((Z.max tc (clock w) =? made + (Z.of_nat j + 1) * interval s)
                  && pickDone (made + (Z.of_nat j + 1) * interval s))) eqn:Hd.
    + eexists. split; [reflexivity|]. cbn [started]. auto.
    + apply orb_false_iff in Hd as [Hd _]. apply Z.ltb_ge in Hd.
      unfold runJob. cbn [clock started].
      specialize (Hdur (List.length (started w))) as Hk'.
      rewrite Z.max_r by lia.
      replace (made + (Z.of_nat j + 1) * interval s)
        with (made + Z.of_nat (S j) * interval s) in * by lia.
      destruct (IH (S j)
                  {| clock := made + Z.of_nat (S j) * interval s
                              + jobDuration (List.length (started w));
                     started := started w ++ [made + Z.of_nat (S j) * interval s] |}
                  turns) as (w' & Hrun & Hst).
      * cbn [clock]. lia.
      * lia.
      * lia.
      * exists w'. split; [exact Hrun|]. intros t Ht.
        destruct (Hst t Ht) as [Hin | Hle]; [|now right].
        cbn [started] in Hin. apply in_app_or in Hin as [Hin | [<- | []]]; [now left|].
        right. lia.
Qed.

(** X4.  In scheduled mode, with a positive interval and jobs shorter
    than it, a context cancelled at some instant makes [Start] return
    the error of the context once its loop has turned often enough, and
    apart from the run at the call no job is started after that
    instant. *)
Theorem Start_stops_after_cancel (s : Scheduler) (w : World) (tc : Z) :
  runOnce s = false ->
  0 < interval s ->
  (forall k, 0 <= jobDuration k < interval s) ->
  exists turns0, forall turns, (turns0 <= turns)%nat ->
    exists w',
      Start jobError jobDuration (Some tc) pickDone s turns w
        = (Returned (Some (lit "context canceled")), w') /\
      forall t, In t (started w') -> In t (started w) \/ t = clock w \/ t <= tc.
Proof.
  intros Hm Hi Hdur.
  set (made := clock w + jobDuration (List.length (started w))).
  exists (S (Z.to_nat (Z.max 0 (tc - made)))). intros turns Ht.
  unfold Start. rewrite Hm. unfold runJob. cbn [clock started].
  assert (Hi' : (interval s <=? 0) = false) by (apply Z.leb_gt; lia).
  rewrite Hi'. specialize (Hdur (List.length (started w))) as Hd0.
  rewrite Z.max_r by lia. fold made.
  destruct (tickLoop_cancel s made tc Hi Hdur (Z.to_nat (Z.max 0 (tc - made))) 0
              {| clock := made; started := started w ++ [clock w] |} turns)
    as (w' & Hrun & Hst).
  - cbn [clock]. change (Z.of_nat 0) with 0. lia.
  - change (Z.of_nat 0) with 0. rewrite Z2Nat.id by lia. nia.
  - lia.
  - change (Z.of_nat 0) with 0 in Hrun. rewrite Z.mul_0_l, Z.add_0_r in Hrun.
    exists w'. split; [exact Hrun|]. intros t Hin.
    destruct (Hst t Hin) as [Hin' | Hle]; [|auto].
    cbn [started] in Hin'. apply in_app_or in Hin' as [Hin' | [<- | []]]; auto.
Qed.

(** X5.  A context cancelled while [StartAt] waits for the first run
    makes it return the error of the context without running the job,
    in either mode. *)
Theorem StartAt_cancelled_while_waiting (s : Scheduler) (firstRun : Time)
    (turns : nat) (w : World) (tc : Z) :
  let d := Sub firstRun (ofUnixNano (clock w)) in
  let delay := if d <? 0 then d + 24 * Hour else d in
  0 < delay ->
  tc < clock w + delay ->
  StartAt jobError jobDuration (Some tc) pickDone s firstRun turns w
  = (Returned (Some (lit "context canceled")),
     {| clock := Z.max tc (clock w); started := started w |}).
Proof.
  intros d delay Hpos Htc. unfold StartAt. fold d. fold delay.
  unfold doneTaken. rewrite (Z.max_r 0 delay) by lia.
  assert (Hd : (Z.max tc (clock w) <? clock w + delay) = true)
    by (apply Z.ltb_lt; lia).
  rewrite Hd. reflexivity.
Qed.

End Cancel.

(** Witness: four starts of a daily job after three turns. *)
Lemma Start_scheduled_runs_forever_witness :
  exists w',
    Scheduler.Start (fun _ => None) (fun _ => Time.Second) None (fun _ => false)
      (Scheduler.NewScheduler Scheduler.DailyInterval false) 3
      {| Scheduler.clock := 0; Scheduler.started := [] |} = (Scheduler.Turning, w') /\
    List.length (Scheduler.started w') = (0 + 1 + 3)%nat.
Proof.
  exact (Start_scheduled_runs_forever (fun _ => None) (fun _ => Time.Second)
           (fun _ => false) (Scheduler.NewScheduler Scheduler.DailyInterval false) 3
           {| Scheduler.clock := 0; Scheduler.started := [] |} eq_refl eq_refl).
Defined.

(** Witness: a daily job of one second, the context cancelled after
    fifty hours. *)
Lemma Start_stops_after_cancel_witness :
  let s := Scheduler.NewScheduler Scheduler.DailyInterval false in
  let w := {| Scheduler.clock := 0; Scheduler.started := [] |} in
  exists turns0, forall turns, (turns0 <= turns)%nat ->
    exists w',
      Scheduler.Start (fun _ => None) (fun _ => Time.Second) (Some (50 * Time.Hour))
        (fun _ => false) s turns w
        = (Scheduler.Returned (Some (lit "context canceled")), w') /\
      forall t, In t (Scheduler.started w') ->
        In t (Scheduler.started w) \/ t = Scheduler.clock w \/ t <= 50 * Time.Hour.
Proof.
  apply (Start_stops_after_cancel (fun _ => None) (fun _ => Time.Second) (fun _ => false)
           (Scheduler.NewScheduler Scheduler.DailyInterval false)
           {| Scheduler.clock := 0; Scheduler.started := [] |} (50 * Time.Hour)).
  - reflexivity.
  - reflexivity.
  - intros k. vm_compute. split; [discriminate | reflexivity].
Defined.

(** Witness: the first run is due in an hour and the context is
    cancelled after half of it. *)
Lemma StartAt_cancelled_while_waiting_witness :
  Scheduler.StartAt (fun _ => None) (fun _ => Time.Second)
    (Some (10 * Time.Hour + 30 * Time.Minute)) (fun _ => false)
    (Scheduler.NewScheduler Scheduler.DailyInterval false)
    (Time.ofUnixNano (11 * Time.Hour)) 3
    {| Scheduler.clock := 10 * Time.Hour; Scheduler.started := [] |}
  = (Scheduler.Returned (Some (lit "context canceled")),
     {| Scheduler.clock := Z.max (10 * Time.Hour + 30 * Time.Minute) (10 * Time.Hour);
        Scheduler.started := [] |}).
Proof.
  apply (StartAt_cancelled_while_waiting (fun _ => None) (fun _ => Time.Second)
           (fun _ => false) (Scheduler.NewScheduler Scheduler.DailyInterval false)
           (Time.ofUnixNano (11 * Time.Hour)) 3
           {| Scheduler.clock := 10 * Time.Hour; Scheduler.started := [] |}
           (10 * Time.Hour + 30 * Time.Minute)).
  - reflexivity.
  - reflexivity.
Defined.

(** ** Schedules that are accepted, and how far away the next run is *)

Section Accepted.
Import Utf8 Fmt CronSpec Scheduler Time.

(** X6.  [ParseCron] accepts exactly the strings of five fields on one
    line whose first field is an integer within 0..59 and whose second
    is an integer within 0..23, and returns the second and the first,
    in this order: the hour and the minute. *)
Theorem ParseCron_accepts_exactly (cronExpr : gostring) (hour minute : Z) :
  ParseCron cronExpr = Ok (hour, minute) <->
  FiveFields (runes cronExpr) minute hour /\ 0 <= hour <= 23 /\ 0 <= minute <= 59.
Proof.
  split.
  - intros H. now apply ParseCron_sound.
  - intros (HF & Hh & Hm). now apply ParseCron_complete.
Qed.

Variable loc : Location.
Variable off : Z.
Hypothesis fixed : forall u, offset (loc u) = off.

Lemma UnixNano_ofUnixNano n : UnixNano (ofUnixNano n) = n.
Proof.
  unfold UnixNano, ofUnixNano. cbn [sec nsec].
  assert (HS : Second = 1000000000) by reflexivity.
  pose proof (Z.div_mod n Second ltac:(lia)). lia.
Qed.

(** The instant that [NextRunTime] returns, by its distance from now. *)
Lemma NextRunTime_distance now cronExpr next h m :
  0 <= nsec now < Second ->
  ParseCron cronExpr = Ok (h, m) ->
  NextRunTime loc now cronExpr = Ok next ->
  nsec next = 0 /\
  (exists day, sec next = day * 86400 + h * 3600 + m * 60 - off) /\
  UnixNano now <= UnixNano next < UnixNano now + 24 * Hour.
Proof.
  intros Hn HP H. pose proof (ParseCron_sound _ _ _ HP) as (_ & Hh & Hm).
  unfold NextRunTime in H. rewrite HP in H.
  rewrite (Date_fixed loc off fixed) in H.
  rewrite (After_clock loc off fixed now h m Hn Hh Hm) in H.
  assert (HS : Second = 1000000000) by reflexivity.
  assert (HH : 24 * Hour = 86400 * Second) by reflexivity.
  unfold clockOfDay, localSec in H. rewrite fixed in H.
  unfold Day, localSec in H. rewrite fixed in H.
  pose proof (Z.div_mod (sec now + off) 86400 ltac:(lia)) as Hdm.
  pose proof (Z.mod_pos_bound (sec now + off) 86400 ltac:(lia)) as Hb.
  set (q := (sec now + off) / 86400) in *. set (r := (sec now + off) mod 86400) in *.
  destruct (r * Second + nsec now <=? (h * 3600 + m * 60) * Second) eqn:E;
    cbn [negb] in H.
  - apply Z.leb_le in E. injection H as <-. cbn [nsec sec]. unfold UnixNano.
    cbn [sec nsec]. rewrite HH.
    split; [reflexivity|]. split; [exists q; reflexivity|]. nia.
  - apply Z.leb_gt in E. rewrite Add_day in H. injection H as <-.
    cbn [nsec sec]. unfold UnixNano. cbn [sec nsec]. rewrite HH.
    split; [reflexivity|]. split; [exists (q + 1); lia|]. nia.
Qed.

(** X7.  In a zone of fixed offset the instant that [NextRunTime]
    returns is never in the past and less than 24 hours away. *)
Theorem NextRunTime_within_a_day (now : Time) (cronExpr : gostring) (next : Time) :
  0 <= nsec now < Second ->
  NextRunTime loc now cronExpr = Ok next ->
  UnixNano now <= UnixNano next < UnixNano now + 24 * Hour.
Proof.
  intros Hn H.
  destruct (ParseCron cronExpr) as [[h m]|e] eqn:HP.
  - now destruct (NextRunTime_distance now cronExpr next h m Hn HP H) as (_ & _ & Hd).
  - unfold NextRunTime in H. rewrite HP in H. discriminate H.
Qed.

End Accepted.

Section FirstRun.
Import Utf8 Fmt CronSpec Scheduler Time.

Variable jobError : nat -> option gostring.
Variable jobDuration : nat -> Duration.
Variable pickDone : Z -> bool.
Variable loc : Location.
Variable off : Z.
Hypothesis fixed : forall u, offset (loc u) = off.

(** Whatever its mode, [Start] runs the job at the instant of the call. *)
Lemma Start_runs_at_call cancelAt s turns w :
  exists more,
    started (snd (Start jobError jobDuration cancelAt pickDone s turns w))
    = started w ++ clock w :: more.
Proof.
  unfold Start, runJob. cbn [clock started].
  destruct (runOnce s); [exists []; reflexivity|].
  destruct (interval s <=? 0); [exists []; reflexivity|].
  match goal with
  | |- context [tickLoop _ _ _ _ turns s ?m ?r ?x] =>
      destruct (tickLoop_started jobDuration cancelAt pickDone jobError turns s m r x)
        as [more Hs]
  end.
  rewrite Hs. cbn [started]. rewrite <- app_assoc. exists more. reflexivity.
Qed.

(** X8.  [StartAt] on what [NextRunTime] returned, as [main] calls the
    two, with a live context and a local zone of fixed offset: when
    less than 24 hours pass between the two calls, the first execution
    of the job starts at the hour and the minute of the schedule on the
    local clock, and not before [StartAt] is called.  It is the instant
    that [NextRunTime] returned unless that has passed by then, and
    the same time of the next day if it has. *)
Theorem StartAt_NextRunTime_first_run (s : Scheduler) (cronExpr : gostring)
    (hour minute : Z) (next : Time) (lag : Z) (turns : nat) (w : World) :
  ParseCron cronExpr = Ok (hour, minute) ->
  NextRunTime loc (ofUnixNano (clock w - lag)) cronExpr = Ok next ->
  0 <= lag < 24 * Hour ->
  let first :=
    if clock w <=? UnixNano next then UnixNano next else UnixNano next + 24 * Hour in
  (exists more,
     started (snd (StartAt jobError jobDuration None pickDone s next turns w))
     = started w ++ first :: more) /\
  clock w <= first /\
  Hour_ loc (ofUnixNano first) = hour /\
  Minute_ loc (ofUnixNano first) = minute /\
  Second_ loc (ofUnixNano first) = 0.
Proof.
  intros HP HN Hlag first.
  assert (HS : Second = 1000000000) by reflexivity.
  assert (HH : 24 * Hour = 86400 * Second) by reflexivity.
  assert (Hn : 0 <= nsec (ofUnixNano (clock w - lag)) < Second).
  { cbn [ofUnixNano nsec]. apply Z.mod_pos_bound. lia. }
  destruct (NextRunTime_distance loc off fixed _ _ _ _ _ Hn HP HN)
    as (Hns & (day & Hsec) & Hd).
  rewrite UnixNano_ofUnixNano in Hd.
  pose proof (ParseCron_sound _ _ _ HP) as (_ & Hh & Hm).
  assert (Hsub : Sub next (ofUnixNano (clock w)) = UnixNano next - clock w).
  { unfold Sub.
    replace ((sec next - sec (ofUnixNano (clock w))) * Second
             + (nsec next - nsec (ofUnixNano (clock w))))
      with (UnixNano next - UnixNano (ofUnixNano (clock w)))
      by (unfold UnixNano; lia).
    rewrite UnixNano_ofUnixNano.
    assert (Hlo : (UnixNano next - clock w <? minDuration) = false)
      by (apply Z.ltb_ge; unfold minDuration; lia).
    assert (Hhi : (maxDuration <? UnixNano next - clock w) = false)
      by (apply Z.ltb_ge; unfold maxDuration; lia).
    now rewrite Hlo, Hhi. }
  assert (Hfire : StartAt jobError jobDuration None pickDone s next turns w
                  = Start jobError jobDuration None pickDone s turns
                      {| clock := first; started := started w |}).
  { unfold StartAt. rewrite Hsub. cbn [doneTaken]. f_equal. f_equal. unfold first.
    destruct (clock w <=? UnixNano next) eqn:E.
    - apply Z.leb_le in E.
      assert (E' : (UnixNano next - clock w <? 0) = false) by (apply Z.ltb_ge; lia).
      rewrite E'. lia.
    - apply Z.leb_gt in E.
      assert (E' : (UnixNano next - clock w <? 0) = true) by (apply Z.ltb_lt; lia).
      rewrite E'. lia. }
  assert (Hfirst : ofUnixNano first
                   = {| sec := (if clock w <=? UnixNano next then day else day + 1) * 86400
                               + hour * 3600 + minute * 60 - off;
                        nsec := 0 |}).
  { unfold first. destruct next as [sn nn]. cbn [sec nsec] in Hns, Hsec. subst nn.
    destruct (clock w <=? UnixNano {| sec := sn; nsec := 0 |}).
    - unfold UnixNano, ofUnixNano. cbn [sec nsec]. rewrite Z.add_0_r.
      rewrite Z.div_mul, Z.mod_mul by lia. now rewrite Hsec.
    - change (ofUnixNano (UnixNano {| sec := sn; nsec := 0 |} + 24 * Hour))
        with (Add {| sec := sn; nsec := 0 |} (24 * Hour)).
      rewrite Add_day. f_equal. lia. }
  split; [|split].
  - rewrite Hfire.
    destruct (Start_runs_at_call None s turns {| clock := first; started := started w |})
      as [more Hs].
    exists more. exact Hs.
  - unfold first. destruct (clock w <=? UnixNano next) eqn:E.
    + now apply Z.leb_le in E.
    + lia.
  - rewrite Hfirst.
    destruct (civil_fields loc off fixed
                (if clock w <=? UnixNano next then day else day + 1) hour minute 0 Hh Hm)
      as (_ & H2 & H3 & H4).
    auto.
Qed.

End FirstRun.

(** Witness: half past eight, accepted in either direction. *)
Lemma ParseCron_accepts_exactly_witness :
  Scheduler.ParseCron (lit "30 8 * * *") = Ok (8, 30) /\
  (CronSpec.FiveFields (Utf8.runes (lit "30 8 * * *")) 30 8 /\
   0 <= 8 <= 23 /\ 0 <= 30 <= 59).
Proof.
  assert (HF : CronSpec.FiveFields (Utf8.runes (lit "30 8 * * *")) 30 8).
  { exists [], [51; 48], [32], [56], [32], [42], [32], [42], [32], [42], [].
    repeat split; try reflexivity; try discriminate.
    - exists [], [51; 48]. repeat split; auto; discriminate.
    - exists [], [56]. repeat split; auto; discriminate. }
  split.
  - apply (proj2 (ParseCron_accepts_exactly (lit "30 8 * * *") 8 30)).
    split; [exact HF | lia].
  - apply (proj1 (ParseCron_accepts_exactly (lit "30 8 * * *") 8 30)).
    vm_compute. reflexivity.
Defined.

(** Witness: nine o'clock asked for at ten is 23 hours away. *)
Lemma NextRunTime_within_a_day_witness :
  Time.UnixNano (Time.ofUnixNano (10 * Time.Hour))
  <= Time.UnixNano (Time.ofUnixNano (33 * Time.Hour))
  < Time.UnixNano (Time.ofUnixNano (10 * Time.Hour)) + 24 * Time.Hour.
Proof.
  apply (NextRunTime_within_a_day Time.UTC 0 (fun _ => eq_refl)
           (Time.ofUnixNano (10 * Time.Hour)) (lit "0 9 * * *")
           (Time.ofUnixNano (33 * Time.Hour))).
  - vm_compute. split; [discriminate | reflexivity].
  - vm_compute. reflexivity.
Defined.

(** Witness: nine o'clock computed at 08:59:59, [StartAt] called two
    seconds later, at 09:00:01: the first run is at nine the next day. *)
Lemma StartAt_NextRunTime_first_run_witness :
  let w := {| Scheduler.clock := 9 * Time.Hour + Time.Second;
              Scheduler.started := [] |} in
  let next := Time.ofUnixNano (9 * Time.Hour) in
  let first := 33 * Time.Hour in
  (exists more,
     Scheduler.started
       (snd (Scheduler.StartAt (fun _ => None) (fun _ => Time.Second) None
               (fun _ => false) (Scheduler.NewScheduler Scheduler.DailyInterval false)
               next 2 w))
     = Scheduler.started w ++ first :: more) /\
  Scheduler.clock w <= first /\
  Time.Hour_ Time.UTC (Time.ofUnixNano first) = 9 /\
  Time.Minute_ Time.UTC (Time.ofUnixNano first) = 0 /\
  Time.Second_ Time.UTC (Time.ofUnixNano first) = 0.
Proof.
  apply (StartAt_NextRunTime_first_run (fun _ => None) (fun _ => Time.Second)
           (fun _ => false) Time.UTC 0 (fun _ => eq_refl)
           (Scheduler.NewScheduler Scheduler.DailyInterval false)
           (lit "0 9 * * *") 9 0 (Time.ofUnixNano (9 * Time.Hour)) (2 * Time.Second) 2
           {| Scheduler.clock := 9 * Time.Hour + Time.Second; Scheduler.started := [] |}).
  - vm_compute. reflexivity.
  - vm_compute. reflexivity.
  - vm_compute. split; [discriminate | reflexivity].
Defined.

(** ** cleanHTML adds no text *)

Section NoText.
Import Strings Rss ItemSpec TextSpec.

Lemma subseq_filter (f : ascii -> bool) a b :
  subseq a b -> subseq (filter f a) (filter f b).
Proof.
  induction 1 as [|c a b H IH|c a b H IH]; cbn [filter].
  - apply subseq_nil.
  - destruct (f c); [apply subseq_skip|]; exact IH.
  - destruct (f c); [apply subseq_keep|]; exact IH.
Qed.

Lemma text_app a b : text (a ++ b) = text a ++ text b.
Proof. apply filter_app. Qed.

(** A replacement whose text is within the text it replaces leaves
    text within the text there was. *)
Lemma replaceLoop_text fuel s old new :
  subseq (text new) (text old) ->
  subseq (text (replaceLoop fuel s old new)) (text s).
Proof.
  intros Hno. revert s. induction fuel as [|fuel IH]; intros s; cbn [replaceLoop].
  - apply subseq_refl.
  - destruct (indexNat s old) as [j|] eqn:Ej; [|apply subseq_refl].
    pose proof (indexNat_split _ _ _ Ej) as Hs.
    remember (firstn j s) as a eqn:Ha.
    remember (skipn (j + List.length old) s) as r eqn:Hr.
    rewrite Hs, !text_app. apply subseq_app; [apply subseq_refl|].
    apply subseq_app; [exact Hno | apply IH].
Qed.

Lemma replaceLoop_length fuel s old new :
  (List.length new <= List.length old)%nat ->
  (List.length (replaceLoop fuel s old new) <= List.length s)%nat.
Proof.
  intros Hno. revert s. induction fuel as [|fuel IH]; intros s; cbn [replaceLoop].
  - lia.
  - destruct (indexNat s old) as [j|] eqn:Ej; [|lia].
    pose proof (indexNat_split _ _ _ Ej) as Hs.
    remember (firstn j s) as a eqn:Ha.
    remember (skipn (j + List.length old) s) as r eqn:Hr.
    specialize (IH r). rewrite Hs. rewrite !length_app. lia.
Qed.

(** A tag replaced by a newline. *)
Lemma ReplaceAll_newline s old :
  old <> [] ->
  subseq (text (ReplaceAll s old [nl])) (text s) /\
  (List.length (ReplaceAll s old [nl]) <= List.length s)%nat.
Proof.
  intros Ho. unfold ReplaceAll.
  destruct (eqb old [nl]); [split; [apply subseq_refl | lia]|].
  destruct old as [|o old]; [congruence|].
  split.
  - apply replaceLoop_text. cbn [text filter]. rewrite Ascii.eqb_refl. cbn [negb].
    apply subseq_nil_l.
  - apply replaceLoop_length. cbn [List.length]. lia.
Qed.

(** X9.  [cleanHTML] adds no text: but for newlines, its result is what
    is left of its argument when characters are taken out of it, and it
    is never longer than its argument. *)
Theorem cleanHTML_adds_no_text (s : gostring) :
  subseq (text (cleanHTML s)) (text s) /\
  (List.length (cleanHTML s) <= List.length s)%nat.
Proof.
  unfold cleanHTML.
  assert (Hlit : forall t, t <> ""%string -> lit t <> []).
  { intros [|c t] Ht; [congruence | discriminate]. }
  destruct (ReplaceAll_newline s (lit "<br>")) as [A1 B1]; [now apply Hlit|].
  set (s1 := ReplaceAll s (lit "<br>") [nl]) in *.
  destruct (ReplaceAll_newline s1 (lit "<br/>")) as [A2 B2]; [now apply Hlit|].
  set (s2 := ReplaceAll s1 (lit "<br/>") [nl]) in *.
  destruct (ReplaceAll_newline s2 (lit "<br />")) as [A3 B3]; [now apply Hlit|].
  set (s3 := ReplaceAll s2 (lit "<br />") [nl]) in *.
  destruct (ReplaceAll_newline s3 (lit "<p>")) as [A4 B4]; [now apply Hlit|].
  set (s4 := ReplaceAll s3 (lit "<p>") [nl]) in *.
  destruct (ReplaceAll_newline s4 (lit "</p>")) as [A5 B5]; [now apply Hlit|].
  set (s5 := ReplaceAll s4 (lit "</p>") [nl]) in *.
  pose proof (stripTags_subseq (List.length s5) s5) as A6.
  set (s6 := stripTags (List.length s5) s5) in *.
  pose proof (TrimSpace_subseq s6) as A7.
  set (s7 := TrimSpace s6) in *.
  pose proof (collapse_subseq (List.length s7) s7) as A8.
  set (s8 := collapseNewlines (List.length s7) s7) in *.
  assert (A : subseq s8 s5) by (eapply subseq_trans; [|eapply subseq_trans]; eassumption).
  split.
  - apply (subseq_filter (fun c => negb (Ascii.eqb c nl))) in A. fold (text s8) in A.
    fold (text s5) in A.
    repeat (eapply subseq_trans; [eassumption|]). apply subseq_refl.
  - apply subseq_length in A. lia.
Qed.

End NoText.

(** ** parseItem: what its fields are made of *)

Section ItemFields.
Import Strings Rss ItemSpec.

Lemma first_occurrence (c : ascii) l :
  In c l -> exists a b, l = a ++ c :: b /\ ~ In c a.
Proof.
  induction l as [|x l IH]; intros H; [destruct H|].
  destruct (ascii_dec x c) as [->|Hx].
  - exists [], l. split; [reflexivity | intros []].
  - destruct H as [H|H]; [congruence|].
    destruct (IH H) as (a & b & -> & Hn).
    exists (x :: a), b. split; [reflexivity|].
    intros [E|E]; [congruence | contradiction].
Qed.

(** X10.  Whatever the item, the year that [parseItem] extracts holds
    no colon and has no white space at either end; the year followed by
    the title is what is left of the item's title when characters are
    taken out of it; the description holds no tag; and the link and the
    raw item are the item's. *)
Theorem parseItem_fields (item : Item) :
  let event := parseItem item in
  ~ In colon (Year event) /\
  ~ LeadingWhite (Year event) /\ ~ TrailingWhite (Year event) /\
  subseq (Year event ++ Title event) (Item_Title item) /\
  ~ HasTag (Description event) /\
  Link event = Item_Link item /\ RawItem event = item.
Proof.
  intros event.
  assert (Hd : Description event = cleanHTML (Item_Description item)
               /\ Link event = Item_Link item /\ RawItem event = item).
  { unfold event, parseItem.
    destruct (SplitN (Item_Title item) (lit ":") 2) as [|p0 [|p1 [|p2 ps]]];
      destruct (Item_Categories item); repeat split. }
  destruct Hd as (Hd & Hl & Hr).
  assert (Hyt : (Year event = [] /\ Title event = Item_Title item) \/
                exists before after,
                  Item_Title item = before ++ colon :: after /\ ~ In colon before /\
                  Year event = TrimSpace before /\ Title event = TrimSpace after).
  { destruct (in_dec ascii_dec colon (Item_Title item)) as [Hin|Hn].
    - right. destruct (first_occurrence _ _ Hin) as (before & after & Ht & Hb).
      exists before, after. split; [exact Ht|]. split; [exact Hb|].
      unfold event, parseItem. change (lit ":") with [colon].
      rewrite Ht, (SplitN_colon_found _ _ Hb).
      destruct (Item_Categories item); split; reflexivity.
    - left. unfold event, parseItem. change (lit ":") with [colon].
      rewrite (SplitN_colon_absent _ Hn).
      destruct (Item_Categories item); split; reflexivity. }
  assert (Hempty : ~ LeadingWhite [] /\ ~ TrailingWhite []).
  { split; intros (e & r & He & Hs); pose proof (whiteSpace_nonempty e He) as Hne;
      destruct e; try congruence; try discriminate Hs.
    destruct r; discriminate Hs. }
  rewrite Hd.
  destruct Hyt as [[Hy Ht] | (before & after & Hi & Hb & Hy & Ht)]; rewrite Hy, Ht.
  - repeat split; try tauto.
    + apply subseq_refl.
    + apply (cleanHTML_clean (Item_Description item)).
  - destruct (TrimSpace_trimmed before) as [T1 T2].
    repeat split; auto.
    + intros Hin. apply Hb. eapply subseq_In; [apply TrimSpace_subseq | exact Hin].
    + rewrite Hi. apply subseq_app; [apply TrimSpace_subseq|].
      apply subseq_skip. apply TrimSpace_subseq.
    + apply (cleanHTML_clean (Item_Description item)).
Qed.

End ItemFields.

(** ** FetchAndParse: when it succeeds *)

Section FetchOne.
Import Strings Rss.

Variable Net : Type.
Variable newRequest : gostring -> result unit.
Variable clientDo : gostring -> Net -> result Response * Net.
Variable gzipNewReader : result gostring -> result (result gostring).
Variable xmlUnmarshal : gostring -> result Feed.

Lemma parseItem_RawItem items : map RawItem (map parseItem items) = items.
Proof.
  induction items as [|item items IH]; [reflexivity|].
  cbn [map]. f_equal; [|exact IH].
  unfold parseItem.
  destruct (SplitN (Item_Title item) (lit ":") 2) as [|p0 [|p1 [|p2 ps]]];
    destruct (Item_Categories item); reflexivity.
Qed.

(** X11.  [FetchAndParse] succeeds exactly when the request could be
    made, its one round trip brought a response of status 200 whose
    body (behind the gzip reader when the response says gzip, as it is
    otherwise) could be read to its end, and the XML decoder accepted
    what was read; the events are then the items of the feed, one for
    one and in their order, each holding its item. *)
Theorem FetchAndParse_succeeds_exactly (url : gostring) (net : Net)
    (events : list HistoricalEvent) (net' : Net) :
  FetchAndParse Net newRequest clientDo gzipNewReader xmlUnmarshal url net
    = (Ok events, net') <->
  exists resp body feed,
    isErr (newRequest url) = false /\
    clientDo url net = (Ok resp, net') /\
    StatusCode resp = 200 /\
    (if eqb (ContentEncoding resp) (lit "gzip")
     then gzipNewReader (Body resp) = Ok (Ok body)
     else Body resp = Ok body) /\
    xmlUnmarshal body = Ok feed /\
    events = map parseItem (Channel_Items (Feed_Channel feed)) /\
    map RawItem events = Channel_Items (Feed_Channel feed).
Proof.
  unfold FetchAndParse, fetchFeed. split.
  - intros H.
    destruct (newRequest url) as [u|e]; [|discriminate H].
    destruct (clientDo url net) as [[resp|e] net1]; [|discriminate H].
    destruct (StatusCode resp =? 200) eqn:Hs; cbn [negb] in H; [|discriminate H].
    apply Z.eqb_eq in Hs.
    destruct (eqb (ContentEncoding resp) (lit "gzip")) eqn:Hg.
    + destruct (gzipNewReader (Body resp)) as [[body|e]|e] eqn:Hz; try discriminate H.
      destruct (xmlUnmarshal body) as [feed|e] eqn:Hx; [|discriminate H].
      injection H as <- <-. exists resp, body, feed. rewrite Hg.
      repeat split; auto. apply parseItem_RawItem.
    + destruct (Body resp) as [body|e] eqn:Hb; [|discriminate H].
      destruct (xmlUnmarshal body) as [feed|e] eqn:Hx; [|discriminate H].
      injection H as <- <-. exists resp, body, feed. rewrite Hg.
      repeat split; auto. apply parseItem_RawItem.
  - intros (resp & body & feed & Hr & Hc & Hs & Hb & Hx & He & _).
    destruct (newRequest url) as [u|e]; [|discriminate Hr].
    rewrite Hc. apply Z.eqb_eq in Hs. rewrite Hs. cbn [negb].
    destruct (eqb (ContentEncoding resp) (lit "gzip")); rewrite Hb, Hx, He; reflexivity.
Qed.

End FetchOne.

(** Witness: a feed of one item, served plainly with status 200. *)
Lemma FetchAndParse_succeeds_exactly_witness :
  let item := {| Rss.Item_Title := lit "1969: Apollo 11 lands on the Moon";
                 Rss.Item_Link := lit "https://example.org/1969";
                 Rss.Item_Description := lit "<p>First humans on the Moon</p>";
                 Rss.Item_PubDate := []; Rss.Item_Categories := [lit "Science"];
                 Rss.Item_GUID := [] |} in
  let feed := {| Rss.Feed_Channel :=
                   {| Rss.Channel_Title := []; Rss.Channel_Link := [];
                      Rss.Channel_Description := []; Rss.Channel_Items := [item] |} |} in
  let served := {| Rss.StatusCode := 200; Rss.ContentEncoding := [];
                   Rss.Body := Ok (lit "<rss/>") |} in
  exists resp body feed',
    isErr (Ok tt : result unit) = false /\
    (Ok served, 1%nat) = (Ok resp, 1%nat) /\
    Rss.StatusCode resp = 200 /\
    (if Strings.eqb (Rss.ContentEncoding resp) (lit "gzip")
     then (Err (lit "not gzip") : result (result gostring)) = Ok (Ok body)
     else Rss.Body resp = Ok body) /\
    (Ok feed : result Rss.Feed) = Ok feed' /\
    [Rss.parseItem item] = map Rss.parseItem (Rss.Channel_Items (Rss.Feed_Channel feed')) /\
    map Rss.RawItem [Rss.parseItem item] = Rss.Channel_Items (Rss.Feed_Channel feed').
Proof.
  intros item feed served.
  apply (proj1 (FetchAndParse_succeeds_exactly nat (fun _ => Ok tt)
                  (fun _ n => (Ok served, S n)) (fun _ => Err (lit "not gzip"))
                  (fun _ => Ok feed) (lit "https://example.org/feed") 0%nat
                  [Rss.parseItem item] 1%nat)).
  reflexivity.
Defined.

(** ** extractJSON: what it returns, whatever the input *)

Section Extracted.
Import Strings Llm FenceSpec.

(** The first instance of a pattern in front of which there is none. *)
Lemma indexNat_closing r p v :
  indexNat (r ++ p ++ v) p = Some (List.length r) ->
  indexNat (r ++ p) p = Some (List.length r).
Proof.
  intros H. destruct (indexNat_occ r p []) as (i & Hi & Hle).
  rewrite app_nil_r in Hi.
  pose proof (indexNat_app _ v _ _ Hi) as Hv. rewrite <- !app_assoc in Hv.
  rewrite H in Hv. now rewrite Hi, Hv.
Qed.

Lemma ClosingFirst_no_fence r : ClosingFirst r -> indexNat r fence = None.
Proof.
  unfold ClosingFirst. intros H.
  destruct (indexNat r fence) as [k|] eqn:E; [|reflexivity]. exfalso.
  pose proof (indexNat_bound _ _ _ E) as Hb.
  pose proof (indexNat_app _ fence _ _ E) as Ha.
  rewrite (Index_found _ _ _ Ha) in H. unfold len in H.
  change (List.length fence) with 3%nat in Hb. lia.
Qed.

(** A fenced region that was found lies between its opening and the
    first triple backtick behind it. *)
Lemma fenced_inv s opening r :
  fenced s opening = Some r ->
  ClosingFirst r /\ exists pre post, s = pre ++ opening ++ r ++ fence ++ post.
Proof.
  unfold fenced. intros H.
  destruct (Contains s opening) eqn:C; [|discriminate H].
  apply Contains_true in C as [i Hi]. rewrite (Index_found _ _ _ Hi) in H.
  cbv zeta in H.
  destruct (negb (Z.of_nat i =? -1)); [|discriminate H].
  unfold sliceFrom, slice, len in H.
  replace (Z.to_nat (Z.of_nat i + Z.of_nat (List.length opening)))
    with (i + List.length opening)%nat in H by lia.
  pose proof (indexNat_split _ _ _ Hi) as Hs.
  set (rest := skipn (i + List.length opening) s) in *.
  change (lit "```") with fence in H.
  destruct (indexNat rest fence) as [j|] eqn:Ej.
  - rewrite (Index_found _ _ _ Ej) in H.
    destruct (negb (Z.of_nat j =? -1)); [|discriminate H].
    replace (Z.to_nat (Z.of_nat i + Z.of_nat (List.length opening) + Z.of_nat j
                       - (Z.of_nat i + Z.of_nat (List.length opening))))
      with j in H by lia.
    injection H as <-.
    pose proof (indexNat_split _ _ _ Ej) as Hr.
    pose proof (indexNat_bound _ _ _ Ej) as Hb.
    assert (Hl : List.length (firstn j rest) = j) by (rewrite length_firstn; lia).
    split.
    + unfold ClosingFirst.
      assert (Ej' : indexNat (firstn j rest ++ fence ++ skipn (j + List.length fence) rest)
                      fence = Some (List.length (firstn j rest))) by now rewrite Hl, <- Hr.
      apply indexNat_closing in Ej'. now rewrite (Index_found _ _ _ Ej').
    + exists (firstn i s), (skipn (j + List.length fence) rest).
      rewrite <- Hr. exact Hs.
  - assert (E : Index rest fence = -1) by now apply Index_absent.
    rewrite E in H. discriminate H.
Qed.

Lemma extractJSON_no_fence r : indexNat r fence = None -> extractJSON r = r.
Proof.
  intros H. unfold extractJSON.
  rewrite (fenced_absent r (lit "```json")).
  - change (lit "```") with fence. rewrite (fenced_absent r fence); [reflexivity|].
    now apply Contains_false.
  - apply Contains_false. change (lit "```json") with (fence ++ lit "json").
    now apply indexNat_ext.
Qed.

(** The two ways [extractJSON] has: the input itself, or a fenced
    region of it. *)
Lemma extractJSON_cases s :
  extractJSON s = s \/
  (indexNat (extractJSON s) fence = None /\
   exists pre post, s = pre ++ extractJSON s ++ fence ++ post).
Proof.
  unfold extractJSON.
  destruct (fenced s (lit "```json")) as [r|] eqn:E1.
  - right. apply fenced_inv in E1 as (Hc & pre & post & Hs).
    split; [now apply ClosingFirst_no_fence|].
    exists (pre ++ lit "```json"), post. now rewrite <- app_assoc.
  - destruct (fenced s (lit "```")) as [r|] eqn:E2; [|now left].
    right. apply fenced_inv in E2 as (Hc & pre & post & Hs).
    split; [now apply ClosingFirst_no_fence|].
    exists (pre ++ lit "```"), post. now rewrite <- app_assoc.
Qed.

Lemma extractJSON_again s : extractJSON (extractJSON s) = extractJSON s.
Proof.
  destruct (extractJSON_cases s) as [H | [H _]].
  - now rewrite H.
  - now apply extractJSON_no_fence.
Qed.

(** X12.  Whatever the input, what [extractJSON] returns is a piece of
    the input, uncut; it is the input itself, or it holds no triple
    backtick and is followed by one in the input; and extracting from
    it once more changes nothing. *)
Theorem extractJSON_result (s : gostring) :
  (exists pre post, s = pre ++ extractJSON s ++ post) /\
  (extractJSON s = s \/
   (Contains (extractJSON s) fence = false /\
    exists pre post, s = pre ++ extractJSON s ++ fence ++ post)) /\
  extractJSON (extractJSON s) = extractJSON s.
Proof.
  destruct (extractJSON_cases s) as [H | (Hn & pre & post & Hs)].
  - split; [|split].
    + exists [], []. now rewrite app_nil_r.
    + now left.
    + now rewrite H.
  - split; [|split].
    + exists pre, (fence ++ post). exact Hs.
    + right. split; [now apply Contains_false | now exists pre, post].
    + apply extractJSON_again.
Qed.

End Extracted.

(** ** formatEventsForPrompt *)

Section Prompt.
Import Strings Llm PromptSpec.

(** What the loop writes goes behind what the buffer holds. *)
Lemma promptLoop_entries events :
  forall i buf, promptLoop i events buf = buf ++ List.concat (entries (i + 1) events).
Proof.
  induction events as [|event rest IH]; intros i buf; cbn [promptLoop entries List.concat].
  - now rewrite app_nil_r.
  - rewrite IH. unfold entry.
    destruct (eqb (Rss.Year event) []), (eqb (Rss.Description event) []),
             (eqb (Rss.Category event) []); cbn [negb];
      repeat rewrite <- app_assoc; cbn [app]; repeat rewrite <- app_assoc; reflexivity.
Qed.

Lemma Contains_middle a p b : Contains (a ++ p ++ b) p = true.
Proof.
  apply Contains_true. destruct (indexNat_occ a p b) as (i & Hi & _). now exists i.
Qed.

Lemma concat_middle (x : gostring) l :
  In x l -> exists a b, List.concat l = a ++ x ++ b.
Proof.
  intros H. apply in_split in H as (l1 & l2 & ->).
  exists (List.concat l1), (List.concat l2). now rewrite concat_app.
Qed.

Lemma entries_In event events :
  In event events -> forall n, exists k, In (entry k event) (entries n events).
Proof.
  induction events as [|e rest IH]; intros H n; [destruct H|].
  destruct H as [->|H].
  - exists n. now left.
  - destruct (IH H (n + 1)) as [k Hk]. exists k. now right.
Qed.

(** An entry holds the fields of its event. *)
Lemma entry_holds n event f :
  f = Rss.Year event \/ f = Rss.Title event \/
  f = Rss.Description event \/ f = Rss.Category event ->
  exists x y, entry n event = x ++ f ++ y.
Proof.
  assert (Hnil : forall g : gostring,
             eqb g [] = true -> forall t : gostring, exists x y, t = x ++ g ++ y).
  { intros g Hg t. apply gostring_eqb_eq in Hg. subst g. now exists [], t. }
  unfold entry. intros [-> | [-> | [-> | ->]]].
  - destruct (eqb (Rss.Year event) []) eqn:E; [now apply Hnil|].
    exists (formatInt n ++ lit ". " ++ lit "["). eexists.
    repeat rewrite <- app_assoc. reflexivity.
  - exists (formatInt n ++ lit ". " ++
            (if eqb (Rss.Year event) [] then []
             else lit "[" ++ Rss.Year event ++ lit "] ")). eexists.
    repeat rewrite <- app_assoc. reflexivity.
  - destruct (eqb (Rss.Description event) []) eqn:E; [now apply Hnil|].
    exists (formatInt n ++ lit ". " ++
            (if eqb (Rss.Year event) [] then []
             else lit "[" ++ Rss.Year event ++ lit "] ") ++
            Rss.Title event ++ nl :: lit "   "). eexists.
    repeat rewrite <- app_assoc. cbn [app]. repeat rewrite <- app_assoc. reflexivity.
  - destruct (eqb (Rss.Category event) []) eqn:E; [now apply Hnil|].
    exists (formatInt n ++ lit ". " ++
            (if eqb (Rss.Year event) [] then []
             else lit "[" ++ Rss.Year event ++ lit "] ") ++
            Rss.Title event ++
            (if eqb (Rss.Description event) [] then []
             else nl :: lit "   " ++ Rss.Description event) ++
            nl :: lit "   Category: "). eexists.
    repeat rewrite <- app_assoc. cbn [app]. repeat rewrite <- app_assoc. reflexivity.
Qed.

(** X13.  The text that [formatEventsForPrompt] makes is the entries of
    the events one behind the other, in the order of the events and
    numbered from 1 on; so it holds the year, the title, the
    description and the category of every event, and it is empty for no
    events. *)
Theorem formatEventsForPrompt_lists_all (events : list Rss.HistoricalEvent) :
  let out := formatEventsForPrompt events in
  out = List.concat (entries 1 events) /\
  forall event, In event events ->
    Contains out (Rss.Year event) = true /\
    Contains out (Rss.Title event) = true /\
    Contains out (Rss.Description event) = true /\
    Contains out (Rss.Category event) = true.
Proof.
  intros out.
  assert (Hout : out = List.concat (entries 1 events)).
  { unfold out, formatEventsForPrompt. now rewrite promptLoop_entries. }
  split; [exact Hout|]. intros event Hin.
  destruct (entries_In event events Hin 1) as [k Hk].
  destruct (concat_middle _ _ Hk) as (a & b & Hab).
  assert (H : forall f,
             f = Rss.Year event \/ f = Rss.Title event \/
             f = Rss.Description event \/ f = Rss.Category event ->
             Contains out f = true).
  { intros f Hf. destruct (entry_holds k event f Hf) as (x & y & Hxy).
    rewrite Hout, Hab, Hxy.
    replace (a ++ (x ++ f ++ y) ++ b) with ((a ++ x) ++ f ++ (y ++ b))
      by (repeat rewrite <- app_assoc; reflexivity).
    apply Contains_middle. }
  repeat split; apply H; auto.
Qed.

End Prompt.

(** ** parseSelection and SelectEvents *)

Section Selection.
Import Strings Llm FenceSpec.

Variable Net : Type.
Variable jsonMarshal : ClaudeRequest -> result gostring.
Variable newRequest : gostring -> result unit.
Variable clientDo : gostring -> gostring -> gostring -> Net -> result Rss.Response * Net.
Variable unmarshalResponse : gostring -> result ClaudeResponse.
Variable unmarshalSelection : gostring -> result (list SelectedEvent).
Variable sprintf : gostring -> Z -> gostring.

Lemma len_zero (A : Type) (l : list A) : (len l =? 0) = true <-> l = [].
Proof.
  unfold len. destruct l; cbn [List.length]; split; intros H;
    try reflexivity; discriminate H.
Qed.

Lemma parseSelection_inv response events :
  parseSelection unmarshalSelection response = Ok events <->
  unmarshalSelection (extractJSON response) = Ok events /\ events <> [].
Proof.
  unfold parseSelection. cbv zeta.
  destruct (unmarshalSelection (extractJSON response)) as [evs|e].
  - destruct (len evs =? 0) eqn:E.
    + apply len_zero in E. subst evs. split; [discriminate|]. intros [[= <-] H]. now elim H.
    + split.
      * intros [= <-]. split; [reflexivity|]. intros ->. discriminate E.
      * intros [[= <-] _]. reflexivity.
  - split; [discriminate|]. intros [H _]. discriminate H.
Qed.

(** X14.  [parseSelection] accepts a response exactly when the decoder
    accepts what [extractJSON] makes of it and the events decoded are
    not none; and it treats a response and what [extractJSON] makes of
    it alike, in its result as in its error. *)
Theorem parseSelection_accepts (response : gostring) (events : list SelectedEvent) :
  (parseSelection unmarshalSelection response = Ok events <->
   unmarshalSelection (extractJSON response) = Ok events /\ events <> []) /\
  parseSelection unmarshalSelection (extractJSON response)
  = parseSelection unmarshalSelection response.
Proof.
  split; [apply parseSelection_inv|].
  unfold parseSelection. cbv zeta.
  now rewrite extractJSON_again.
Qed.

(** A call of the API that brought a text. *)
Lemma callClaudeAPI_inv s prompt net text net' :
  callClaudeAPI Net jsonMarshal newRequest clientDo unmarshalResponse s prompt net
    = (Ok text, net') ->
  exists reqBody resp body claudeResp block more,
    jsonMarshal {| Request_Model := model s; Request_MaxTokens := 2048;
                   Request_Messages :=
                     [ {| Message_Role := lit "user"; Message_Content := prompt |} ] |}
      = Ok reqBody /\
    clientDo messagesURL (apiKey s) reqBody net = (Ok resp, net') /\
    Rss.Body resp = Ok body /\ Rss.StatusCode resp = 200 /\
    unmarshalResponse body = Ok claudeResp /\
    Response_Content claudeResp = block :: more /\
    text = Block_Text block.
Proof.
  unfold callClaudeAPI. cbv zeta. intros H.
  destruct (jsonMarshal _) as [reqBody|e] eqn:Hm; [|discriminate H].
  destruct (newRequest messagesURL) as [u|e]; [|discriminate H].
  destruct (clientDo messagesURL (apiKey s) reqBody net) as [[resp|e] net1] eqn:Hc;
    [|discriminate H].
  destruct (Rss.Body resp) as [body|e] eqn:Hb; [|discriminate H].
  destruct (Rss.StatusCode resp =? 200) eqn:Hs; cbn [negb] in H; [|discriminate H].
  apply Z.eqb_eq in Hs.
  destruct (unmarshalResponse body) as [claudeResp|e] eqn:Hu; [|discriminate H].
  destruct (Response_Content claudeResp) as [|block more] eqn:Hk; [discriminate H|].
  injection H as <- <-.
  exists reqBody, resp, body, claudeResp, block, more. repeat split; auto.
Qed.

(** X15.  [SelectEvents] asks nothing of the API when there are no
    events: it fails at once and leaves the network as it was.  When it
    succeeds there were events, the selection is not empty, and it is
    what the decoder made of the text of the first block of a response
    of status 200, fences taken off; the request held the prompt made
    of the template, the heading and the list of the events, as the
    one message of the user. *)
Theorem SelectEvents_selection (s : Selector) (events : list Rss.HistoricalEvent)
    (net : Net) :
  let run :=
    SelectEvents Net jsonMarshal newRequest clientDo unmarshalResponse
      unmarshalSelection sprintf s events net in
  (events = [] -> run = (Err (lit "no events to select from"), net)) /\
  (forall selected net', run = (Ok selected, net') ->
     events <> [] /\ selected <> [] /\
     exists reqBody resp body claudeResp block more,
       jsonMarshal
         {| Request_Model := model s; Request_MaxTokens := 2048;
            Request_Messages :=
              [ {| Message_Role := lit "user";
                   Message_Content :=
                     sprintf (promptTemplate s) (maxEvents s) ++
                     ([nl; nl] ++ lit "Here are today's historical events:" ++ [nl; nl]) ++
                     formatEventsForPrompt events |} ] |} = Ok reqBody /\
       clientDo messagesURL (apiKey s) reqBody net = (Ok resp, net') /\
       Rss.Body resp = Ok body /\ Rss.StatusCode resp = 200 /\
       unmarshalResponse body = Ok claudeResp /\
       Response_Content claudeResp = block :: more /\
       unmarshalSelection (extractJSON (Block_Text block)) = Ok selected).
Proof.
  intros run. split.
  - intros ->. reflexivity.
  - intros selected net' H. unfold run, SelectEvents in H.
    destruct (len events =? 0) eqn:El; [discriminate H|]. cbv zeta in H.
    destruct (callClaudeAPI _ _ _ _ _ _ _ _) as [[text|e] net1] eqn:Hcall;
      [|discriminate H].
    destruct (parseSelection unmarshalSelection text) as [sel|e] eqn:Hp;
      [|discriminate H].
    injection H as <- <-.
    apply parseSelection_inv in Hp as [Hp Hne].
    apply callClaudeAPI_inv in Hcall
      as (reqBody & resp & body & claudeResp & block & more & H1 & H2 & H3 & H4 & H5 & H6 & ->).
    split; [intros ->; discriminate El|]. split; [exact Hne|].
    exists reqBody, resp, body, claudeResp, block, more. repeat split; auto.
Qed.

End Selection.

(** Witness: one event offered, one selected from a fenced answer. *)
Lemma SelectEvents_selection_witness :
  let event := {| Rss.Year := lit "1969"; Rss.Title := lit "Apollo 11 lands on the Moon";
                  Rss.Description := lit "First humans on the Moon";
                  Rss.Category := lit "Science"; Rss.Link := [];
                  Rss.RawItem := {| Rss.Item_Title := []; Rss.Item_Link := [];
                                    Rss.Item_Description := []; Rss.Item_PubDate := [];
                                    Rss.Item_Categories := []; Rss.Item_GUID := [] |} |} in
  let selected := {| Llm.Year := lit "1969"; Llm.Title := lit "Moon landing";
                     Llm.Description := lit "Apollo 11"; Llm.Category := lit "Science" |} in
  [event] <> [] /\ [selected] <> [].
Proof.
  intros event selected.
  destruct (proj2 (SelectEvents_selection nat
                     (fun _ => Ok (lit "{}")) (fun _ => Ok tt)
                     (fun _ _ _ n =>
                        (Ok {| Rss.StatusCode := 200; Rss.ContentEncoding := [];
                               Rss.Body := Ok (lit "{}") |}, S n))
                     (fun _ =>
                        Ok {| Llm.Response_ID := []; Llm.Response_Type := [];
                              Llm.Response_Role := [];
                              Llm.Response_Content :=
                                [ {| Llm.Block_Type := lit "text";
                                     Llm.Block_Text := lit "```json{}```" |} ];
                              Llm.Response_Model := [];
                              Llm.Response_Usage :=
                                {| Llm.InputTokens := 0; Llm.OutputTokens := 0 |} |})
                     (fun _ => Ok [selected]) (fun t _ => t)
                     (Llm.NewSelector (lit "key") (lit "model") 2 (lit "Select %d events"))
                     [event] 0%nat)
             [selected] 1%nat eq_refl) as (A & B & _).
  split; [exact A | exact B].
Defined.

(** ** The blocks of a Slack message *)

Section Layout.
Import Strings Slack SlackSpec.

Let footer : Block :=
  {| Block_Type := lit "context"; Block_Text := None;
     Block_Elements :=
       [ {| TextObject_Type := lit "mrkdwn";
            TextObject_Text := lit "_Curated by AI from today's historical events_" |} ] |}.

Lemma eventBlocks_length events :
  len (eventBlocks events) = match events with [] => 0 | _ :: _ => 2 * len events - 1 end.
Proof.
  unfold len. induction events as [|event [|e rest] IH]; try reflexivity.
  cbn [eventBlocks] in *. cbn [List.length app] in *. lia.
Qed.

Lemma eventBlocks_sections events : sections (eventBlocks events) = len events.
Proof.
  unfold sections, len. induction events as [|event [|e rest] IH]; try reflexivity.
  cbn [eventBlocks] in *. cbn [app filter] in *.
  change (isSection (section _)) with true in *. change (isSection divider) with false.
  cbv iota in *. cbn [List.length] in *. lia.
Qed.

(** Behind any block, the blocks of the events and the footer bring no
    two dividers together. *)
Lemma eventBlocks_dividers events :
  forall b last, isDivider last = false ->
    adjacentDividers (b :: eventBlocks events ++ [last]) = false.
Proof.
  induction events as [|event rest IH]; intros b last Hl.
  - cbn [eventBlocks app adjacentDividers]. rewrite Hl. now rewrite andb_false_r.
  - cbn [eventBlocks]. cbn [app adjacentDividers].
    change (isDivider (section _)) with false. rewrite andb_false_r. cbn [orb].
    destruct rest as [|e rest].
    + cbn [eventBlocks app adjacentDividers]. now rewrite Hl.
    + cbn [app]. change (isDivider divider) with true. cbn [andb orb].
      apply (IH divider last Hl).
Qed.

Lemma eventBlocks_titles events event :
  In event events ->
  exists text,
    In (section text) (eventBlocks events) /\
    Contains text (Llm.Year event) = true /\
    Contains text (Llm.Title event) = true /\
    Contains text (Llm.Description event) = true /\
    Contains text (Llm.Category event) = true.
Proof.
  induction events as [|e rest IH]; intros H; [destruct H|].
  destruct H as [->|H].
  - eexists. split; [cbn [eventBlocks]; left; reflexivity|].
    repeat split.
    + repeat rewrite <- app_assoc. apply Contains_middle.
    + replace ((lit "*" ++ Llm.Year event ++ lit "* • " ++ Llm.Category event) ++
               [nl; nl] ++ (lit "*" ++ Llm.Title event ++ lit "*") ++
               [nl; nl] ++ Llm.Description event)
        with (((lit "*" ++ Llm.Year event ++ lit "* • " ++ Llm.Category event) ++
               [nl; nl] ++ lit "*") ++ Llm.Title event ++
              (lit "*" ++ [nl; nl] ++ Llm.Description event))
        by (repeat rewrite <- app_assoc; reflexivity).
      apply Contains_middle.
    + replace ((lit "*" ++ Llm.Year event ++ lit "* • " ++ Llm.Category event) ++
               [nl; nl] ++ (lit "*" ++ Llm.Title event ++ lit "*") ++
               [nl; nl] ++ Llm.Description event)
        with (((lit "*" ++ Llm.Year event ++ lit "* • " ++ Llm.Category event) ++
               [nl; nl] ++ (lit "*" ++ Llm.Title event ++ lit "*") ++ [nl; nl]) ++
              Llm.Description event ++ [])
        by (rewrite app_nil_r; repeat rewrite <- app_assoc; reflexivity).
      apply Contains_middle.
    + replace ((lit "*" ++ Llm.Year event ++ lit "* • " ++ Llm.Category event) ++
               [nl; nl] ++ (lit "*" ++ Llm.Title event ++ lit "*") ++
               [nl; nl] ++ Llm.Description event)
        with ((lit "*" ++ Llm.Year event ++ lit "* • ") ++ Llm.Category event ++
              ([nl; nl] ++ (lit "*" ++ Llm.Title event ++ lit "*") ++
               [nl; nl] ++ Llm.Description event))
        by (repeat rewrite <- app_assoc; reflexivity).
      apply Contains_middle.
  - destruct (IH H) as (text & Hin & Hc). exists text. split; [|exact Hc].
    cbn [eventBlocks]. right. apply in_or_app. now right.
Qed.

Lemma joinLines_cons line rest :
  joinLines (line :: rest) = line ++ List.concat (map (fun l => nl :: l) rest).
Proof.
  revert line. induction rest as [|l rest IH]; intros line.
  - cbn [joinLines map List.concat]. now rewrite app_nil_r.
  - change (joinLines (line :: l :: rest)) with (line ++ nl :: joinLines (l :: rest)).
    rewrite IH. reflexivity.
Qed.

Lemma holidayLines_later i holidays :
  holidayLines (S i) holidays = List.concat (map (fun l => nl :: l) (map bullet holidays)).
Proof.
  revert i. induction holidays as [|h rest IH]; intros i; [reflexivity|].
  cbn [holidayLines map List.concat]. rewrite IH.
  change (0 <? S i)%nat with true. cbv iota. unfold bullet. cbn [app].
  now rewrite <- app_assoc.
Qed.

Lemma holidayLines_join holidays :
  holidayLines 0 holidays = joinLines (map bullet holidays).
Proof.
  destruct holidays as [|h rest]; [reflexivity|].
  cbn [map]. rewrite joinLines_cons. cbn [holidayLines].
  rewrite holidayLines_later. change (0 <? 0)%nat with false. cbv iota.
  unfold bullet. cbn [app]. now rewrite <- app_assoc.
Qed.

Lemma eventBlocks_between events :
  eventBlocks events
  = between divider (map (fun event => section (eventText event)) events).
Proof.
  induction events as [|event [|e rest] IH]; [reflexivity | reflexivity |].
  change (eventBlocks (event :: e :: rest))
    with (section (eventText event) :: divider :: eventBlocks (e :: rest)).
  rewrite IH. reflexivity.
Qed.

(** X16.  The message that [formatMessageWithHolidays] makes has no
    text of its own and these blocks, in this order: the header and a
    divider; with holidays, two sections and a divider for them; a
    section for every event, in the order of the events, with a divider
    between two of them; the footer.  So the sections are the events
    and, with holidays, two more; no two dividers are next to each
    other; and every event has a section that holds its year, title,
    description and category. *)
Theorem formatMessageWithHolidays_layout (dateStr : gostring)
    (events : list Llm.SelectedEvent) (holidays : list gostring) :
  let message := formatMessageWithHolidays dateStr events holidays in
  let blocks := Message_Blocks message in
  Message_Text message = [] /\
  blocks = layout dateStr events holidays /\
  len blocks = 3 + (match holidays with [] => 0 | _ :: _ => 3 end)
                 + (match events with [] => 0 | _ :: _ => 2 * len events - 1 end) /\
  sections blocks = len events + (match holidays with [] => 0 | _ :: _ => 2 end) /\
  adjacentDividers blocks = false /\
  forall event, In event events ->
    exists text,
      In (section text) blocks /\
      Contains text (Llm.Year event) = true /\
      Contains text (Llm.Title event) = true /\
      Contains text (Llm.Description event) = true /\
      Contains text (Llm.Category event) = true.
Proof.
  intros message blocks.
  split; [reflexivity|].
  assert (Hlay : blocks = layout dateStr events holidays).
  { unfold blocks, message, formatMessageWithHolidays, layout.
    rewrite <- eventBlocks_between, <- holidayLines_join.
    destruct holidays as [|h hs]; [reflexivity|].
    assert (Hl : (0 <? len (h :: hs)) = true)
      by (apply Z.ltb_lt; unfold len; cbn [List.length]; lia).
    rewrite Hl. cbn [Message_Blocks app]. repeat rewrite <- app_assoc. reflexivity. }
  split; [exact Hlay|]. clear Hlay.
  pose proof (eventBlocks_length events) as HL.
  pose proof (eventBlocks_sections events) as HS.
  assert (Hf : isDivider footer = false) by reflexivity.
  destruct holidays as [|h hs].
  - assert (Hb : blocks =
                 {| Block_Type := lit "header";
                    Block_Text := Some {| TextObject_Type := lit "plain_text";
                                          TextObject_Text :=
                                            lit "📅 On This Day in History - " ++ dateStr |};
                    Block_Elements := [] |}
                 :: divider :: eventBlocks events ++ [footer]) by reflexivity.
    rewrite Hb. repeat split.
    + unfold len in *. cbn [List.length]. rewrite length_app. cbn [List.length]. lia.
    + unfold sections, len in *. cbn [filter].
      change (isSection divider) with false.
      change (isSection {| Block_Type := lit "header"; Block_Text := _;
                           Block_Elements := _ |}) with false.
      cbv iota. rewrite filter_app, length_app. cbn [filter].
      change (isSection footer) with false. cbv iota. cbn [List.length]. lia.
    + cbn [adjacentDividers].
      change (isDivider {| Block_Type := lit "header"; Block_Text := _;
                           Block_Elements := _ |}) with false.
      cbn [andb orb]. apply (eventBlocks_dividers events divider footer Hf).
    + intros event Hin.
      destruct (eventBlocks_titles events event Hin) as (text & Ht & Hc).
      exists text. split; [|exact Hc]. right. right. apply in_or_app. now left.
  - assert (Hb : blocks =
                 {| Block_Type := lit "header";
                    Block_Text := Some {| TextObject_Type := lit "plain_text";
                                          TextObject_Text :=
                                            lit "📅 On This Day in History - " ++ dateStr |};
                    Block_Elements := [] |}
                 :: divider :: section (lit "*🎉 Today's Fun Holidays*")
                 :: section (holidayLines 0 (h :: hs))
                 :: divider :: eventBlocks events ++ [footer]).
    { unfold blocks, message, formatMessageWithHolidays.
      assert (Hl : (0 <? len (h :: hs)) = true) by (apply Z.ltb_lt; unfold len;
                                                    cbn [List.length]; lia).
      rewrite Hl. cbn [app]. repeat rewrite <- app_assoc. reflexivity. }
    rewrite Hb. repeat split.
    + unfold len in *. cbn [List.length]. rewrite length_app. cbn [List.length]. lia.
    + unfold sections, len in *. cbn [filter].
      change (isSection divider) with false.
      change (isSection (section _)) with true.
      change (isSection {| Block_Type := lit "header"; Block_Text := _;
                           Block_Elements := _ |}) with false.
      cbv iota. cbn [List.length]. rewrite filter_app, length_app. cbn [filter].
      change (isSection footer) with false. cbv iota. cbn [List.length]. lia.
    + cbn [adjacentDividers].
      change (isDivider {| Block_Type := lit "header"; Block_Text := _;
                           Block_Elements := _ |}) with false.
      change (isDivider (section _)) with false.
      change (isDivider divider) with true.
      cbn [andb orb]. apply (eventBlocks_dividers events divider footer Hf).
    + intros event Hin.
      destruct (eventBlocks_titles events event Hin) as (text & Ht & Hc).
      exists text. split; [|exact Hc]. do 5 right. apply in_or_app. now left.
Qed.

End Layout.

Section HolidayText.
Import Strings Slack SlackSpec.

(** X17.  The text of the holidays is their bulleted lines joined by
    newlines: a line for every holiday, in their order, with no newline
    before the first or behind the last; with holidays, a section of
    the message holds just this text. *)
Theorem holidayLines_joined (dateStr : gostring) (events : list Llm.SelectedEvent)
    (holidays : list gostring) :
  holidayLines 0 holidays = joinLines (map bullet holidays) /\
  (holidays <> [] ->
   In (section (joinLines (map bullet holidays)))
      (Message_Blocks (formatMessageWithHolidays dateStr events holidays))).
Proof.
  assert (H : holidayLines 0 holidays = joinLines (map bullet holidays)).
  { destruct holidays as [|h rest]; [reflexivity|].
    cbn [map]. rewrite joinLines_cons. cbn [holidayLines].
    rewrite holidayLines_later. change (0 <? 0)%nat with false. cbv iota.
    unfold bullet. cbn [app]. now rewrite <- app_assoc. }
  split; [exact H|]. intros Hne. rewrite <- H.
  destruct holidays as [|h rest]; [congruence|].
  unfold formatMessageWithHolidays.
  assert (Hl : (0 <? len (h :: rest)) = true)
    by (apply Z.ltb_lt; unfold len; cbn [List.length]; lia).
  rewrite Hl. cbn [Message_Blocks]. apply in_or_app. left. apply in_or_app. left.
  apply in_or_app. right. right. left. reflexivity.
Qed.

End HolidayText.

(** ** The plain text of the events *)

Section PlainText.
Import Strings Slack SlackSpec.

Lemma textLoop_joined events :
  forall i n buf,
    n = i + len events ->
    textLoop i n events buf = buf ++ joinLines (textEntries (i + 1) events).
Proof.
  induction events as [|event rest IH]; intros i n buf Hn.
  - cbn [textLoop textEntries joinLines]. now rewrite app_nil_r.
  - cbn [textLoop textEntries]. rewrite (IH (i + 1) n) by
      (rewrite Hn; unfold len; cbn [List.length]; lia).
    destruct rest as [|e rest].
    + assert (E : (i <? n - 1) = false)
        by (apply Z.ltb_ge; rewrite Hn; unfold len; cbn [List.length]; lia).
      rewrite E. cbn [textEntries joinLines]. rewrite app_nil_r. unfold textEntry.
      repeat rewrite <- app_assoc. reflexivity.
    + assert (E : (i <? n - 1) = true)
        by (apply Z.ltb_lt; rewrite Hn; unfold len; cbn [List.length]; lia).
      rewrite E.
      change (joinLines (textEntry (i + 1) event :: textEntries (i + 1 + 1) (e :: rest)))
        with (textEntry (i + 1) event ++ nl :: joinLines (textEntries (i + 1 + 1) (e :: rest))).
      unfold textEntry. repeat rewrite <- app_assoc. reflexivity.
Qed.

(** X18.  The plain text that [FormatEventsAsText] makes is the heading
    with the date, an empty line, and the entries of the events, three
    lines each and numbered from 1 on, with an empty line between two
    entries and none behind the last. *)
Theorem FormatEventsAsText_joined (dateStr : gostring) (events : list Llm.SelectedEvent) :
  FormatEventsAsText dateStr events =
  (lit "📅 On This Day in History - " ++ dateStr ++ [nl; nl]) ++
  joinLines (textEntries 1 events).
Proof.
  unfold FormatEventsAsText. apply textLoop_joined. lia.
Qed.

End PlainText.

(** ** What a post does to the outside world *)

Section Posting.
Import Strings Slack SlackSpec.

Variable Net : Type.
Variable today : Net -> gostring.
Variable jsonMarshal : SlackMessage -> result gostring.
Variable newRequest : gostring -> result unit.
Variable clientDo : gostring -> gostring -> Net -> result Rss.Response * Net.

Lemma post_tail url message net :
  forall r net' added,
    (r, net', added) =
      match jsonMarshal message with
      | Err e => (Err (Rss.wrapErr (lit "failed to marshal message") e), net, [])
      | Ok reqBody =>
          match newRequest url with
          | Err e => (Err (Rss.wrapErr (lit "failed to create request") e), net, [])
          | Ok _ =>
              match clientDo url reqBody net with
              | (Err e, net1) =>
                  (Err (Rss.wrapErr (lit "failed to make request") e), net1,
                   [HttpPost url reqBody])
              | (Ok resp, net1) =>
                  match Rss.Body resp with
                  | Err e =>
                      (Err (Rss.wrapErr (lit "failed to read response") e), net1,
                       [HttpPost url reqBody])
                  | Ok body =>
                      if negb (Rss.StatusCode resp =? 200)
                      then (Err (lit "Slack API request failed with status " ++
                                 formatInt (Rss.StatusCode resp) ++ lit ": " ++ body),
                            net1, [HttpPost url reqBody])
                      else (Ok tt, net1, [HttpPost url reqBody])
                  end
              end
          end
      end ->
    posted Net jsonMarshal newRequest clientDo url message net r net' added.
Proof.
  intros r net' added H.
  destruct (jsonMarshal message) as [reqBody|e] eqn:Hm;
    [|injection H as -> -> ->; apply posted_nothing;
      [reflexivity | reflexivity | reflexivity | left; now rewrite Hm]].
  destruct (newRequest url) as [u|e] eqn:Hn;
    [|injection H as -> -> ->; apply posted_nothing;
      [reflexivity | reflexivity | reflexivity | right; now rewrite Hn]].
  assert (Hn' : isErr (newRequest url) = false) by now rewrite Hn.
  destruct (clientDo url reqBody net) as [[resp|e] net1] eqn:Hc.
  - destruct (Rss.Body resp) as [body|e] eqn:Hb.
    + destruct (Rss.StatusCode resp =? 200) eqn:Hs; cbn [negb] in H;
        injection H as -> -> ->;
        apply (posted_once _ _ _ _ _ _ _ _ _ _ reqBody Hm Hn' eq_refl);
        rewrite Hc; cbn [fst snd]; try reflexivity.
      * apply Z.eqb_eq in Hs. split; [|reflexivity]. intros _.
        exists resp. rewrite Hb. auto.
      * split; [discriminate|]. intros (resp' & [= <-] & Hs' & _).
        apply Z.eqb_neq in Hs. contradiction.
    + injection H as -> -> ->.
      apply (posted_once _ _ _ _ _ _ _ _ _ _ reqBody Hm Hn' eq_refl);
        rewrite Hc; cbn [fst snd]; try reflexivity.
      split; [discriminate|].
      intros (resp' & [= <-] & _ & Hb'). rewrite Hb in Hb'. discriminate Hb'.
  - injection H as -> -> ->.
    apply (posted_once _ _ _ _ _ _ _ _ _ _ reqBody Hm Hn' eq_refl);
      rewrite Hc; cbn [fst snd]; try reflexivity.
    split; [discriminate|]. intros (resp' & Hr & _). discriminate Hr.
Qed.

(** With something to post, the clock is read, the message is
    encoded, and the rest is the post. *)
Lemma PostEventsWithHolidays_posted url events holidays net trace :
  events <> [] \/ holidays <> [] ->
  let run :=
    PostEventsWithHolidays Net today jsonMarshal newRequest clientDo
      url events holidays net trace in
  let message := formatMessageWithHolidays (today net) events holidays in
  exists added,
    snd run = (trace ++ [ReadClock; Marshal message]) ++ added /\
    posted Net jsonMarshal newRequest clientDo url message net
      (fst (fst run)) (snd (fst run)) added.
Proof.
  intros Hne run message. unfold run, PostEventsWithHolidays. fold message.
  assert (E : (len events =? 0) && (len holidays =? 0) = false).
  { apply andb_false_iff.
    destruct Hne as [H|H]; [left|right];
      (destruct (len _ =? 0) eqn:E; [apply len_zero in E; contradiction | reflexivity]). }
  rewrite E.
  destruct (jsonMarshal message) as [reqBody|e] eqn:Hm.
  - destruct (newRequest url) as [u|e'] eqn:Hn.
    + destruct (clientDo url reqBody net) as [[resp|e''] net1] eqn:Hc.
      * destruct (Rss.Body resp) as [body|e3] eqn:Hb.
        -- destruct (negb (Rss.StatusCode resp =? 200)) eqn:Hs;
             (eexists; split; [reflexivity|]; apply post_tail;
              rewrite Hm, Hn, Hc, Hb, Hs; reflexivity).
        -- eexists; split; [reflexivity|]; apply post_tail.
           rewrite Hm, Hn, Hc, Hb. reflexivity.
      * eexists; split; [reflexivity|]; apply post_tail.
        rewrite Hm, Hn, Hc. reflexivity.
    + exists []. split; [cbn [snd]; now rewrite app_nil_r|]. apply post_tail.
      rewrite Hm, Hn. reflexivity.
  - exists []. split; [cbn [snd]; now rewrite app_nil_r|]. apply post_tail.
    rewrite Hm. reflexivity.
Qed.

(** X19.  [PostEventsWithHolidays] with nothing to post fails at once
    and does nothing.  Otherwise it reads the clock and encodes the
    message made of the events and the holidays; when that fails, or
    the request cannot be made, nothing is sent; else the encoded
    message is posted to the webhook, once, and the call succeeds
    exactly when the response can be read and has status 200. *)
Theorem PostEventsWithHolidays_effects (url : gostring)
    (events : list Llm.SelectedEvent) (holidays : list gostring)
    (net : Net) (trace : list Effect) :
  let run :=
    PostEventsWithHolidays Net today jsonMarshal newRequest clientDo
      url events holidays net trace in
  let message := formatMessageWithHolidays (today net) events holidays in
  (events = [] /\ holidays = [] /\
   run = (Err (lit "no events or holidays to post"), net, trace)) \/
  ((events <> [] \/ holidays <> []) /\
   exists added,
     snd run = (trace ++ [ReadClock; Marshal message]) ++ added /\
     posted Net jsonMarshal newRequest clientDo url message net
       (fst (fst run)) (snd (fst run)) added).
Proof.
  intros run message.
  destruct events as [|event events].
  - destruct holidays as [|holiday holidays].
    + left. repeat split.
    + right. assert (Hne : @nil Llm.SelectedEvent <> [] \/ holiday :: holidays <> [])
        by (right; discriminate).
      split; [exact Hne|].
      apply (PostEventsWithHolidays_posted url [] (holiday :: holidays) net trace Hne).
  - right. assert (Hne : event :: events <> [] \/ holidays <> []) by (left; discriminate).
    split; [exact Hne|].
    apply (PostEventsWithHolidays_posted url (event :: events) holidays net trace Hne).
Qed.

(** X20.  [PostSimpleMessage] encodes a message of the text alone,
    whatever the text and without reading the clock; when that fails,
    or the request cannot be made, nothing is sent; else the encoded
    message is posted to the webhook, once, and the call succeeds
    exactly when the response can be read and has status 200. *)
Theorem PostSimpleMessage_effects (url text : gostring) (net : Net)
    (trace : list Effect) :
  let run := PostSimpleMessage Net jsonMarshal newRequest clientDo url text net trace in
  let message := {| Message_Text := text; Message_Blocks := [] |} in
  exists added,
    snd run = (trace ++ [Marshal message]) ++ added /\
    posted Net jsonMarshal newRequest clientDo url message net
      (fst (fst run)) (snd (fst run)) added.
Proof.
  intros run message. unfold run, PostSimpleMessage. fold message. cbv zeta.
  destruct (jsonMarshal message) as [reqBody|e] eqn:Hm.
  - destruct (newRequest url) as [u|e'] eqn:Hn.
    + destruct (clientDo url reqBody net) as [[resp|e''] net1] eqn:Hc.
      * destruct (Rss.Body resp) as [body|e3] eqn:Hb.
        -- destruct (negb (Rss.StatusCode resp =? 200)) eqn:Hs;
             (eexists; split; [reflexivity|]; apply post_tail;
              rewrite Hm, Hn, Hc, Hb, Hs; reflexivity).
        -- eexists; split; [reflexivity|]; apply post_tail.
           rewrite Hm, Hn, Hc, Hb. reflexivity.
      * eexists; split; [reflexivity|]; apply post_tail.
        rewrite Hm, Hn, Hc. reflexivity.
    + exists []. split; [cbn [snd]; now rewrite app_nil_r|]. apply post_tail.
      rewrite Hm, Hn. reflexivity.
  - exists []. split; [cbn [snd]; now rewrite app_nil_r|]. apply post_tail.
    rewrite Hm. reflexivity.
Qed.

End Posting.

(** ** contains, and the holidays of the job *)

Section Containing.
Import Strings Bot.

Variable unicodeLower : gostring -> gostring.

Lemma Contains_length s p : Contains s p = true -> len p <= len s.
Proof.
  intros H. apply Contains_true in H as [i Hi].
  apply indexNat_bound in Hi. unfold len. lia.
Qed.

Lemma Contains_self s : Contains s s = true.
Proof.
  pose proof (Contains_middle [] s []) as H. now rewrite app_nil_r in H.
Qed.

(** X21.  [contains] finds every string in itself and the empty string
    in every string.  On strings of ASCII it is the search for the
    lower-cased second string in the lower-cased first and nothing
    else, its comparison of the lengths and its test for equality
    changing nothing; so it does not depend on the case of the letters
    of either string. *)
Theorem contains_ignores_case (s substr : gostring) :
  contains unicodeLower s s = true /\
  contains unicodeLower s [] = true /\
  (isASCII s = true -> isASCII substr = true ->
   contains unicodeLower s substr
   = Contains (map lowerByte s) (map lowerByte substr)) /\
  (forall s' substr',
     isASCII s = true -> isASCII substr = true ->
     isASCII s' = true -> isASCII substr' = true ->
     map lowerByte s' = map lowerByte s ->
     map lowerByte substr' = map lowerByte substr ->
     contains unicodeLower s' substr' = contains unicodeLower s substr).
Proof.
  assert (Hascii : forall t u, isASCII t = true -> isASCII u = true ->
            contains unicodeLower t u = Contains (map lowerByte t) (map lowerByte u)).
  { intros t u Ht Hu. unfold contains.
    rewrite (ToLower_ascii _ _ Ht), (ToLower_ascii _ _ Hu).
    destruct (Contains (map lowerByte t) (map lowerByte u)) eqn:C.
    - apply Contains_length in C. unfold len in C. rewrite !length_map in C.
      rewrite orb_true_r, andb_true_r. apply Z.leb_le. exact C.
    - destruct (eqb t u) eqn:E.
      + apply gostring_eqb_eq in E. subst u. now rewrite Contains_self in C.
      + cbn [orb]. apply andb_false_r. }
  split; [|split; [|split]].
  - unfold contains. rewrite Z.leb_refl. cbn [andb].
    assert (E : eqb s s = true) by now apply gostring_eqb_eq.
    now rewrite E.
  - unfold contains.
    assert (L : (len (@nil ascii) <=? len s) = true)
      by (apply Z.leb_le; unfold len; cbn [List.length]; lia).
    rewrite L. cbn [andb]. apply orb_true_iff. right.
    unfold ToLower at 2. cbn [isASCII forallb map].
    pose proof (Contains_middle [] [] (ToLower unicodeLower s)) as H. exact H.
  - apply Hascii.
  - intros s' substr' H1 H2 H3 H4 E1 E2.
    now rewrite (Hascii _ _ H1 H2), (Hascii _ _ H3 H4), E1, E2.
Qed.

End Containing.

Section JobHolidays.
Import Strings Bot.

Variable Net : Type.
Variable unicodeLower : gostring -> gostring.
Variable newGet : gostring -> result unit.
Variable clientGet : gostring -> Net -> result Rss.Response * Net.
Variable gzipNewReader : result gostring -> result (result gostring).
Variable xmlUnmarshal : gostring -> result Rss.Feed.

(** X22.  The holidays of the job.  Without a holiday feed there are
    none and the network is not touched; a feed that cannot be fetched
    gives none either, and no error.  There are never more than
    [MaxHolidays], none at all when that is not positive, and each is
    the title of a fetched holiday that holds no serious keyword. *)
Theorem jobHolidays_bounded (cfg : Config) (net : Net) :
  let run := jobHolidays Net unicodeLower newGet clientGet gzipNewReader xmlUnmarshal
               cfg net in
  let fetched := Rss.FetchHolidays Net newGet clientGet gzipNewReader xmlUnmarshal
                   (HolidayFeedURL cfg) net in
  (HolidayFeedURL cfg = [] -> run = ([], net)) /\
  (isErr (fst fetched) = true -> fst run = []) /\
  len (fst run) <= Z.max 0 (MaxHolidays cfg) /\
  (forall title, In title (fst run) ->
     exists holidayData holiday,
       fst fetched = Ok holidayData /\ In holiday holidayData /\
       title = Rss.Holiday_Title holiday /\
       existsb (contains unicodeLower title) seriousKeywords = false).
Proof.
  intros run fetched. unfold run, jobHolidays. fold fetched.
  destruct (eqb (HolidayFeedURL cfg) []) eqn:E; cbn [negb].
  - repeat split; cbn [fst]; try reflexivity.
    + unfold len. cbn [List.length]. lia.
    + intros title [].
  - assert (Hne : HolidayFeedURL cfg <> []).
    { intros H. rewrite H in E. discriminate E. }
    destruct fetched as [[holidayData|e] net'] eqn:F; cbn [fst].
    + rewrite selectHolidays_firstn.
      set (kept := filterFunHolidays unicodeLower holidayData).
      set (n := Z.to_nat (Z.min (MaxHolidays cfg) (len kept))).
      repeat split.
      * intros H. contradiction.
      * discriminate.
      * unfold len. rewrite length_map, length_firstn. unfold n, len. lia.
      * intros title Hin. apply in_map_iff in Hin as (holiday & <- & Hin).
        assert (Hk : In holiday kept).
        { rewrite <- (firstn_skipn n kept). apply in_or_app. now left. }
        unfold kept, filterFunHolidays in Hk.
        rewrite filterLoop_filter, app_nil_l in Hk.
        apply filter_In in Hk as [Hd Hf].
        rewrite isFun_existsb in Hf. apply negb_true_iff in Hf.
        exists holidayData, holiday. auto.
    + repeat split.
      * intros H. contradiction.
      * unfold len. cbn [List.length]. lia.
      * intros title [].
Qed.

End JobHolidays.

(** ** The job of main, stage by stage *)

Section Stages.
Import Strings Bot Slack SlackSpec.

Variable Net : Type.
Variable unicodeLower : gostring -> gostring.
Variable newGet : gostring -> result unit.
Variable clientGet : gostring -> Net -> result Rss.Response * Net.
Variable gzipNewReader : result gostring -> result (result gostring).
Variable xmlUnmarshal : gostring -> result Rss.Feed.
Variable marshalRequest : Llm.ClaudeRequest -> result gostring.
Variable newPost : gostring -> result unit.
Variable clientMessages :
  gostring -> gostring -> gostring -> Net -> result Rss.Response * Net.
Variable unmarshalResponse : gostring -> result Llm.ClaudeResponse.
Variable unmarshalSelection : gostring -> result (list Llm.SelectedEvent).
Variable sprintf : gostring -> Z -> gostring.
Variable today : Net -> gostring.
Variable jsonMarshal : SlackMessage -> result gostring.
Variable clientPost : gostring -> gostring -> Net -> result Rss.Response * Net.

Let fetchAll := Rss.FetchMultipleFeeds Net newGet clientGet gzipNewReader xmlUnmarshal.
Let select :=
  selectEvents Net marshalRequest newPost clientMessages unmarshalResponse
    unmarshalSelection sprintf.
Let holidaysOf := jobHolidays Net unicodeLower newGet clientGet gzipNewReader xmlUnmarshal.

Lemma FetchMultipleFeeds_some urls net stdout events net' stdout' :
  fetchAll urls net stdout = (Ok events, net', stdout') -> events <> [].
Proof.
  unfold fetchAll, Rss.FetchMultipleFeeds.
  destruct (Rss.fetchLoop _ _ _ _ _ _ _ _ _) as [[all net1] out1].
  destruct (len all =? 0) eqn:E; [discriminate|].
  intros [= <- _ _] ->. discriminate E.
Qed.

Lemma selectEvents_some cfg events net selected net' :
  select cfg events net = (Ok selected, net') -> selected <> [].
Proof.
  unfold select, selectEvents, Llm.SelectEvents. cbv zeta.
  destruct (len events =? 0); [discriminate|].
  destruct (Llm.callClaudeAPI _ _ _ _ _ _ _ _) as [[text|e] net1]; [|discriminate].
  destruct (Llm.parseSelection unmarshalSelection text) as [sel|e] eqn:Hp; [|discriminate].
  intros [= <- _]. now apply parseSelection_inv in Hp.
Qed.

(** X23.  The job goes through its stages in order and stops at the
    first that fails.  When no feed gives an event it returns the error
    of the feeds and the selector and the webhook are left alone; the
    events given to the selector are never none.  When the selection
    fails it returns that error and nothing is encoded or posted.
    Otherwise the selection is not empty, so the poster always has
    something to post: the message of the selected events and of the
    holidays of the job is encoded and, if that succeeds, posted once;
    what the job returns is what the post returns. *)
Theorem job_stage_by_stage (cfg : Config) (net : Net) (stdout : list gostring)
    (trace : list Effect) :
  let run :=
    job Net unicodeLower newGet clientGet gzipNewReader xmlUnmarshal marshalRequest
      newPost clientMessages unmarshalResponse unmarshalSelection sprintf today
      jsonMarshal clientPost cfg net stdout trace in
  match fetchAll (RSSFeedURLs cfg) net stdout with
  | (Err e, net1, stdout1) => run = (Err e, net1, stdout1, trace)
  | (Ok events, net1, stdout1) =>
      events <> [] /\
      match select cfg events net1 with
      | (Err e, net2) => run = (Err e, net2, stdout1, trace)
      | (Ok selected, net2) =>
          selected <> [] /\
          let holidays := fst (holidaysOf cfg net2) in
          let net3 := snd (holidaysOf cfg net2) in
          let message := formatMessageWithHolidays (today net3) selected holidays in
          exists added,
            snd run = (trace ++ [ReadClock; Marshal message]) ++ added /\
            snd (fst run) = stdout1 /\
            posted Net jsonMarshal newPost clientPost (SlackWebhookURL cfg) message net3
              (fst (fst (fst run))) (snd (fst (fst run))) added
      end
  end.
Proof.
  intros run. unfold run, job, createJob. fold fetchAll. fold select. fold holidaysOf.
  destruct (fetchAll (RSSFeedURLs cfg) net stdout) as [[[events|e] net1] stdout1] eqn:F;
    [|reflexivity].
  split; [exact (FetchMultipleFeeds_some _ _ _ _ _ _ F)|].
  destruct (select cfg events net1) as [[selected|e] net2] eqn:S; [|reflexivity].
  pose proof (selectEvents_some _ _ _ _ _ S) as Hsel.
  split; [exact Hsel|].
  destruct (holidaysOf cfg net2) as [holidays net3]. cbn [fst snd].
  destruct (PostEventsWithHolidays_posted Net today jsonMarshal newPost clientPost
              (SlackWebhookURL cfg) selected holidays net3 trace (or_introl Hsel))
    as (added & Ht & Hp).
  destruct (PostEventsWithHolidays Net today jsonMarshal newPost clientPost
              (SlackWebhookURL cfg) selected holidays net3 trace) as [[r net4] trace'].
  cbn [fst snd] in *. exists added. auto.
Qed.

End Stages.

(** ** FetchHolidays: when it succeeds *)

Section FetchHolidays.
Import Strings Rss ItemSpec FetchSpec.

Variable Net : Type.
Variable newRequest : gostring -> result unit.
Variable clientDo : gostring -> Net -> result Response * Net.
Variable gzipNewReader : result gostring -> result (result gostring).
Variable xmlUnmarshal : gostring -> result Feed.

Lemma fetchFeed_got url net feed net' :
  fetchFeed Net newRequest clientDo gzipNewReader xmlUnmarshal url net = (Ok feed, net')
  <-> got Net newRequest clientDo gzipNewReader xmlUnmarshal url net feed net'.
Proof.
  unfold fetchFeed, got. split.
  - intros H.
    destruct (newRequest url) as [u|e]; [|discriminate H].
    destruct (clientDo url net) as [[resp|e] net1]; [|discriminate H].
    destruct (StatusCode resp =? 200) eqn:Hs; cbn [negb] in H; [|discriminate H].
    apply Z.eqb_eq in Hs.
    destruct (eqb (ContentEncoding resp) (lit "gzip")) eqn:Hg.
    + destruct (gzipNewReader (Body resp)) as [[body|e]|e] eqn:Hz; try discriminate H.
      destruct (xmlUnmarshal body) as [fd|e] eqn:Hx; [|discriminate H].
      injection H as <- <-. exists resp, body. rewrite Hg. repeat split; auto.
    + destruct (Body resp) as [body|e] eqn:Hb; [|discriminate H].
      destruct (xmlUnmarshal body) as [fd|e] eqn:Hx; [|discriminate H].
      injection H as <- <-. exists resp, body. rewrite Hg. repeat split; auto.
  - intros (resp & body & Hr & Hc & Hs & Hb & Hx).
    destruct (newRequest url) as [u|e]; [|discriminate Hr].
    rewrite Hc. apply Z.eqb_eq in Hs. rewrite Hs. cbn [negb].
    destruct (eqb (ContentEncoding resp) (lit "gzip")); rewrite Hb, Hx; reflexivity.
Qed.

Lemma holidays_by_fields items :
  forall holidays,
    map Holiday_Title holidays = map Item_Title items ->
    map Holiday_Link holidays = map Item_Link items ->
    map Holiday_Description holidays
    = map (fun item => cleanHTML (Item_Description item)) items ->
    holidays =
    map (fun item => {| Holiday_Title := Item_Title item;
                        Holiday_Description := cleanHTML (Item_Description item);
                        Holiday_Link := Item_Link item |}) items.
Proof.
  induction items as [|item items IH]; intros [|[t d l] holidays] H1 H2 H3;
    try discriminate H1; [reflexivity|].
  cbn [map] in *. cbn [Holiday_Title Holiday_Link Holiday_Description] in *.
  injection H1 as -> H1. injection H2 as -> H2. injection H3 as -> H3.
  f_equal. now apply IH.
Qed.

(** X24.  [FetchHolidays] succeeds exactly when the feed is got, under
    the conditions of [FetchAndParse]; the holidays are then the items
    of the feed, one for one and in their order, each with the title
    and the link of its item as they are (the title is not cut at a
    colon) and with the cleaned description. *)
Theorem FetchHolidays_succeeds_exactly (url : gostring) (net : Net)
    (holidays : list Holiday) (net' : Net) :
  FetchHolidays Net newRequest clientDo gzipNewReader xmlUnmarshal url net
    = (Ok holidays, net') <->
  exists feed,
    got Net newRequest clientDo gzipNewReader xmlUnmarshal url net feed net' /\
    map Holiday_Title holidays = map Item_Title (Channel_Items (Feed_Channel feed)) /\
    map Holiday_Link holidays = map Item_Link (Channel_Items (Feed_Channel feed)) /\
    map Holiday_Description holidays
    = map (fun item => cleanHTML (Item_Description item))
          (Channel_Items (Feed_Channel feed)).
Proof.
  unfold FetchHolidays. split.
  - intros H.
    destruct (fetchFeed _ _ _ _ _ url net) as [[feed|e] net1] eqn:F; [|discriminate H].
    injection H as <- <-. apply fetchFeed_got in F. exists feed.
    split; [exact F|]. rewrite !map_map. repeat split.
  - intros (feed & Hg & H1 & H2 & H3). apply fetchFeed_got in Hg. rewrite Hg.
    now rewrite (holidays_by_fields _ _ H1 H2 H3).
Qed.

End FetchHolidays.

(** ** Run-once mode *)

Section RunOnce.
Import Scheduler Time.

Variable jobError : nat -> option gostring.
Variable jobDuration : nat -> Duration.
Variable pickDone : Z -> bool.

(** X25.  In run-once mode [Start] runs the job once, at the call, and
    returns nil when the job does and the error of the job behind
    "job failed: " otherwise, whatever the interval and whether or not
    the context is cancelled; and [StartAt], when the context is not
    cancelled before the wait is over, does the same at the end of the
    wait. *)
Theorem Start_run_once (s : Scheduler) (cancelAt : option Z) (firstRun : Time)
    (turns : nat) (w : World) :
  runOnce s = true ->
  let once (at_ : Z) :=
    (Returned (match jobError (List.length (started w)) with
               | Some e => Some (lit "job failed: " ++ e)
               | None => None
               end),
     {| clock := at_ + Z.max 0 (jobDuration (List.length (started w)));
        started := started w ++ [at_] |}) in
  Start jobError jobDuration cancelAt pickDone s turns w = once (clock w) /\
  let d := Sub firstRun (ofUnixNano (clock w)) in
  let delay := if d <? 0 then d + 24 * Hour else d in
  let fire := clock w + Z.max 0 delay in
  ((forall tc, cancelAt = Some tc -> fire < tc) ->
   StartAt jobError jobDuration cancelAt pickDone s firstRun turns w = once fire).
Proof.
  intros Hm once. split.
  - unfold Start. rewrite Hm. reflexivity.
  - intros d delay fire Hc. unfold StartAt. fold d. fold delay. fold fire.
    assert (Hd : doneTaken cancelAt pickDone (clock w) fire = None).
    { unfold doneTaken. destruct cancelAt as [tc|]; [|reflexivity].
      specialize (Hc tc eq_refl).
      assert (E1 : (Z.max tc (clock w) <? fire) = false) by (apply Z.ltb_ge; lia).
      assert (E2 : (Z.max tc (clock w) =? fire) = false) by (apply Z.eqb_neq; lia).
      now rewrite E1, E2. }
    rewrite Hd. unfold Start. rewrite Hm. reflexivity.
Qed.

End RunOnce.

(** Witness: a failing job, run once, an hour after the call. *)
Lemma Start_run_once_witness :
  let s := Scheduler.NewScheduler 0 true in
  let w := {| Scheduler.clock := 10 * Time.Hour; Scheduler.started := [] |} in
  Scheduler.Start (fun _ => Some (lit "job failed")) (fun _ => Time.Second)
    (Some 0) (fun _ => true) s 0 w
  = (Scheduler.Returned (Some (lit "job failed: job failed")),
     {| Scheduler.clock := 10 * Time.Hour + Time.Second;
        Scheduler.started := [10 * Time.Hour] |}) /\
  Scheduler.StartAt (fun _ => Some (lit "job failed")) (fun _ => Time.Second)
    None (fun _ => true) s (Time.ofUnixNano (11 * Time.Hour)) 0 w
  = (Scheduler.Returned (Some (lit "job failed: job failed")),
     {| Scheduler.clock := 11 * Time.Hour + Time.Second;
        Scheduler.started := [11 * Time.Hour] |}).
Proof.
  split.
  - exact (proj1 (Start_run_once (fun _ => Some (lit "job failed")) (fun _ => Time.Second)
                    (fun _ => true) (Scheduler.NewScheduler 0 true) (Some 0)
                    (Time.ofUnixNano 0) 0
                    {| Scheduler.clock := 10 * Time.Hour; Scheduler.started := [] |}
                    eq_refl)).
  - apply (proj2 (Start_run_once (fun _ => Some (lit "job failed")) (fun _ => Time.Second)
                    (fun _ => true) (Scheduler.NewScheduler 0 true) None
                    (Time.ofUnixNano (11 * Time.Hour)) 0
                    {| Scheduler.clock := 10 * Time.Hour; Scheduler.started := [] |}
                    eq_refl)).
    intros tc H. discriminate H.
Defined.

(** ** The configuration *)

Section Loading.
Import Strings Config.

Variable Getenv : gostring -> gostring.

Lemma eqb_nil_false (s : gostring) : s <> [] -> eqb s [] = false.
Proof. destruct s; [congruence | reflexivity]. Qed.

Lemma getEnvOrDefault_set key d :
  d <> [] -> getEnvOrDefault Getenv key d <> [].
Proof.
  intros Hd. unfold getEnvOrDefault. cbv zeta.
  destruct (eqb (Getenv key) []) eqn:E; cbn [negb]; [exact Hd|].
  intros H. rewrite H in E. discriminate E.
Qed.

Lemma getEnvOrDefault_unset key d :
  Getenv key = [] -> getEnvOrDefault Getenv key d = d.
Proof. intros H. unfold getEnvOrDefault. now rewrite H. Qed.

(** X26.  [Load] asks for the webhook and for the key, in this order,
    a variable that is set to the empty string counting as one that is
    not set.  With both it succeeds, and the configuration has a model,
    a schedule, one feed and a prompt, none of them empty; where the
    environment does not say otherwise, two events are asked for, the
    bot does not run once only, and the schedule is one that
    [ParseCron] accepts: nine o'clock. *)
Theorem Load_requires_and_defaults :
  (Getenv (lit "SLACK_WEBHOOK_URL") = [] ->
   Load Getenv = Err (lit "SLACK_WEBHOOK_URL is required")) /\
  (Getenv (lit "SLACK_WEBHOOK_URL") <> [] -> Getenv (lit "CLAUDE_API_KEY") = [] ->
   Load Getenv = Err (lit "CLAUDE_API_KEY is required")) /\
  (Getenv (lit "SLACK_WEBHOOK_URL") <> [] -> Getenv (lit "CLAUDE_API_KEY") <> [] ->
   exists cfg,
     Load Getenv = Ok cfg /\
     SlackWebhookURL cfg = Getenv (lit "SLACK_WEBHOOK_URL") /\
     ClaudeAPIKey cfg = Getenv (lit "CLAUDE_API_KEY") /\
     ClaudeModel cfg <> [] /\ ScheduleCron cfg <> [] /\
     EventSelectionPrompt cfg <> [] /\
     (exists url, RSSFeedURLs cfg = [url] /\ url <> []) /\
     (Getenv (lit "MAX_EVENTS") = [] -> MaxEvents cfg = 2) /\
     (Getenv (lit "RUN_ONCE") = [] -> RunOnce cfg = false) /\
     (Getenv (lit "SCHEDULE_CRON") = [] ->
      Scheduler.ParseCron (ScheduleCron cfg) = Ok (9, 0))).
Proof.
  split; [|split].
  - intros H. unfold Load. cbv zeta. cbn [SlackWebhookURL]. now rewrite H.
  - intros H1 H2. unfold Load. cbv zeta. cbn [SlackWebhookURL ClaudeAPIKey].
    now rewrite (eqb_nil_false _ H1), H2.
  - intros H1 H2. unfold Load. cbv zeta. cbn [SlackWebhookURL ClaudeAPIKey].
    rewrite (eqb_nil_false _ H1), (eqb_nil_false _ H2).
    eexists. split; [reflexivity|].
    cbn [SlackWebhookURL ClaudeAPIKey ClaudeModel ScheduleCron EventSelectionPrompt
         RSSFeedURLs MaxEvents RunOnce].
    repeat split.
    + apply getEnvOrDefault_set. discriminate.
    + apply getEnvOrDefault_set. discriminate.
    + apply getEnvOrDefault_set. discriminate.
    + eexists. split; [reflexivity|]. apply getEnvOrDefault_set. discriminate.
    + intros H. unfold getEnvInt. now rewrite H.
    + intros H. unfold getEnvBool. now rewrite H.
    + intros H. rewrite (getEnvOrDefault_unset _ _ H). vm_compute. reflexivity.
Qed.

End Loading.

(** ** Integers of the environment *)

Section Decimal.
Import Strings Strconv Fmt CronSpec Config.

Local Abbreviation digits d :=
  (map byteval (list_ascii_of_string (NilEmpty.string_of_uint d))).

Ltac byte_value :=
  match goal with
  | |- context [byteval ?c] =>
      let v := eval vm_compute in (byteval c) in change (byteval c) with v
  end.

Lemma digits_acc d :
  forall acc : positive,
    fold_left (fun a x => 10 * a + (x - 48)) (digits d) (Z.pos acc)
    = Z.pos (Pos.of_uint_acc d acc).
Proof.
  induction d as [|d IH|d IH|d IH|d IH|d IH|d IH|d IH|d IH|d IH|d IH]; intros acc;
    [reflexivity| | | | | | | | | |];
    cbn [NilEmpty.string_of_uint list_ascii_of_string map fold_left Pos.of_uint_acc];
    rewrite <- IH; f_equal; byte_value; lia.
Qed.

Lemma digits_value d : digitsValue (digits d) = Z.of_N (Pos.of_uint d).
Proof.
  unfold digitsValue.
  induction d as [|d IH|d IH|d IH|d IH|d IH|d IH|d IH|d IH|d IH|d IH];
    [reflexivity| | | | | | | | | |];
    cbn [NilEmpty.string_of_uint list_ascii_of_string map fold_left Pos.of_uint];
    byte_value; try exact IH; apply digits_acc.
Qed.

Lemma digits_isDigit d : forallb isDigit (digits d) = true.
Proof.
  induction d as [|d IH|d IH|d IH|d IH|d IH|d IH|d IH|d IH|d IH|d IH];
    [reflexivity| | | | | | | | | |];
    cbn [NilEmpty.string_of_uint list_ascii_of_string map forallb];
    rewrite IH; byte_value; reflexivity.
Qed.

Lemma digits_nonempty d : d <> Decimal.Nil -> digits d <> [].
Proof. destruct d; [congruence | | | | | | | | | |]; discriminate. Qed.

(** What [formatInt] prints is an integer field of that value. *)
Lemma formatInt_field n : IntField (map byteval (formatInt n)) n.
Proof.
  unfold formatInt. destruct n as [|p|p]; cbn [Z.to_int NilZero.string_of_int].
  - exists [], [48]. repeat split; auto. discriminate.
  - pose proof (DecimalPos.Unsigned.to_uint_nonnil p) as Hn.
    assert (E : NilZero.string_of_uint (Pos.to_uint p)
                = NilEmpty.string_of_uint (Pos.to_uint p))
      by (destruct (Pos.to_uint p); [congruence | | | | | | | | | |]; reflexivity).
    rewrite E. exists [], (digits (Pos.to_uint p)). repeat split; auto.
    + now apply digits_nonempty.
    + apply digits_isDigit.
    + now rewrite digits_value, DecimalPos.Unsigned.of_to.
  - pose proof (DecimalPos.Unsigned.to_uint_nonnil p) as Hn.
    assert (E : NilZero.string_of_uint (Pos.to_uint p)
                = NilEmpty.string_of_uint (Pos.to_uint p))
      by (destruct (Pos.to_uint p); [congruence | | | | | | | | | |]; reflexivity).
    rewrite E. exists [45], (digits (Pos.to_uint p)). repeat split; auto.
    + now apply digits_nonempty.
    + apply digits_isDigit.
    + now rewrite digits_value, DecimalPos.Unsigned.of_to.
Qed.

Variable Getenv : gostring -> gostring.

Lemma ParseInt_not_digits c rest :
  existsb (fun b => negb (isDigit (byteval b))) rest = true ->
  isErr (ParseInt (byteval c :: map byteval rest)) = true.
Proof.
  intros H.
  assert (Hr : forallb isDigit (map byteval rest) = false).
  { apply not_true_is_false. intros Hf. rewrite forallb_forall in Hf.
    apply existsb_exists in H as (b & Hb & Hn).
    rewrite (Hf (byteval b)) in Hn; [discriminate Hn | now apply in_map]. }
  assert (Hne : rest <> []) by (intros ->; discriminate H).
  unfold ParseInt.
  destruct (byteval c =? 43); [|destruct (byteval c =? 45)].
  - destruct rest as [|b rest]; [congruence|]. cbn [map] in *. now rewrite Hr.
  - destruct rest as [|b rest]; [congruence|]. cbn [map] in *. now rewrite Hr.
  - cbn [forallb]. rewrite Hr, andb_false_r. reflexivity.
Qed.

(** X27.  [getEnvInt] reads back every integer of 64 bits from the
    decimal form in which [%d] prints it.  It falls back to the default
    when the variable is empty or not set, when it holds the decimal
    form of an integer beyond 64 bits, and when a character behind its
    first is not a digit. *)
Theorem getEnvInt_reads_decimal (key : gostring) (defaultValue : Z) :
  (Getenv key = [] -> getEnvInt Getenv key defaultValue = defaultValue) /\
  (forall n, Getenv key = formatInt n ->
     getEnvInt Getenv key defaultValue
     = if (- 2 ^ 63 <=? n) && (n <? 2 ^ 63) then n else defaultValue) /\
  (forall c rest, Getenv key = c :: rest ->
     existsb (fun b => negb (isDigit (byteval b))) rest = true ->
     getEnvInt Getenv key defaultValue = defaultValue).
Proof.
  split; [|split].
  - intros H. unfold getEnvInt. now rewrite H.
  - intros n H. unfold getEnvInt. rewrite H. cbv zeta.
    pose proof (formatInt_field n) as Hf.
    assert (Hne : eqb (formatInt n) [] = false).
    { apply eqb_nil_false. intros E. rewrite E in Hf.
      destruct Hf as (sign & ds & Ht & _ & Hd & _).
      destruct sign; [destruct ds; [congruence | discriminate Ht] | discriminate Ht]. }
    rewrite Hne. cbn [negb]. unfold Atoi. rewrite (ParseInt_field _ _ Hf).
    unfold inInt64. now destruct ((- 2 ^ 63 <=? n) && (n <? 2 ^ 63)).
  - intros c rest H Hx. unfold getEnvInt. rewrite H. cbv zeta.
    change (eqb (c :: rest) []) with false. cbn [negb]. unfold Atoi. cbn [map].
    pose proof (ParseInt_not_digits c rest Hx) as He.
    now destruct (ParseInt (byteval c :: map byteval rest)).
Qed.

End Decimal.

